(** * go-tease: connection teasers and replayable readers

    A shallow embedding of the Go package [tease] (client.go, server.go,
    errors.go, tee_reader.go, the forward multi reader and reader.go) and the
    properties of its detect / replay / pipe state machine.

    Conventions of the embedding.
    - Go [int] and [int64] values are [Z]; the lengths involved are lengths of
      slices held in memory, so no addition below reaches the 64-bit limit and
      the wrap-around is not written out.
    - A byte slice is a [list byte]; [len] is its length as a [Z].
    - A call [Read(b)] is modelled by the length [k] of [b]; it returns the
      bytes stored in [b[:n]], so that [n] is the length of the returned list.
    - A slice expression that Go checks at run time returns an [outcome];
      [Panic] is the run-time panic of an index out of range.
    - The mutex [mu] is not modelled: every method runs to completion, which
      is what holding the lock for the whole buffered path gives. *)

From Stdlib Require Import String Strings.Byte ZArith Lia Bool List.
Import ListNotations.
Open Scope Z_scope.

Set Implicit Arguments.

(** ** Go values *)

Definition bytes := list byte.

Definition len {A : Type} (l : list A) : Z := Z.of_nat (length l).

(** [copy(dst, src)] with [len(dst) = k]: the bytes that land in [dst]. *)
Definition copy (k : nat) (src : bytes) : bytes := firstn k src.

(** The bytes of a string literal. *)
Definition B (s : string) : bytes := list_byte_of_string s.

Inductive outcome (A : Type) : Type :=
| Ret (a : A)
| Panic.

Arguments Panic {A}.

Definition bind {A C : Type} (m : outcome A) (f : A -> outcome C) : outcome C :=
  match m with
  | Ret a => f a
  | Panic => Panic
  end.

Notation "x <- m ;; f" := (bind m (fun x => f))
  (at level 61, m at next level, right associativity).

(** [s[i:]]: Go panics unless [0 <= i <= len(s)]. *)
Definition slice_from (s : bytes) (i : Z) : outcome bytes :=
  if (0 <=? i) && (i <=? len s) then Ret (skipn (Z.to_nat i) s) else Panic.

(** ** [int64]

    Offsets and positions are [int64] values: the integers from [min_int64]
    to [max_int64].  The sum of two of them wraps around.  An integer outside
    that range is no [int64] value and no Go caller can pass it; on such
    arguments [add64] is the plain sum. *)

Definition min_int64 : Z := - 2 ^ 63.
Definition max_int64 : Z := 2 ^ 63 - 1.

Definition is_int64 (z : Z) : bool := (min_int64 <=? z) && (z <=? max_int64).

(** The [int64] with the same low 64 bits as [z]. *)
Definition wrap64 (z : Z) : Z := (z + 2 ^ 63) mod 2 ^ 64 - 2 ^ 63.

(** [a + b] on [int64]. *)
Definition add64 (a b : Z) : Z :=
  if is_int64 a && is_int64 b then wrap64 (a + b) else a + b.

(** ** Errors

    errors.go declares the four package errors; the seekers build theirs with
    [errors.New] in place, one constructor per message.  [EOF] is [io.EOF];
    [errNetClosed] and [errTimeout] are the transport's own errors. *)

Inductive error : Type :=
| errClosed          (* tease: invalid use of closed connection *)
| errHasWriten       (* tease: cannot read after write without pipe mode *)
| errAlreadyPipe     (* tease: connection already in pipe mode *)
| errMaxBuffer       (* tease: request exceeded MaxBuffer, closing connection *)
| EOF
| errNetClosed       (* use of closed network connection *)
| errTimeout         (* i/o timeout, os.ErrDeadlineExceeded *)
| errTeeSeekEnd      (* TeeReadSeeker.Seek: not implemented, seek from end *)
| errTeeWhence       (* TeeReadSeeker.Seek: invalid whence *)
| errTeeNegative     (* TeeReadSeeker.Seek: negative position *)
| errTeeBackwards    (* TeeReadSeeker.Seek: cannot go backwards! *)
| errMultiSeekEnd    (* ForwardMultiReadSeeker.Seek: not implemented, seek from end *)
| errMultiWhence     (* ForwardMultiReadSeeker.Seek: invalid whence *)
| errMultiNegative   (* ForwardMultiReadSeeker.Seek: negative position *)
| errMultiBackwards  (* ForwardMultiReadSeeker.Seek: cannot go backwards! *)
| errReaderSeekEnd   (* Reader.Seek: not implemented, seek from end *)
| errReaderWhence    (* Reader.Seek: invalid whence *)
| errReaderNegative  (* Reader.Seek: negative position *)
| errReaderPiped     (* Reader already piped, cannot go backwards! *)
| errOther (code : nat).

Definition error_eqb (a b : error) : bool :=
  match a, b with
  | errClosed, errClosed | errHasWriten, errHasWriten
  | errAlreadyPipe, errAlreadyPipe | errMaxBuffer, errMaxBuffer
  | EOF, EOF | errNetClosed, errNetClosed | errTimeout, errTimeout
  | errTeeSeekEnd, errTeeSeekEnd | errTeeWhence, errTeeWhence
  | errTeeNegative, errTeeNegative | errTeeBackwards, errTeeBackwards
  | errMultiSeekEnd, errMultiSeekEnd | errMultiWhence, errMultiWhence
  | errMultiNegative, errMultiNegative | errMultiBackwards, errMultiBackwards
  | errReaderSeekEnd, errReaderSeekEnd | errReaderWhence, errReaderWhence
  | errReaderNegative, errReaderNegative | errReaderPiped, errReaderPiped => true
  | errOther n, errOther m => Nat.eqb n m
  | _, _ => false
  end.

(** [errors.New("EOF")] as [ReadByte] builds it: an error of its own, which is
    not the value [io.EOF]. *)
Definition errReadByteEOF : error := errOther 0.

(** [err == e] on a Go error value, [nil] being [None]. *)
Definition err_is (err : option error) (e : error) : bool :=
  match err with
  | Some e' => error_eqb e' e
  | None => false
  end.

(** ** Byte sources: the [io.Reader] the package consumes

    A source is the script of what its [Read] will deliver: the chunks still
    to come (a [Read] never crosses a chunk boundary, so short reads are part
    of the model), whether the last chunk is delivered together with the
    final error, and the error every [Read] returns once the chunks are gone.
    [bytes.NewReader(s)] is the source with the single chunk [s], not eager,
    ending in [EOF]. *)

Record source : Type := mkSource {
  pending : list bytes;
  eager : bool;
  final : error
}.

Definition bytesReader (s : bytes) : source :=
  mkSource (match s with [] => [] | _ => [s] end) false EOF.

(** Everything the source will ever deliver. *)
Definition stream (s : source) : bytes := concat (pending s).

Definition is_nil {A : Type} (l : list A) : bool :=
  match l with [] => true | _ => false end.

Definition source_Read (s : source) (k : nat) : bytes * option error * source :=
  match pending s with
  | [] => ([], Some (final s), s)
  | c :: rest =>
      match skipn k c with
      | [] =>
          (firstn k c,
           if eager s && is_nil rest then Some (final s) else None,
           mkSource rest (eager s) (final s))
      | c' => (firstn k c, None, mkSource (c' :: rest) (eager s) (final s))
      end
  end.

(** ** The transport: [net.Conn]

    [incoming] is what the peer sends, [outgoing] the bytes the transport has
    accepted so far.  [wlimit] is a write deadline counted in bytes: with
    [Some q] the transport accepts [q] more bytes and then times out, which
    is how a [Write] returns [n < len(b)] together with an error. *)

Module Conn.

Record t : Type := mk {
  incoming : source;
  outgoing : bytes;
  wlimit : option nat;
  closed : bool
}.

Definition Read (c : t) (k : nat) : bytes * option error * t :=
  if closed c then ([], Some errNetClosed, c)
  else
    let '(d, e, s) := source_Read (incoming c) k in
    (d, e, mk s (outgoing c) (wlimit c) (closed c)).

Definition Write (c : t) (b : bytes) : Z * option error * t :=
  if closed c then (0, Some errNetClosed, c)
  else
    match wlimit c with
    | None => (len b, None, mk (incoming c) (outgoing c ++ b) None (closed c))
    | Some q =>
        if (length b <=? q)%nat
        then (len b, None,
              mk (incoming c) (outgoing c ++ b) (Some (q - length b)%nat) (closed c))
        else (Z.of_nat q, Some errTimeout,
              mk (incoming c) (outgoing c ++ firstn q b) (Some 0%nat) (closed c))
    end.

Definition Close (c : t) : option error * t :=
  if closed c then (Some errNetClosed, c)
  else (None, mk (incoming c) (outgoing c) (wlimit c) true).

(** [SetWriteDeadline]: a new allowance for the writes to come. *)
Definition SetWriteDeadline (c : t) (q : option nat) : option error * t :=
  if closed c then (Some errNetClosed, c)
  else (None, mk (incoming c) (outgoing c) q (closed c)).

(** A freshly accepted or dialed connection over which [inc] will arrive. *)
Definition fresh (inc : source) : t := mk inc [] None false.

(** The transport is open and will take [n] more bytes without error. *)
Definition accepts (c : t) (n : nat) : Prop :=
  closed c = false /\
  match wlimit c with None => True | Some q => (n <= q)%nat end.

End Conn.

(** ** Server: the wrapper for incoming connections (server.go) *)

Module Server.

Record t : Type := mk {
  conn : Conn.t;
  isPiped : bool;
  err : option error;
  MaxBuffer : Z;
  rawInput : bytes;
  inputCnt : Z;
  rawOutput : bytes
}.

Definition set_conn (c : t) (x : Conn.t) : t :=
  mk x (isPiped c) (err c) (MaxBuffer c) (rawInput c) (inputCnt c) (rawOutput c).
Definition set_isPiped (c : t) (x : bool) : t :=
  mk (conn c) x (err c) (MaxBuffer c) (rawInput c) (inputCnt c) (rawOutput c).
Definition set_err (c : t) (x : option error) : t :=
  mk (conn c) (isPiped c) x (MaxBuffer c) (rawInput c) (inputCnt c) (rawOutput c).
Definition set_MaxBuffer (c : t) (x : Z) : t :=
  mk (conn c) (isPiped c) (err c) x (rawInput c) (inputCnt c) (rawOutput c).
Definition set_rawInput (c : t) (x : bytes) : t :=
  mk (conn c) (isPiped c) (err c) (MaxBuffer c) x (inputCnt c) (rawOutput c).
Definition set_inputCnt (c : t) (x : Z) : t :=
  mk (conn c) (isPiped c) (err c) (MaxBuffer c) (rawInput c) x (rawOutput c).
Definition set_rawOutput (c : t) (x : bytes) : t :=
  mk (conn c) (isPiped c) (err c) (MaxBuffer c) (rawInput c) (inputCnt c) x.

Definition NewServer (cn : Conn.t) : t :=
  mk cn false None 1024 [] 0 [].

Definition Replay (c : t) : option error * t :=
  if isPiped c then (Some errAlreadyPipe, c)
  else
    (* wipe buffers in the alternate direction, reset counters *)
    let c := set_rawOutput c [] in
    let c := set_inputCnt c 0 in
    let c := if err_is (err c) errClosed then set_err c None else c in
    (None, c).

Definition Pipe (c : t) : outcome (option error * t) :=
  (* trim input buffer *)
  c <- (if inputCnt c >? 0
        then (ri <- slice_from (rawInput c) (inputCnt c) ;; Ret (set_rawInput c ri))
        else Ret c) ;;
  (* flush output buffer *)
  let '(err, c) :=
    if len (rawOutput c) >? 0
    then let '(_, e, cn) := Conn.Write (conn c) (rawOutput c) in
         (e, set_err (set_conn c cn) e)
    else (None, c) in
  (* reset counters, mark as connected *)
  let c := set_inputCnt c 0 in
  let c := set_isPiped c true in
  Ret (err, c).

Definition read (c : t) (k : nat) : outcome (bytes * option error * t) :=
  (* the named result [err], nil on entry; [c.err] is not consulted *)
  let err : option error := None in
  match err with
  | Some e => Ret ([], Some e, c)
  | None =>
    if isPiped c then
      if len (rawInput c) >? 0 then
        (* read out buffer before going to raw connection *)
        let d := copy k (rawInput c) in
        if Z.of_nat k <=? len (rawInput c) then
          (* [c.rawInput[n:]] with [n <= len(c.rawInput)] *)
          Ret (d, None, set_rawInput c (skipn (length d) (rawInput c)))
        else
          let c := set_rawInput c [] in
          let '(d', e, cn) := Conn.Read (conn c) (k - length d) in
          Ret (d ++ d', e, set_err (set_conn c cn) e)
      else
        let '(d, e, cn) := Conn.Read (conn c) k in
        Ret (d, e, set_err (set_conn c cn) e)
    else if len (rawOutput c) >? 0 then
      Ret ([], Some errHasWriten, set_err c (Some errHasWriten))
    else
      (* Buffer any additional reads *)
      r <- (if inputCnt c + Z.of_nat k >? len (rawInput c) then
              if inputCnt c + Z.of_nat k >? MaxBuffer c then
                let c := set_err c (Some errMaxBuffer) in
                let '(_, cn) := Conn.Close (conn c) in
                Ret (inl (Some errMaxBuffer, set_conn c cn))
              else
                let size := inputCnt c + Z.of_nat k - len (rawInput c) in
                let '(buff, e, cn) := Conn.Read (conn c) (Z.to_nat size) in
                let c := set_err (set_conn c cn) e in
                match e with
                | Some _ => Ret (inl (e, c))
                | None => Ret (inr (set_rawInput c (rawInput c ++ buff)))
                end
            else Ret (inr c)) ;;
      match r with
      | inl (e, c) => Ret ([], e, c)
      | inr c =>
          (* Read off what we have *)
          tail <- slice_from (rawInput c) (inputCnt c) ;;
          let d := copy k tail in
          Ret (d, None, set_inputCnt c (inputCnt c + len d))
      end
  end.

Definition Read (c : t) (k : nat) : outcome (bytes * option error * t) :=
  (* Short circuit for pipe mode *)
  if isPiped c && (len (rawInput c) =? 0) then
    let '(d, e, cn) := Conn.Read (conn c) k in
    Ret (d, e, set_conn c cn)
  else read c k.

(** [ReadByte]: a [Read] into a buffer of one byte; the byte counts only if
    the read returned it without error. *)
Definition ReadByte (c : t) : outcome (byte * option error * t) :=
  x <- Read c 1 ;;
  let '(d, e, c) := x in
  match d, e with
  | [b], None => Ret (b, None, c)
  | _, Some e => Ret (x00, Some e, c)
  | _, None => Ret (x00, Some errReadByteEOF, c)
  end.

Definition write (c : t) (b : bytes) : Z * option error * t :=
  (* the named result [err], nil on entry; [c.err] is not consulted *)
  let err : option error := None in
  match err with
  | Some e => (0, Some e, c)
  | None =>
    (* Mind limits *)
    if len (rawOutput c) + len b >? MaxBuffer c then
      let c := set_err c (Some errMaxBuffer) in
      let '(_, cn) := Conn.Close (conn c) in
      (0, Some errMaxBuffer, set_conn c cn)
    else
      (* add writes to buffer *)
      let c := set_rawOutput c (rawOutput c ++ b) in
      (len b, None, c)
  end.

Definition Write (c : t) (b : bytes) : Z * option error * t :=
  if isPiped c then
    let '(n, e, cn) := Conn.Write (conn c) b in
    (n, e, set_conn c cn)
  else write c b.

Definition Close (c : t) : option error * t :=
  if isPiped c then
    let '(e, cn) := Conn.Close (conn c) in
    (e, set_conn c cn)
  else (None, set_err c (Some errClosed)).

(** The calls a caller can make, and what each call hands back. *)
Inductive op : Type :=
| OpRead (k : nat)
| OpWrite (b : bytes)
| OpReplay
| OpPipe
| OpClose.

Inductive reply : Type :=
| Got (d : bytes) (e : option error)       (* Read: the bytes and the error *)
| Wrote (n : Z) (e : option error)         (* Write: the count and the error *)
| Done (e : option error).                 (* Replay, Pipe, Close *)

Definition step (c : t) (o : op) : outcome (reply * t) :=
  match o with
  | OpRead k => r <- Read c k ;; let '(d, e, c) := r in Ret (Got d e, c)
  | OpWrite b => let '(n, e, c) := Write c b in Ret (Wrote n e, c)
  | OpReplay => let '(e, c) := Replay c in Ret (Done e, c)
  | OpPipe => r <- Pipe c ;; let '(e, c) := r in Ret (Done e, c)
  | OpClose => let '(e, c) := Close c in Ret (Done e, c)
  end.

Fixpoint run (c : t) (ops : list op) : outcome (list reply * t) :=
  match ops with
  | [] => Ret ([], c)
  | o :: ops =>
      r <- step c o ;;
      let '(x, c) := r in
      r' <- run c ops ;;
      let '(xs, c) := r' in
      Ret (x :: xs, c)
  end.

(** The invariant of the data model. *)
Definition Inv (c : t) : Prop :=
  0 <= inputCnt c <= len (rawInput c) /\
  len (rawInput c) <= MaxBuffer c /\
  len (rawOutput c) <= MaxBuffer c.

End Server.

(** ** Client: the wrapper for outgoing connections (client.go) *)

Module Client.

Record t : Type := mk {
  conn : Conn.t;
  isPiped : bool;
  err : option error;
  MaxBuffer : Z;
  rawInput : bytes;
  inputCnt : Z;
  rawOutput : bytes;
  outputCnt : Z
}.

Definition set_conn (c : t) (x : Conn.t) : t :=
  mk x (isPiped c) (err c) (MaxBuffer c) (rawInput c) (inputCnt c)
     (rawOutput c) (outputCnt c).
Definition set_isPiped (c : t) (x : bool) : t :=
  mk (conn c) x (err c) (MaxBuffer c) (rawInput c) (inputCnt c)
     (rawOutput c) (outputCnt c).
Definition set_err (c : t) (x : option error) : t :=
  mk (conn c) (isPiped c) x (MaxBuffer c) (rawInput c) (inputCnt c)
     (rawOutput c) (outputCnt c).
Definition set_MaxBuffer (c : t) (x : Z) : t :=
  mk (conn c) (isPiped c) (err c) x (rawInput c) (inputCnt c)
     (rawOutput c) (outputCnt c).
Definition set_rawInput (c : t) (x : bytes) : t :=
  mk (conn c) (isPiped c) (err c) (MaxBuffer c) x (inputCnt c)
     (rawOutput c) (outputCnt c).
Definition set_inputCnt (c : t) (x : Z) : t :=
  mk (conn c) (isPiped c) (err c) (MaxBuffer c) (rawInput c) x
     (rawOutput c) (outputCnt c).
Definition set_rawOutput (c : t) (x : bytes) : t :=
  mk (conn c) (isPiped c) (err c) (MaxBuffer c) (rawInput c) (inputCnt c)
     x (outputCnt c).
Definition set_outputCnt (c : t) (x : Z) : t :=
  mk (conn c) (isPiped c) (err c) (MaxBuffer c) (rawInput c) (inputCnt c)
     (rawOutput c) x.

Definition NewClient (cn : Conn.t) : t :=
  mk cn false None 1024 [] 0 [] 0.

(** Change the client connection and send out the write buffer.  The old
    connection is closed and dropped. *)
Definition SetNewConn (c : t) (cn : Conn.t) : option error * t :=
  let c := set_conn c cn in
  let '(n, e, cn) := Conn.Write (conn c) (rawOutput c) in
  (e, set_outputCnt (set_conn c cn) n).

Definition Replay (c : t) : option error * t :=
  if isPiped c then (Some errAlreadyPipe, c)
  else
    let c := set_rawInput c [] in
    let c := set_outputCnt (set_inputCnt c 0) 0 in
    let c := if err_is (err c) errClosed then set_err c None else c in
    (None, c).

Definition Pipe (c : t) : outcome (option error * t) :=
  (* trim input buffer *)
  c <- (if inputCnt c >? 0
        then (ri <- slice_from (rawInput c) (inputCnt c) ;; Ret (set_rawInput c ri))
        else Ret c) ;;
  (* flush output buffer *)
  r <- (if (len (rawOutput c) >? 0) && (outputCnt c <? len (rawOutput c))
        then
          out <- slice_from (rawOutput c) (outputCnt c - 1) ;;
          let '(_, e, cn) := Conn.Write (conn c) out in
          Ret (e, set_err (set_conn c cn) e)
        else Ret (None, c)) ;;
  let '(err, c) := r in
  (* reset counters, mark as connected *)
  let c := set_outputCnt (set_inputCnt c 0) 0 in
  let c := set_isPiped c true in
  Ret (err, c).

Definition Read (c : t) (k : nat) : bytes * option error * t :=
  let '(d, e, cn) := Conn.Read (conn c) k in
  (d, e, set_conn c cn).

Definition write (c : t) (b : bytes) : Z * option error * t :=
  (* the named result [err], nil on entry; [c.err] is not consulted *)
  let err : option error := None in
  match err with
  | Some e => (0, Some e, c)
  | None =>
    (* Mind limits *)
    if len (rawOutput c) + len b >? MaxBuffer c then
      let c := set_err c (Some errMaxBuffer) in
      let '(_, cn) := Conn.Close (conn c) in
      (0, Some errMaxBuffer, set_conn c cn)
    else
      (* add writes to buffer *)
      let c := set_rawOutput c (rawOutput c ++ b) in
      let '(n, e, cn) := Conn.Write (conn c) b in
      (n, e, set_outputCnt (set_conn c cn) (outputCnt c + n))
  end.

Definition Write (c : t) (b : bytes) : Z * option error * t :=
  if isPiped c then
    let '(n, e, cn) := Conn.Write (conn c) b in
    (n, e, set_conn c cn)
  else write c b.

Definition Close (c : t) : option error * t :=
  if isPiped c then
    let '(e, cn) := Conn.Close (conn c) in
    (e, set_conn c cn)
  else (None, set_err c (Some errClosed)).

Definition SetWriteDeadline (c : t) (q : option nat) : option error * t :=
  let '(e, cn) := Conn.SetWriteDeadline (conn c) q in
  (e, set_conn c cn).

Definition ReadByte (c : t) : byte * option error * t :=
  let '(d, e, c) := Read c 1 in
  match d, e with
  | [b], None => (b, None, c)
  | _, Some e => (x00, Some e, c)
  | _, None => (x00, Some errReadByteEOF, c)
  end.

(** The calls a caller can make, and what each call hands back. *)
Inductive op : Type :=
| OpRead (k : nat)
| OpWrite (b : bytes)
| OpReplay
| OpPipe
| OpClose
| OpSetNewConn (cn : Conn.t)
| OpSetWriteDeadline (q : option nat).

Inductive reply : Type :=
| Got (d : bytes) (e : option error)
| Wrote (n : Z) (e : option error)
| Done (e : option error).

Definition step (c : t) (o : op) : outcome (reply * t) :=
  match o with
  | OpRead k => let '(d, e, c) := Read c k in Ret (Got d e, c)
  | OpWrite b => let '(n, e, c) := Write c b in Ret (Wrote n e, c)
  | OpReplay => let '(e, c) := Replay c in Ret (Done e, c)
  | OpPipe => r <- Pipe c ;; let '(e, c) := r in Ret (Done e, c)
  | OpClose => let '(e, c) := Close c in Ret (Done e, c)
  | OpSetNewConn cn => let '(e, c) := SetNewConn c cn in Ret (Done e, c)
  | OpSetWriteDeadline q => let '(e, c) := SetWriteDeadline c q in Ret (Done e, c)
  end.

Fixpoint run (c : t) (ops : list op) : outcome (list reply * t) :=
  match ops with
  | [] => Ret ([], c)
  | o :: ops =>
      r <- step c o ;;
      let '(x, c) := r in
      r' <- run c ops ;;
      let '(xs, c) := r' in
      Ret (x :: xs, c)
  end.

(** What the client keeps of its counters and buffers. *)
Definition Inv (c : t) : Prop :=
  inputCnt c = 0 /\ rawInput c = [] /\
  0 <= outputCnt c <= len (rawOutput c) /\
  len (rawOutput c) <= MaxBuffer c.

End Client.

(** ** The forward multi reader (multi_reader.go)

    The readers a [forwardMultiReadSeeker] concatenates are interface values:
    a scripted source, a [bytes.Buffer], a nested multi reader, or the
    [eofReader] stand-in.  A nested reader is stored by value; the Go code
    holds a pointer, which this package never shares between two readers. *)

Definition SeekStart : Z := 0.
Definition SeekCurrent : Z := 1.
Definition SeekEnd : Z := 2.

#[warnings="-register-all"] Inductive reader : Type :=
| SrcReader (s : source)
| BufReader (b : bytes)
| MultiReader (readers : list reader) (pos : Z)
| eofReader.

(** [Read] of a [bytes.Buffer]: an empty buffer answers [io.EOF], unless [p]
    is empty too. *)
Definition buffer_Read (b : bytes) (k : nat) : bytes * option error * bytes :=
  match b with
  | [] => if (k =? 0)%nat then ([], None, []) else ([], Some EOF, [])
  | _ => (firstn k b, None, skipn k b)
  end.

Fixpoint reader_size (r : reader) : nat :=
  match r with
  | MultiReader rs _ => S (list_sum (map reader_size rs))
  | _ => 1
  end.

Definition readers_size (rs : list reader) : nat :=
  list_sum (map reader_size rs).

(** The bytes a reader still has to deliver. *)
Fixpoint reader_content (r : reader) : bytes :=
  match r with
  | SrcReader s => stream s
  | BufReader b => b
  | MultiReader rs _ => concat (map reader_content rs)
  | eofReader => []
  end.

Definition readers_content (rs : list reader) : bytes :=
  concat (map reader_content rs).

Definition is_some {A : Type} (o : option A) : bool :=
  match o with Some _ => true | None => false end.

Module Multi.

Record forwardMultiReadSeeker : Type := mk {
  readers : list reader;
  pos : Z
}.

(** [ForwardMultiReadSeeker] allocates the scratch buffer [buf] with
    [make([]byte, 2048)]; only its length matters. *)
Definition buf_len : Z := 2048.

Definition ForwardMultiReadSeeker (rs : list reader) : forwardMultiReadSeeker :=
  mk rs 0.

Definition result : Type := bytes * option error * list reader * Z.

(** [mr.readers[0].Read(p)], by the dynamic type of the reader; [rec] is
    [Read] of a nested multi reader. *)
Definition reader_Read_with
    (rec : list reader -> Z -> nat -> option result)
    (r : reader) (k : nat) : option (bytes * option error * reader) :=
  match r with
  | SrcReader s =>
      let '(d, e, s) := source_Read s k in Some (d, e, SrcReader s)
  | BufReader b =>
      let '(d, e, b) := buffer_Read b k in Some (d, e, BufReader b)
  | MultiReader rs p =>
      match rec rs p k with
      | Some (d, e, rs, p) => Some (d, e, MultiReader rs p)
      | None => None
      end
  | eofReader => Some ([], Some EOF, eofReader)
  end.

(** The loop of [Read]; one unit of fuel per turn of the loop or per descent
    into a nested reader.  [None] is fuel run out. *)
Fixpoint Read_loop (fuel : nat) (rs : list reader) (pos : Z) (k : nat)
  : option result :=
  match fuel with
  | O => None
  | S fuel =>
      match rs with
      | [] => Some ([], Some EOF, [], pos)
      | [MultiReader rs' _] =>
          (* flatten the nested reader *)
          Read_loop fuel rs' pos k
      | r0 :: rest =>
          match reader_Read_with (Read_loop fuel) r0 k with
          | None => None
          | Some (d, e, r0) =>
              let pos := pos + len d in
              (* an exhausted reader is dropped *)
              let rs := if err_is e EOF then rest else r0 :: rest in
              if (len d >? 0) || negb (err_is e EOF) then
                (* Don't return EOF yet. More readers remain. *)
                let e := if err_is e EOF && (len rs >? 0) then None else e in
                Some (d, e, rs, pos)
              else Read_loop fuel rs pos k
          end
      end
  end.

Definition Read (mr : forwardMultiReadSeeker) (k : nat)
  : bytes * option error * forwardMultiReadSeeker :=
  match Read_loop (S (readers_size (readers mr))) (readers mr) (pos mr) k with
  | Some (d, e, rs, p) => (d, e, mk rs p)
  | None => ([], Some EOF, mr)
  end.

(** The loop of [Seek]: [tr] bytes are still to be skipped, [bl] is the
    length of the next read, [err] the error of the last one. *)
Fixpoint Seek_loop (fuel : nat) (mr : forwardMultiReadSeeker) (tr bl : Z)
    (err : option error) : option error * forwardMultiReadSeeker :=
  match fuel with
  | O => (err, mr)
  | S fuel =>
      if tr >? 0 then
        let bl := if tr <? bl then tr else bl in
        let '(d, e, mr) := Read mr (Z.to_nat bl) in
        if is_some e || negb (len d =? bl) then (e, mr)
        else Seek_loop fuel mr (tr - bl) bl e
      else (err, mr)
  end.

Definition Seek (mr : forwardMultiReadSeeker) (offset whence : Z)
  : Z * option error * forwardMultiReadSeeker :=
  if whence =? SeekEnd then (0, Some errMultiSeekEnd, mr)
  else if negb ((whence =? SeekStart) || (whence =? SeekCurrent))
  then (0, Some errMultiWhence, mr)
  else
    let abs := if whence =? SeekStart then offset else add64 (pos mr) offset in
    if abs <? 0 then (0, Some errMultiNegative, mr)
    else if abs <? pos mr then (0, Some errMultiBackwards, mr)
    else
      let tr := abs - pos mr in
      let '(e, mr) := Seek_loop (Z.to_nat tr) mr tr buf_len None in
      (pos mr, e, mr).

(** [n] successive [Read]s, each through a buffer of [k] bytes. *)
Fixpoint Reads (mr : forwardMultiReadSeeker) (n : nat) (k : nat)
  : list (bytes * option error) * forwardMultiReadSeeker :=
  match n with
  | O => ([], mr)
  | S n =>
      let '(d, e, mr) := Read mr k in
      let '(l, mr) := Reads mr n k in
      ((d, e) :: l, mr)
  end.

End Multi.

(** ** The tee reader (tee_reader.go)

    [r] is the source, [w] the writer every byte read is copied to.  The
    package only ever tees into a [bytes.Buffer], whose [Write] appends and
    never fails; [w] is the content of that buffer.  [Seek] is the one of
    tee_reader.go, which skips with [io.CopyN(io.Discard, ...)]; an earlier
    revision of the file skipped through a scratch buffer, with the loop the
    multi reader still has. *)

Module Tee.

Record teeReadSeeker : Type := mk {
  r : source;
  w : bytes;
  pos : Z
}.

Definition TeeReadSeeker (r : source) (w : bytes) : teeReadSeeker := mk r w 0.

Definition Read (t : teeReadSeeker) (k : nat) : bytes * option error * teeReadSeeker :=
  let '(d, e, s) := source_Read (r t) k in
  if len d >? 0
  then (d, e, mk s (w t ++ d) (pos t))     (* t.w.Write(p[:n]), which succeeds *)
  else (d, e, mk s (w t) (pos t)).

(** [io.Discard.ReadFrom] on [io.LimitReader(t, n)]: reads of at most 8192
    bytes until the limit is used up or a read fails.  [left] is the [N] of
    the limited reader, [done] the total so far.  A failing read other than
    [io.EOF] is returned as it is; [io.EOF] ends the copy without error. *)
Fixpoint Discard_ReadFrom (fuel : nat) (t : teeReadSeeker) (left done : Z)
  : Z * option error * teeReadSeeker :=
  match fuel with
  | O => (done, None, t)
  | S fuel =>
      if left <=? 0 then (done, None, t)
      else
        let '(d, e, t) := Read t (Z.to_nat (Z.min 8192 left)) in
        match e with
        | Some e => (done + len d, if error_eqb e EOF then None else Some e, t)
        | None => Discard_ReadFrom fuel t (left - len d) (done + len d)
        end
  end.

(** [io.CopyN(io.Discard, t, n)]. *)
Definition CopyN_Discard (t : teeReadSeeker) (n : Z)
  : Z * option error * teeReadSeeker :=
  let fuel := (Z.to_nat n + length (pending (r t)) + 1)%nat in
  let '(written, e, t) := Discard_ReadFrom fuel t n 0 in
  if written =? n then (n, None, t)
  else if (written <? n) && negb (is_some e) then (written, Some EOF, t)
  else (written, e, t).

Definition Seek (t : teeReadSeeker) (offset whence : Z)
  : Z * option error * teeReadSeeker :=
  if whence =? SeekEnd then (0, Some errTeeSeekEnd, t)
  else if negb ((whence =? SeekStart) || (whence =? SeekCurrent))
  then (0, Some errTeeWhence, t)
  else
    let abs := if whence =? SeekStart then offset else add64 (pos t) offset in
    if abs <? 0 then (0, Some errTeeNegative, t)
    else if abs <? pos t then (0, Some errTeeBackwards, t)
    else
      let '(np, e, t) := CopyN_Discard t (abs - pos t) in
      let t := mk (r t) (w t) (pos t + np) in
      (pos t, e, t).

End Tee.

(** ** The replay reader (reader.go)

    [c.buf] and [c.r] are the very objects the tee holds as [w] and [r], so
    the record keeps them once, inside [r_tee].  [Pipe] hands both to the
    multi reader [r_mr]; from then on every method goes through [r_mr], and
    the buffer and the source live there. *)

Module Reader.

Record t : Type := mk {
  r_tee : Tee.teeReadSeeker;
  r_mr : option Multi.forwardMultiReadSeeker;
  pos : Z;
  pipe : bool
}.

Definition buf (c : t) : bytes := Tee.w (r_tee c).
Definition r (c : t) : source := Tee.r (r_tee c).

Definition NewReader (s : source) : t :=
  mk (Tee.TeeReadSeeker s []) None 0 false.

Definition Pipe (c : t) : t :=
  if pipe c then c
  else
    let mr := Multi.ForwardMultiReadSeeker [BufReader (buf c); SrcReader (r c)] in
    let '(_, _, mr) := Multi.Seek mr (pos c) SeekStart in
    mk (r_tee c) (Some mr) (pos c) true.

(** Seek without pipe. *)
Definition seek (c : t) (offset whence : Z) : Z * option error * t :=
  if whence =? SeekEnd then (0, Some errReaderSeekEnd, c)
  else if negb ((whence =? SeekStart) || (whence =? SeekCurrent))
  then (0, Some errReaderWhence, c)
  else
    let abs := if whence =? SeekStart then offset else add64 (pos c) offset in
    if abs <? 0 then (0, Some errReaderNegative, c)
    else if abs >? len (buf c) then
      let '(n, e, tee) := Tee.Seek (r_tee c) abs SeekStart in
      (n, e, mk tee (r_mr c) n (pipe c))
    else (abs, None, mk (r_tee c) (r_mr c) abs (pipe c)).

(** A method call on [c.r_mr]; on a nil interface it panics. *)
Definition on_mr {A : Type} (c : t)
    (f : Multi.forwardMultiReadSeeker -> A * Multi.forwardMultiReadSeeker)
  : outcome (A * t) :=
  match r_mr c with
  | Some mr => let '(a, mr) := f mr in Ret (a, mk (r_tee c) (Some mr) (pos c) (pipe c))
  | None => Panic
  end.

Definition Seek (c : t) (offset whence : Z) : outcome (Z * option error * t) :=
  if pipe c then on_mr c (fun mr => Multi.Seek mr offset whence)
  else Ret (seek c offset whence).

Definition ReadAt (c : t) (k : nat) (off : Z) : outcome (bytes * option error * t) :=
  if pipe c then
    if off <? pos c then Ret ([], Some errReaderPiped, c)
    else
      x <- on_mr c (fun mr => Multi.Seek mr off SeekStart) ;;
      let '(n, e, c) := x in
      if negb (n =? off) || is_some e then Ret ([], e, c)
      else on_mr c (fun mr => Multi.Read mr k)
  else
    (* Seek filling buffer *)
    let '(n, e, c) := seek c (off + Z.of_nat k) SeekStart in
    if n <=? off then Ret ([], e, c)
    else
      (* Read off the slice *)
      tail <- slice_from (buf c) off ;;
      Ret (copy k tail, e, c).

Definition Read (c : t) (k : nat) : outcome (bytes * option error * t) :=
  if pipe c then on_mr c (fun mr => Multi.Read mr k)
  else ReadAt c k (pos c).

(** [ReadByte] returns [oneByte[0]] whatever [Read] said: the byte read, or
    the zero the slice was made with. *)
Definition ReadByte (c : t) : outcome (byte * option error * t) :=
  x <- Read c 1 ;;
  let '(d, e, c) := x in
  Ret (match d with b :: _ => b | [] => x00 end, e, c).

(** Successive [Read]s, each through a buffer of the given length. *)
Fixpoint Reads (c : t) (ks : list nat) : outcome (list (bytes * option error) * t) :=
  match ks with
  | [] => Ret ([], c)
  | k :: ks =>
      x <- Read c k ;;
      let '(d, e, c) := x in
      y <- Reads c ks ;;
      let '(l, c) := y in
      Ret ((d, e) :: l, c)
  end.

(** Where the next [Read] takes its bytes from: the cursor while buffering,
    the position of the multi reader once piped. *)
Definition position (c : t) : Z :=
  match pipe c, r_mr c with
  | true, Some mr => Multi.pos mr
  | _, _ => pos c
  end.

(** While buffering, the tee has read exactly what the buffer holds and the
    cursor lies inside the buffer. *)
Definition Buffering (c : t) : Prop :=
  pipe c = false /\ Tee.pos (r_tee c) = len (buf c) /\ 0 <= pos c <= len (buf c).

(** Every byte the reader can still reach: the buffer and the source behind
    it while buffering, the readers of the multi reader once piped. *)
Definition all_bytes (c : t) : bytes := buf c ++ stream (r c).

Definition remaining (c : t) : bytes :=
  match pipe c, r_mr c with
  | true, Some mr => readers_content (Multi.readers mr)
  | _, _ => skipn (Z.to_nat (pos c)) (all_bytes c)
  end.

(** The bytes a run of reads returned, in order. *)
Definition data_of (xs : list (bytes * option error)) : bytes :=
  concat (map fst xs).

(** The two errors that refuse to move backwards. *)
Definition is_backward_error (e : option error) : Prop :=
  e = Some errReaderPiped \/ e = Some errMultiBackwards.

End Reader.

(** ** Runs of a server, and what they deliver *)

(** The bytes the [Read]s of a run returned, in order. *)
Fixpoint delivered (xs : list Server.reply) : bytes :=
  match xs with
  | [] => []
  | Server.Got d _ :: xs => d ++ delivered xs
  | _ :: xs => delivered xs
  end.

(** The bytes delivered by a run, cut at every [Replay]: [cur] collects the
    bytes read since the last [Replay]. *)
Fixpoint segments (ops : list Server.op) (xs : list Server.reply) (cur : bytes)
  : list bytes :=
  match ops, xs with
  | Server.OpReplay :: ops, _ :: xs => cur :: segments ops xs []
  | Server.OpRead _ :: ops, Server.Got d _ :: xs => segments ops xs (cur ++ d)
  | _ :: ops, _ :: xs => segments ops xs cur
  | _, _ => [cur]
  end.

(** [a] is an initial part of [b]. *)
Definition is_prefix (a b : bytes) : Prop := a = firstn (length a) b.

(** The invariant that the operations preserve: the one of the data model,
    plus the fact that a piped server has its cursor at zero. *)
Definition Server_Inv' (c : Server.t) : Prop :=
  Server.Inv c /\ (Server.isPiped c = true -> Server.inputCnt c = 0).

(** What holds of a detecting server between two calls: [cur], the bytes
    read since the last [Replay], is the input buffer up to the cursor, and
    the input buffer followed by what the transport still holds is the
    stream [total] (up to bytes a failing transport read gave up, [junk],
    after which the transport has nothing left). *)
Definition Replay_Inv (total : bytes) (c : Server.t) (cur : bytes) : Prop :=
  Server.isPiped c = false /\
  0 <= Server.inputCnt c <= len (Server.rawInput c) /\
  cur = firstn (Z.to_nat (Server.inputCnt c)) (Server.rawInput c) /\
  exists junk,
    total = Server.rawInput c ++ junk ++ stream (Conn.incoming (Server.conn c)) /\
    (junk <> [] -> pending (Conn.incoming (Server.conn c)) = []).

(** ** Scenarios *)

(** A server closed while detecting, with one byte on its way. *)
Definition closed_server : Server.t :=
  snd (Server.Close (Server.NewServer (Conn.fresh (bytesReader (B "a"))))).

(** A client closed while detecting. *)
Definition closed_client : Client.t :=
  snd (Client.Close (Client.NewClient (Conn.fresh (bytesReader [])))).

(** A client whose probe [abc] was cut short by a write deadline after two
    bytes, and whose deadline was lifted afterwards. *)
Definition half_sent_client : Client.t :=
  let cn := Conn.mk (bytesReader []) [] (Some 2%nat) false in
  let '(_, _, c) := Client.Write (Client.NewClient cn) (B "abc") in
  snd (Client.SetWriteDeadline c None).

(** A client that sent the probe [abc] and then called [Replay]. *)
Definition replayed_client : Client.t :=
  let '(_, _, c) := Client.Write (Client.NewClient (Conn.fresh (bytesReader []))) (B "abc") in
  snd (Client.Replay c).

(** A detecting server into which one byte has been written. *)
Definition spoken_server : Server.t :=
  let '(_, _, c) := Server.Write (Server.NewServer (Conn.fresh (bytesReader (B "a")))) (B "x") in c.

(** A fresh server and a fresh client, each with room for four bytes. *)
Definition small_server : Server.t :=
  Server.set_MaxBuffer (Server.NewServer (Conn.fresh (bytesReader (B "abcdef")))) 4.
Definition small_client : Client.t :=
  Client.set_MaxBuffer (Client.NewClient (Conn.fresh (bytesReader []))) 4.

(** The same server once three bytes have been read off the transport. *)
Definition sniffed_server : Server.t :=
  match Server.Read small_server 3 with
  | Ret (_, _, c) => c
  | Panic => small_server
  end.

(** The server [small_server] after a read of three bytes, a [Replay] and a
    read of one byte: [abc] is buffered, the cursor stands after [a]. *)
Definition resniffed_server : Server.t :=
  match Server.run small_server [Server.OpRead 3; Server.OpReplay; Server.OpRead 1] with
  | Ret (_, c) => c
  | Panic => small_server
  end.

(** A client that has sent the probe [abc] over a first connection. *)
Definition probing_client : Client.t :=
  let '(_, _, c) :=
    Client.Write (Client.set_MaxBuffer (Client.NewClient (Conn.fresh (bytesReader []))) 8)
                 (B "abc") in c.

(** A client over a transport that delivers its last byte, [z], together
    with the end of data. *)
Definition last_byte_client : Client.t :=
  Client.NewClient (Conn.fresh (mkSource [B "z"] true EOF)).

(** A tee over a source that delivers [a], then [bcd], then [e]. *)
Definition abcde_tee : Tee.teeReadSeeker :=
  Tee.TeeReadSeeker (mkSource [B "a"; B "bcd"; B "e"] false EOF) [].

(** The multi reader over the three sources [abc], the empty one, [def]. *)
Definition abc_def : Multi.forwardMultiReadSeeker :=
  Multi.ForwardMultiReadSeeker
    [SrcReader (bytesReader (B "abc")); SrcReader (bytesReader (B ""));
     SrcReader (bytesReader (B "def"))].

(** A reader over a source that delivers [a], then [bcd], then [e]. *)
Definition abcde_reader : Reader.t :=
  Reader.NewReader (mkSource [B "a"; B "bcd"; B "e"] false EOF).

(** * Properties *)

(** ** [int64] sums *)

Lemma wrap64_id (z : Z) : min_int64 <= z <= max_int64 -> wrap64 z = z.
Proof.
  unfold wrap64, min_int64, max_int64. intros H.
  rewrite Z.mod_small by lia. lia.
Qed.

Lemma wrap64_range (z : Z) : min_int64 <= wrap64 z <= max_int64.
Proof.
  unfold wrap64, min_int64, max_int64.
  pose proof (Z.mod_pos_bound (z + 2 ^ 63) (2 ^ 64) ltac:(lia)). lia.
Qed.

(** A sum that fits is exact. *)
Lemma add64_exact (a b : Z) : min_int64 <= a + b <= max_int64 -> add64 a b = a + b.
Proof.
  intros H. unfold add64. destruct (is_int64 a && is_int64 b); [|reflexivity].
  apply wrap64_id. exact H.
Qed.

(** Moving back from [a] to a target that is not negative never wraps. *)
Lemma add64_back (a b : Z) : 0 <= a + b < a -> add64 a b = a + b.
Proof.
  intros H. unfold add64. destruct (is_int64 a && is_int64 b) eqn:E; [|reflexivity].
  apply andb_prop in E. destruct E as [Ea _].
  unfold is_int64 in Ea. apply andb_prop in Ea. destruct Ea as [_ Ea].
  apply wrap64_id. unfold min_int64, max_int64 in *. lia.
Qed.

(** The sum of two [int64] values is one. *)
Lemma add64_is_int64 (a b : Z) :
  is_int64 a = true -> is_int64 b = true -> is_int64 (add64 a b) = true.
Proof.
  intros Ha Hb. unfold add64. rewrite Ha, Hb. simpl.
  pose proof (wrap64_range (a + b)). unfold is_int64. lia.
Qed.

(** Split a conjunction into its parts without unfolding anything. *)
Ltac splits := repeat match goal with |- _ /\ _ => split end.

(** ** Bytes and slices *)

Lemma len_nonneg {A : Type} (l : list A) : 0 <= len l.
Proof. unfold len. lia. Qed.

Lemma len_app {A : Type} (l1 l2 : list A) : len (l1 ++ l2) = len l1 + len l2.
Proof. unfold len. rewrite length_app. lia. Qed.

Lemma len_nil {A : Type} : len (@nil A) = 0.
Proof. reflexivity. Qed.

Lemma len_pos_iff {A : Type} (l : list A) : (len l >? 0) = negb (is_nil l).
Proof. destruct l; reflexivity. Qed.

Lemma slice_from_ok (s : bytes) (i : Z) :
  0 <= i <= len s -> slice_from s i = Ret (skipn (Z.to_nat i) s).
Proof.
  intros H. unfold slice_from.
  destruct (0 <=? i) eqn:E1; destruct (i <=? len s) eqn:E2; simpl; try reflexivity; lia.
Qed.

Lemma slice_from_panic (s : bytes) (i : Z) :
  i < 0 \/ len s < i -> slice_from s i = Panic.
Proof.
  intros H. unfold slice_from.
  destruct (0 <=? i) eqn:E1; destruct (i <=? len s) eqn:E2; simpl; try reflexivity; lia.
Qed.

Lemma len_copy (k : nat) (s : bytes) : len (copy k s) = Z.min (Z.of_nat k) (len s).
Proof. unfold len, copy. rewrite length_firstn. lia. Qed.

(** ** The sticky fault *)

(** C1, at the failing input: [Close] during detection stores [errClosed] as
    the fault, yet the next buffered [Read] of the server reads the
    transport and returns its byte without error (and wipes the fault), and
    the next buffered [Write] of the client buffers and sends its byte.  The
    guard at the head of [read] and [write] tests the named result, which is
    nil there, not the stored fault. *)
Theorem sticky_fault_not_consulted :
  (Server.isPiped closed_server = false /\
   Server.err closed_server = Some errClosed /\
   exists c', Server.Read closed_server 1 = Ret (B "a", None, c') /\
              Server.rawInput c' = B "a" /\ Server.err c' = None /\
              stream (Conn.incoming (Server.conn c')) = []) /\
  (Client.isPiped closed_client = false /\
   Client.err closed_client = Some errClosed /\
   exists c', Client.Write closed_client (B "x") = (1, None, c') /\
              Client.rawOutput c' = B "x" /\
              Conn.outgoing (Client.conn c') = B "x").
Proof.
  split.
  - repeat split; try reflexivity. eexists. repeat split; reflexivity.
  - repeat split; try reflexivity. eexists. repeat split; reflexivity.
Qed.

(** ** The flush of [Client.Pipe] *)

(** C2, at the failing inputs: with two of three bytes sent, [Pipe] writes
    [rawOutput[1:]], the two bytes [bc], so that [b] reaches the transport
    twice; the unsent suffix is [c] alone.  With nothing marked sent after
    [Replay], the slice [rawOutput[-1:]] panics. *)
Theorem Client_Pipe_flushes_from_outputCnt_minus_1 :
  (Client.isPiped half_sent_client = false /\
   Client.rawOutput half_sent_client = B "abc" /\
   Client.outputCnt half_sent_client = 2 /\
   Conn.outgoing (Client.conn half_sent_client) = B "ab" /\
   exists c', Client.Pipe half_sent_client = Ret (None, c') /\
              Conn.outgoing (Client.conn c') = B "abbc") /\
  (Client.isPiped replayed_client = false /\
   Client.rawOutput replayed_client = B "abc" /\
   Client.outputCnt replayed_client = 0 /\
   Client.Pipe replayed_client = Panic).
Proof.
  split.
  - repeat split; try reflexivity. eexists. split; reflexivity.
  - repeat split; reflexivity.
Qed.

(** ** Read after write *)

(** C5 as stated fails: after the rejected [Read] the transport is still
    open. *)
Lemma read_after_write_leaves_conn_open :
  Server.isPiped spoken_server = false /\
  Server.rawOutput spoken_server = B "x" /\
  exists c', Server.Read spoken_server 1 = Ret ([], Some errHasWriten, c') /\
             Server.err c' = Some errHasWriten /\
             Conn.closed (Server.conn c') = false.
Proof.
  repeat split. eexists. repeat split; reflexivity.
Qed.

(** C5, amended: a buffered [Read] of a detecting server with a non-empty
    output buffer fails with [errHasWriten] and stores it as the fault;
    nothing else changes, and the transport in particular is neither read
    nor closed. *)
Theorem read_after_write (c : Server.t) (k : nat) :
  Server.isPiped c = false ->
  Server.rawOutput c <> [] ->
  Server.Read c k = Ret ([], Some errHasWriten, Server.set_err c (Some errHasWriten)) /\
  Server.conn (Server.set_err c (Some errHasWriten)) = Server.conn c.
Proof.
  intros Hp Ho. split; [|reflexivity].
  unfold Server.Read, Server.read. rewrite Hp. simpl.
  rewrite len_pos_iff. destruct (Server.rawOutput c); [congruence|reflexivity].
Qed.

Lemma read_after_write_witness :
  Server.Read spoken_server 1
  = Ret ([], Some errHasWriten, Server.set_err spoken_server (Some errHasWriten)) /\
  Server.conn (Server.set_err spoken_server (Some errHasWriten)) = Server.conn spoken_server.
Proof.
  apply (@read_after_write spoken_server 1%nat); [reflexivity | discriminate].
Defined.

(** ** Exceeding MaxBuffer *)

Lemma Conn_Close_closed (cn : Conn.t) : Conn.closed (snd (Conn.Close cn)) = true.
Proof. unfold Conn.Close. destruct (Conn.closed cn) eqn:E; simpl; auto. Qed.

(** C6: in detecting mode, a server [Read] that would have to buffer beyond
    [MaxBuffer] (it asks for more than is buffered, and cursor plus request
    pass the limit; the output buffer is empty, the read being refused as a
    read after write otherwise), a server [Write] and a client [Write] whose
    bytes would take the output buffer beyond [MaxBuffer] each fail with
    [errMaxBuffer], store it as the fault and close the transport.  A client
    [Read] goes straight to the transport and buffers nothing. *)
Theorem buffer_exceeded :
  (forall (c : Server.t) (k : nat),
      Server.isPiped c = false ->
      Server.rawOutput c = [] ->
      Server.inputCnt c + Z.of_nat k > len (Server.rawInput c) ->
      Server.inputCnt c + Z.of_nat k > Server.MaxBuffer c ->
      exists c', Server.Read c k = Ret ([], Some errMaxBuffer, c') /\
                 Server.err c' = Some errMaxBuffer /\
                 Conn.closed (Server.conn c') = true) /\
  (forall (c : Server.t) (b : bytes),
      Server.isPiped c = false ->
      len (Server.rawOutput c) + len b > Server.MaxBuffer c ->
      exists c', Server.Write c b = (0, Some errMaxBuffer, c') /\
                 Server.err c' = Some errMaxBuffer /\
                 Conn.closed (Server.conn c') = true) /\
  (forall (c : Client.t) (b : bytes),
      Client.isPiped c = false ->
      len (Client.rawOutput c) + len b > Client.MaxBuffer c ->
      exists c', Client.Write c b = (0, Some errMaxBuffer, c') /\
                 Client.err c' = Some errMaxBuffer /\
                 Conn.closed (Client.conn c') = true).
Proof.
  repeat split.
  - intros c k Hp Ho H1 H2.
    unfold Server.Read, Server.read. rewrite Hp, Ho. simpl.
    destruct (Server.inputCnt c + Z.of_nat k >? len (Server.rawInput c)) eqn:E1; [|lia].
    destruct (Server.inputCnt c + Z.of_nat k >? Server.MaxBuffer c) eqn:E2; [|lia].
    pose proof (Conn_Close_closed (Server.conn c)) as Hc.
    destruct (Conn.Close (Server.conn c)) as [e cn]. simpl in *.
    eexists. repeat split. exact Hc.
  - intros c b Hp H.
    unfold Server.Write, Server.write. rewrite Hp.
    destruct (len (Server.rawOutput c) + len b >? Server.MaxBuffer c) eqn:E; [|lia].
    pose proof (Conn_Close_closed (Server.conn c)) as Hc. simpl.
    destruct (Conn.Close (Server.conn c)) as [e cn]. simpl in *.
    eexists. repeat split. exact Hc.
  - intros c b Hp H.
    unfold Client.Write, Client.write. rewrite Hp.
    destruct (len (Client.rawOutput c) + len b >? Client.MaxBuffer c) eqn:E; [|lia].
    pose proof (Conn_Close_closed (Client.conn c)) as Hc. simpl.
    destruct (Conn.Close (Client.conn c)) as [e cn]. simpl in *.
    eexists. repeat split. exact Hc.
Qed.

Lemma buffer_exceeded_witness :
  (exists c', Server.Read small_server 5 = Ret ([], Some errMaxBuffer, c') /\
              Server.err c' = Some errMaxBuffer /\
              Conn.closed (Server.conn c') = true) /\
  (exists c', Server.Write small_server (B "hello") = (0, Some errMaxBuffer, c') /\
              Server.err c' = Some errMaxBuffer /\
              Conn.closed (Server.conn c') = true) /\
  (exists c', Client.Write small_client (B "hello") = (0, Some errMaxBuffer, c') /\
              Client.err c' = Some errMaxBuffer /\
              Conn.closed (Client.conn c') = true).
Proof.
  destruct buffer_exceeded as (H1 & H2 & H3).
  split; [|split].
  - apply (H1 small_server 5%nat); vm_compute; reflexivity.
  - apply (H2 small_server (B "hello")); vm_compute; reflexivity.
  - apply (H3 small_client (B "hello")); vm_compute; reflexivity.
Defined.

(** ** What Pipe writes *)

Lemma Conn_Write_accepts (cn : Conn.t) (b : bytes) (n : nat) :
  Conn.accepts cn n -> (length b <= n)%nat ->
  exists cn', Conn.Write cn b = (len b, None, cn') /\
              Conn.outgoing cn' = Conn.outgoing cn ++ b /\
              Conn.incoming cn' = Conn.incoming cn /\
              Conn.accepts cn' (n - length b).
Proof.
  intros [Hc Hw] Hn. unfold Conn.Write, Conn.accepts. rewrite Hc.
  destruct (Conn.wlimit cn) as [q|].
  - destruct (length b <=? q)%nat eqn:E.
    + eexists. repeat split; simpl; auto. lia.
    + apply Nat.leb_gt in E. lia.
  - eexists. repeat split; simpl; auto.
Qed.

(** [Pipe] on a server whose cursor lies inside its input buffer and whose
    transport takes the output buffer whole. *)
Lemma Server_Pipe_ok (c : Server.t) (n : nat) :
  0 <= Server.inputCnt c <= len (Server.rawInput c) ->
  Conn.accepts (Server.conn c) n ->
  (length (Server.rawOutput c) <= n)%nat ->
  exists c', Server.Pipe c = Ret (None, c') /\
             Server.isPiped c' = true /\
             Server.inputCnt c' = 0 /\
             Server.rawInput c' = skipn (Z.to_nat (Server.inputCnt c)) (Server.rawInput c) /\
             Server.rawOutput c' = Server.rawOutput c /\
             Server.MaxBuffer c' = Server.MaxBuffer c /\
             Conn.outgoing (Server.conn c')
             = Conn.outgoing (Server.conn c) ++ Server.rawOutput c /\
             Conn.accepts (Server.conn c') (n - length (Server.rawOutput c)).
Proof.
  intros Hi Ha Hn. unfold Server.Pipe.
  assert (Ht : exists c1,
             (if Server.inputCnt c >? 0
              then ri <- slice_from (Server.rawInput c) (Server.inputCnt c) ;;
                   Ret (Server.set_rawInput c ri)
              else Ret c) = Ret c1 /\
             Server.rawInput c1 = skipn (Z.to_nat (Server.inputCnt c)) (Server.rawInput c) /\
             Server.rawOutput c1 = Server.rawOutput c /\
             Server.conn c1 = Server.conn c /\
             Server.MaxBuffer c1 = Server.MaxBuffer c).
  { destruct (Server.inputCnt c >? 0) eqn:E.
    - rewrite slice_from_ok by lia. simpl. eexists. repeat split.
    - exists c. repeat split.
      replace (Server.inputCnt c) with 0 by lia. reflexivity. }
  destruct Ht as (c1 & -> & Hri & Hro & Hcn & Hmb). simpl.
  destruct (len (Server.rawOutput c1) >? 0) eqn:E.
  - rewrite Hro, Hcn.
    destruct (Conn_Write_accepts (Server.rawOutput c) Ha Hn) as (cn' & -> & Ho & _ & Ha').
    eexists. split; [reflexivity|]. simpl. splits; auto.
  - eexists. split; [reflexivity|]. simpl. splits; auto.
    + rewrite Hcn. rewrite Hro in E.
      destruct (Server.rawOutput c); [rewrite app_nil_r; reflexivity | discriminate].
    + rewrite Hcn. destruct Ha as [Hc Hw]. split; auto.
      destruct (Conn.wlimit (Server.conn c)); auto. lia.
Qed.

(** C10: [Server.Pipe] leaves the output buffer in place, so on every server
    with a non-empty output buffer (cursor inside the input buffer, transport
    taking the bytes) a second [Pipe] writes the same bytes once more: the
    transport has received them twice, which one [Pipe] alone does not do. *)
Theorem Server_Pipe_twice_writes_twice (c : Server.t) :
  Server.rawOutput c <> [] ->
  0 <= Server.inputCnt c <= len (Server.rawInput c) ->
  Conn.accepts (Server.conn c) (2 * length (Server.rawOutput c)) ->
  exists c1 c2,
    Server.Pipe c = Ret (None, c1) /\
    Server.Pipe c1 = Ret (None, c2) /\
    Server.rawOutput c1 = Server.rawOutput c /\
    Conn.outgoing (Server.conn c1)
    = Conn.outgoing (Server.conn c) ++ Server.rawOutput c /\
    Conn.outgoing (Server.conn c2)
    = Conn.outgoing (Server.conn c) ++ Server.rawOutput c ++ Server.rawOutput c /\
    Conn.outgoing (Server.conn c2) <> Conn.outgoing (Server.conn c1).
Proof.
  intros Hne Hi Ha.
  destruct (@Server_Pipe_ok c (2 * length (Server.rawOutput c))%nat Hi Ha)
    as (c1 & E1 & _ & Hi1 & _ & Ho1 & _ & Hout1 & Ha1); [lia|].
  destruct (@Server_Pipe_ok c1 (2 * length (Server.rawOutput c)
                                - length (Server.rawOutput c))%nat)
    as (c2 & E2 & _ & _ & _ & _ & _ & Hout2 & _).
  { rewrite Hi1. pose proof (len_nonneg (Server.rawInput c1)). lia. }
  { exact Ha1. }
  { rewrite Ho1. lia. }
  exists c1, c2. repeat split; auto.
  - rewrite Hout2, Hout1, Ho1, <- app_assoc. reflexivity.
  - rewrite Hout2, Hout1, Ho1. intros H.
    apply (f_equal (@length byte)) in H. rewrite !length_app in H.
    destruct (Server.rawOutput c); [congruence | simpl in H; lia].
Qed.

Lemma Server_Pipe_twice_writes_twice_witness :
  exists c1 c2,
    Server.Pipe spoken_server = Ret (None, c1) /\
    Server.Pipe c1 = Ret (None, c2) /\
    Server.rawOutput c1 = Server.rawOutput spoken_server /\
    Conn.outgoing (Server.conn c1)
    = Conn.outgoing (Server.conn spoken_server) ++ Server.rawOutput spoken_server /\
    Conn.outgoing (Server.conn c2)
    = Conn.outgoing (Server.conn spoken_server) ++ Server.rawOutput spoken_server
      ++ Server.rawOutput spoken_server /\
    Conn.outgoing (Server.conn c2) <> Conn.outgoing (Server.conn c1).
Proof.
  apply (@Server_Pipe_twice_writes_twice spoken_server).
  - discriminate.
  - vm_compute. split; discriminate.
  - vm_compute. split; [reflexivity | exact I].
Defined.

Lemma Server_run_app (c : Server.t) (ops1 ops2 : list Server.op) :
  Server.run c (ops1 ++ ops2)
  = (x <- Server.run c ops1 ;;
     let '(xs, c1) := x in
     y <- Server.run c1 ops2 ;;
     let '(ys, c2) := y in
     Ret (xs ++ ys, c2)).
Proof.
  revert c. induction ops1 as [|o ops1 IH]; intros c; simpl.
  - destruct (Server.run c ops2) as [[ys c2]|]; reflexivity.
  - destruct (Server.step c o) as [[x c1]|]; simpl; [|reflexivity].
    rewrite IH. destruct (Server.run c1 ops1) as [[xs c2]|]; simpl; [|reflexivity].
    destruct (Server.run c2 ops2) as [[ys c3]|]; reflexivity.
Qed.

(** Buffered writes that fit: each returns its length, and the output buffer
    grows by the chunks in order; nothing else moves. *)
Lemma Server_run_writes (chunks : list bytes) (c : Server.t) :
  Server.isPiped c = false ->
  len (Server.rawOutput c) + len (concat chunks) <= Server.MaxBuffer c ->
  Server.run c (map Server.OpWrite chunks)
  = Ret (map (fun b => Server.Wrote (len b) None) chunks,
         Server.set_rawOutput c (Server.rawOutput c ++ concat chunks)).
Proof.
  revert c. induction chunks as [|b chunks IH]; intros c Hp Hl; simpl.
  - rewrite app_nil_r. destruct c; reflexivity.
  - simpl in Hl. rewrite len_app in Hl.
    pose proof (len_nonneg (concat chunks)).
    unfold Server.Write, Server.write. rewrite Hp.
    destruct (len (Server.rawOutput c) + len b >? Server.MaxBuffer c) eqn:E; [lia|].
    simpl. rewrite IH; simpl; auto.
    + rewrite <- app_assoc. reflexivity.
    + rewrite len_app. lia.
Qed.

(** C3: on a detecting server with an empty output buffer, [k] bytes written
    in any number of chunks, [k] within [MaxBuffer], are all accepted, and
    the [Pipe] that follows hands the transport exactly those bytes, in
    order, once. *)
Theorem Server_writes_then_Pipe (c : Server.t) (chunks : list bytes) :
  Server.isPiped c = false ->
  Server.rawOutput c = [] ->
  0 <= Server.inputCnt c <= len (Server.rawInput c) ->
  len (concat chunks) <= Server.MaxBuffer c ->
  Conn.accepts (Server.conn c) (length (concat chunks)) ->
  exists c',
    Server.run c (map Server.OpWrite chunks ++ [Server.OpPipe])
    = Ret (map (fun b => Server.Wrote (len b) None) chunks ++ [Server.Done None], c') /\
    Server.isPiped c' = true /\
    Conn.outgoing (Server.conn c') = Conn.outgoing (Server.conn c) ++ concat chunks.
Proof.
  intros Hp Ho Hi Hl Ha.
  rewrite Server_run_app, Server_run_writes; auto; [|rewrite Ho, len_nil; lia].
  simpl. rewrite Ho. simpl.
  destruct (@Server_Pipe_ok
              (Server.set_rawOutput c (concat chunks)) (length (concat chunks)))
    as (c' & E & Hp' & _ & _ & _ & _ & Hout & _); simpl; auto.
  rewrite E. simpl. exists c'. splits; auto.
Qed.

Lemma Server_writes_then_Pipe_witness :
  exists c',
    Server.run small_server (map Server.OpWrite [B "ab"; B ""; B "c"] ++ [Server.OpPipe])
    = Ret (map (fun b => Server.Wrote (len b) None) [B "ab"; B ""; B "c"]
             ++ [Server.Done None], c') /\
    Server.isPiped c' = true /\
    Conn.outgoing (Server.conn c')
    = Conn.outgoing (Server.conn small_server) ++ concat [B "ab"; B ""; B "c"].
Proof.
  apply (@Server_writes_then_Pipe small_server [B "ab"; B ""; B "c"]).
  - reflexivity.
  - reflexivity.
  - vm_compute. split; discriminate.
  - vm_compute. discriminate.
  - vm_compute. split; [reflexivity | exact I].
Defined.

(** ** The buffer invariant *)

Lemma source_Read_length (s : source) (k : nat) :
  (length (fst (fst (source_Read s k))) <= k)%nat.
Proof.
  unfold source_Read. destruct (pending s) as [|c rest]; simpl; [lia|].
  destruct (skipn k c); simpl; rewrite length_firstn; lia.
Qed.

Lemma Conn_Read_length (cn : Conn.t) (k : nat) :
  (length (fst (fst (Conn.Read cn k))) <= k)%nat.
Proof.
  unfold Conn.Read. destruct (Conn.closed cn); simpl; [lia|].
  pose proof (source_Read_length (Conn.incoming cn) k) as H.
  destruct (source_Read (Conn.incoming cn) k) as [[d e] s]. exact H.
Qed.

(** Closes the goals left once an operation has been unfolded. *)
Ltac inv_done :=
  unfold Server_Inv', Server.Inv; simpl; unfold len, copy in *; simpl;
  repeat first [rewrite length_skipn | rewrite length_app | rewrite length_firstn];
  splits; auto; try lia; try (intros; congruence).

Lemma Server_Read_Inv (c : Server.t) (k : nat) :
  Server_Inv' c ->
  exists d e c', Server.Read c k = Ret (d, e, c') /\ Server_Inv' c' /\
                 Server.MaxBuffer c' = Server.MaxBuffer c.
Proof.
  intros [(Hi & Hr & Ho) Hp]. unfold Server.Read, Server.read.
  destruct (Server.isPiped c) eqn:Ep; simpl.
  - specialize (Hp eq_refl).
    destruct (len (Server.rawInput c) =? 0) eqn:E0.
    + destruct (Conn.Read (Server.conn c) k) as [[d e] cn].
      do 3 eexists. split; [reflexivity|]. inv_done.
    + destruct (len (Server.rawInput c) >? 0) eqn:E1; [|lia].
      destruct (Z.of_nat k <=? len (Server.rawInput c)) eqn:E2.
      * do 3 eexists. split; [reflexivity|]. inv_done.
      * simpl.
        destruct (Conn.Read (Server.conn c) (k - length (copy k (Server.rawInput c))))
          as [[d e] cn].
        do 3 eexists. split; [reflexivity|]. inv_done.
  - destruct (len (Server.rawOutput c) >? 0) eqn:E0.
    + do 3 eexists. split; [reflexivity|]. inv_done.
    + destruct (Server.inputCnt c + Z.of_nat k >? len (Server.rawInput c)) eqn:E1.
      * destruct (Server.inputCnt c + Z.of_nat k >? Server.MaxBuffer c) eqn:E2.
        -- simpl. destruct (Conn.Close (Server.conn c)) as [e cn]. simpl.
           do 3 eexists. split; [reflexivity|]. inv_done.
        -- simpl.
           pose proof (Conn_Read_length (Server.conn c)
                         (Z.to_nat (Server.inputCnt c + Z.of_nat k
                                    - len (Server.rawInput c)))) as Hlen.
           destruct (Conn.Read (Server.conn c) _) as [[buff e] cn]. simpl in Hlen.
           destruct e as [e|]; simpl.
           ++ do 3 eexists. split; [reflexivity|]. inv_done.
           ++ rewrite slice_from_ok
                by (simpl; rewrite len_app; pose proof (len_nonneg buff); lia).
              simpl. do 3 eexists. split; [reflexivity|]. inv_done.
      * simpl. rewrite slice_from_ok by lia. simpl.
        do 3 eexists. split; [reflexivity|]. inv_done.
Qed.

Lemma Server_step_Inv (c : Server.t) (o : Server.op) :
  Server_Inv' c ->
  exists x c', Server.step c o = Ret (x, c') /\ Server_Inv' c' /\
               Server.MaxBuffer c' = Server.MaxBuffer c.
Proof.
  intros HI. destruct o as [k|b| | |]; simpl.
  - destruct (Server_Read_Inv k HI) as (d & e & c' & -> & HI' & Hm).
    simpl. eauto.
  - destruct HI as [(Hi & Hr & Ho) Hp].
    unfold Server.Write, Server.write.
    destruct (Server.isPiped c) eqn:Ep.
    + destruct (Conn.Write (Server.conn c) b) as [[n e] cn].
      do 2 eexists. split; [reflexivity|]. inv_done.
    + destruct (len (Server.rawOutput c) + len b >? Server.MaxBuffer c) eqn:E; simpl.
      * destruct (Conn.Close (Server.conn c)) as [e cn]. simpl.
        do 2 eexists. split; [reflexivity|]. inv_done.
      * do 2 eexists. split; [reflexivity|]. inv_done.
  - destruct HI as [(Hi & Hr & Ho) Hp]. unfold Server.Replay.
    destruct (Server.isPiped c) eqn:Ep.
    + do 2 eexists. split; [reflexivity|]. inv_done.
    + simpl. pose proof (len_nonneg (Server.rawInput c)).
      destruct (err_is (Server.err c) errClosed);
        (do 2 eexists; split; [reflexivity|]); inv_done.
  - destruct HI as [(Hi & Hr & Ho) Hp]. unfold Server.Pipe.
    destruct (Server.inputCnt c >? 0) eqn:E.
    + rewrite slice_from_ok by lia. simpl.
      destruct (len (Server.rawOutput c) >? 0).
      * destruct (Conn.Write (Server.conn c) (Server.rawOutput c)) as [[n e] cn].
        simpl. do 2 eexists. split; [reflexivity|]. inv_done.
      * simpl. do 2 eexists. split; [reflexivity|]. inv_done.
    + simpl. destruct (len (Server.rawOutput c) >? 0).
      * destruct (Conn.Write (Server.conn c) (Server.rawOutput c)) as [[n e] cn].
        simpl. do 2 eexists. split; [reflexivity|]. inv_done.
      * simpl. do 2 eexists. split; [reflexivity|]. inv_done.
  - destruct HI as [(Hi & Hr & Ho) Hp]. unfold Server.Close.
    destruct (Server.isPiped c) eqn:Ep.
    + destruct (Conn.Close (Server.conn c)) as [e cn].
      do 2 eexists. split; [reflexivity|]. inv_done.
    + do 2 eexists. split; [reflexivity|]. inv_done.
Qed.

Lemma Server_run_Inv (ops : list Server.op) (c : Server.t) :
  Server_Inv' c ->
  exists xs c', Server.run c ops = Ret (xs, c') /\ Server_Inv' c' /\
                Server.MaxBuffer c' = Server.MaxBuffer c.
Proof.
  revert c. induction ops as [|o ops IH]; intros c HI; simpl.
  - eauto.
  - destruct (Server_step_Inv o HI) as (x & c1 & -> & HI1 & Hm1). simpl.
    destruct (IH c1 HI1) as (xs & c2 & -> & HI2 & Hm2). simpl.
    do 2 eexists. split; [reflexivity|]. split; auto. congruence.
Qed.

(** C9: take a new server over any transport and configure any capacity
    [m >= 0]; run any sequence of Read, Write, Replay, Pipe and Close calls.
    After each of them (that is, after every prefix of the sequence) the
    run has not panicked, [MaxBuffer] is still [m], and
    [0 <= inputCnt <= len(rawInput) <= MaxBuffer] and
    [len(rawOutput) <= MaxBuffer] hold. *)
Theorem Server_invariant (cn : Conn.t) (m : Z) (ops : list Server.op) (n : nat) :
  0 <= m ->
  exists xs c',
    Server.run (Server.set_MaxBuffer (Server.NewServer cn) m) (firstn n ops)
    = Ret (xs, c') /\
    Server.MaxBuffer c' = m /\
    0 <= Server.inputCnt c' <= len (Server.rawInput c') /\
    len (Server.rawInput c') <= Server.MaxBuffer c' /\
    len (Server.rawOutput c') <= Server.MaxBuffer c'.
Proof.
  intros Hm.
  destruct (@Server_run_Inv (firstn n ops) (Server.set_MaxBuffer (Server.NewServer cn) m))
    as (xs & c' & E & [HI _] & HM).
  { inv_done. }
  exists xs, c'. split; [exact E|]. split; [exact HM|]. exact HI.
Qed.

Lemma Server_invariant_witness :
  exists xs c',
    Server.run (Server.set_MaxBuffer (Server.NewServer (Conn.fresh (bytesReader (B "abcdef")))) 4)
               (firstn 3 [Server.OpRead 3; Server.OpReplay; Server.OpRead 5; Server.OpPipe])
    = Ret (xs, c') /\
    Server.MaxBuffer c' = 4 /\
    0 <= Server.inputCnt c' <= len (Server.rawInput c') /\
    len (Server.rawInput c') <= Server.MaxBuffer c' /\
    len (Server.rawOutput c') <= Server.MaxBuffer c'.
Proof.
  apply (@Server_invariant (Conn.fresh (bytesReader (B "abcdef"))) 4
           [Server.OpRead 3; Server.OpReplay; Server.OpRead 5; Server.OpPipe] 3).
  lia.
Defined.

(** ** Replay *)

Lemma source_Read_stream (s : source) (k : nat) :
  let '(d, e, s') := source_Read s k in
  stream s = d ++ stream s' /\
  (pending s = [] -> d = [] /\ e <> None /\ pending s' = []) /\
  (e <> None -> pending s' = []).
Proof.
  unfold source_Read, stream. destruct s as [p eg f]. simpl.
  destruct p as [|c rest]; simpl.
  - splits; auto; try discriminate. intros _. splits; auto. discriminate.
  - destruct (skipn k c) as [|x c'] eqn:E; simpl.
    + splits.
      * rewrite <- (firstn_skipn k c) at 1. rewrite E, app_nil_r. reflexivity.
      * discriminate.
      * destruct eg; simpl; [|congruence]. destruct rest; simpl; congruence.
    + splits.
      * rewrite <- (firstn_skipn k c) at 1. rewrite E, <- app_assoc. reflexivity.
      * discriminate.
      * congruence.
Qed.

Lemma Conn_Read_stream (cn : Conn.t) (k : nat) :
  let '(d, e, cn') := Conn.Read cn k in
  stream (Conn.incoming cn) = d ++ stream (Conn.incoming cn') /\
  (pending (Conn.incoming cn) = [] -> d = [] /\ pending (Conn.incoming cn') = []) /\
  (e <> None -> d = [] \/ pending (Conn.incoming cn') = []).
Proof.
  unfold Conn.Read. destruct (Conn.closed cn).
  - splits; auto.
  - pose proof (source_Read_stream (Conn.incoming cn) k) as H.
    destruct (source_Read (Conn.incoming cn) k) as [[d e] s']. simpl.
    destruct H as (H1 & H2 & H3). splits; auto.
    intros Hp. destruct (H2 Hp) as (? & ? & ?). auto.
Qed.

Lemma is_prefix_firstn (n : nat) (l rest : bytes) :
  (n <= length l)%nat -> is_prefix (firstn n l) (l ++ rest).
Proof.
  intros H. unfold is_prefix. rewrite length_firstn, Nat.min_l by lia.
  rewrite firstn_app. replace (n - length l)%nat with 0%nat by lia.
  simpl. rewrite app_nil_r. reflexivity.
Qed.

Lemma Replay_Inv_prefix (total : bytes) (c : Server.t) (cur : bytes) :
  Replay_Inv total c cur -> is_prefix cur total.
Proof.
  intros (_ & Hi & -> & junk & -> & _).
  apply is_prefix_firstn. unfold len in Hi. lia.
Qed.

Lemma firstn_add_skipn (i k : nat) (l : bytes) :
  firstn i l ++ firstn k (skipn i l) = firstn (i + k) l.
Proof.
  revert l. induction i as [|i IH]; intros l; simpl; [reflexivity|].
  destruct l as [|x l]; simpl.
  - rewrite firstn_nil. reflexivity.
  - rewrite IH. reflexivity.
Qed.

(** Reading off the buffer moves [cur] along with the cursor. *)
Lemma read_off_cur (c : Server.t) (k : nat) :
  0 <= Server.inputCnt c <= len (Server.rawInput c) ->
  let d := copy k (skipn (Z.to_nat (Server.inputCnt c)) (Server.rawInput c)) in
  0 <= Server.inputCnt c + len d <= len (Server.rawInput c) /\
  firstn (Z.to_nat (Server.inputCnt c)) (Server.rawInput c) ++ d
  = firstn (Z.to_nat (Server.inputCnt c + len d)) (Server.rawInput c).
Proof.
  intros Hi d. subst d. unfold copy. split.
  - unfold len in *. rewrite length_firstn, length_skipn. lia.
  - rewrite firstn_add_skipn.
    assert (E : (Z.to_nat (Server.inputCnt c
                           + len (firstn k (skipn (Z.to_nat (Server.inputCnt c))
                                                  (Server.rawInput c))))
                 = Z.to_nat (Server.inputCnt c)
                   + Nat.min k (length (Server.rawInput c) - Z.to_nat (Server.inputCnt c)))%nat).
    { unfold len. rewrite length_firstn, length_skipn. lia. }
    rewrite E.
    destruct (Nat.le_ge_cases k (length (Server.rawInput c) - Z.to_nat (Server.inputCnt c))).
    + rewrite Nat.min_l by lia. reflexivity.
    + rewrite Nat.min_r by lia. unfold len in Hi.
      rewrite !firstn_all2 by lia. reflexivity.
Qed.

Lemma Server_Read_Replay_Inv (total : bytes) (c : Server.t) (cur : bytes) (k : nat) :
  Replay_Inv total c cur ->
  exists d e c', Server.Read c k = Ret (d, e, c') /\ Replay_Inv total c' (cur ++ d).
Proof.
  intros (Hp & Hi & Hcur & junk & Htot & Hjunk).
  unfold Server.Read, Server.read. rewrite Hp. simpl.
  destruct (len (Server.rawOutput c) >? 0) eqn:E0.
  { do 3 eexists. split; [reflexivity|]. rewrite app_nil_r.
    unfold Replay_Inv; simpl; splits; auto; try lia; exists junk; auto. }
  destruct (Server.inputCnt c + Z.of_nat k >? len (Server.rawInput c)) eqn:E1.
  - destruct (Server.inputCnt c + Z.of_nat k >? Server.MaxBuffer c) eqn:E2.
    + simpl. unfold Conn.Close.
      destruct (Conn.closed (Server.conn c)); simpl;
        (do 3 eexists; split; [reflexivity|]); rewrite app_nil_r;
        unfold Replay_Inv; simpl; splits; auto; try lia; exists junk; auto.
    + simpl.
      pose proof (Conn_Read_stream (Server.conn c)
                    (Z.to_nat (Server.inputCnt c + Z.of_nat k
                               - len (Server.rawInput c)))) as Hs.
      destruct (Conn.Read (Server.conn c) _) as [[buff e] cn].
      destruct Hs as (Hs1 & Hs2 & Hs3).
      destruct e as [e|]; simpl.
      * do 3 eexists. split; [reflexivity|]. rewrite app_nil_r.
        unfold Replay_Inv; simpl. splits; auto; try lia.
        exists (junk ++ buff). split.
        -- rewrite Htot, Hs1, <- !app_assoc. reflexivity.
        -- intros Hne. destruct junk as [|x junk].
           ++ destruct (Hs3 ltac:(discriminate)) as [->|Hpe]; [|exact Hpe].
              simpl in Hne. congruence.
           ++ apply Hs2. apply Hjunk. discriminate.
      * rewrite slice_from_ok
          by (simpl; rewrite len_app; pose proof (len_nonneg buff); lia).
        simpl.
        assert (Hi' : 0 <= Server.inputCnt c <= len (Server.rawInput c ++ buff))
          by (rewrite len_app; pose proof (len_nonneg buff); lia).
        pose proof (@read_off_cur
                      (Server.set_rawInput (Server.set_err (Server.set_conn c cn) None)
                                           (Server.rawInput c ++ buff)) k Hi') as [Hr1 Hr2].
        simpl in Hr1, Hr2.
        do 3 eexists. split; [reflexivity|].
        unfold Replay_Inv; simpl. splits; auto; try lia.
        -- rewrite <- Hr2. f_equal. rewrite Hcur.
           rewrite firstn_app.
           replace (Z.to_nat (Server.inputCnt c) - length (Server.rawInput c))%nat
             with 0%nat by (unfold len in Hi; lia).
           simpl. rewrite app_nil_r. reflexivity.
        -- destruct junk as [|x junk].
           ++ exists []. split; [|congruence].
              rewrite Htot, Hs1, <- !app_assoc. reflexivity.
           ++ destruct Hs2 as [-> Hpe]; [apply Hjunk; discriminate|].
              exists (x :: junk). split; [|auto].
              rewrite Htot, Hs1, app_nil_r. reflexivity.
  - simpl. rewrite slice_from_ok by lia. simpl.
    pose proof (@read_off_cur c k Hi) as [Hr1 Hr2].
    do 3 eexists. split; [reflexivity|].
    unfold Replay_Inv; simpl. splits; auto; try lia.
    + rewrite <- Hr2, Hcur. reflexivity.
    + exists junk; auto.
Qed.

Lemma Server_step_Replay_Inv (total : bytes) (c : Server.t) (cur : bytes) (o : Server.op) :
  o <> Server.OpPipe ->
  Replay_Inv total c cur ->
  exists x c', Server.step c o = Ret (x, c') /\
    match o, x with
    | Server.OpReplay, _ => Replay_Inv total c' []
    | Server.OpRead _, Server.Got d _ => Replay_Inv total c' (cur ++ d)
    | Server.OpRead _, _ => False
    | _, _ => Replay_Inv total c' cur
    end.
Proof.
  intros Ho HJ. destruct o as [k|b| | |]; simpl; try congruence.
  - destruct (Server_Read_Replay_Inv k HJ) as (d & e & c' & -> & HJ'). simpl. eauto.
  - destruct HJ as (Hp & Hi & Hcur & junk & Htot & Hjunk).
    unfold Server.Write, Server.write. rewrite Hp.
    destruct (len (Server.rawOutput c) + len b >? Server.MaxBuffer c); simpl.
    + unfold Conn.Close. destruct (Conn.closed (Server.conn c)); simpl;
        (do 2 eexists; split; [reflexivity|]);
        unfold Replay_Inv; simpl; splits; auto; try lia; exists junk; auto.
    + do 2 eexists. split; [reflexivity|].
      unfold Replay_Inv; simpl; splits; auto; try lia; exists junk; auto.
  - destruct HJ as (Hp & Hi & Hcur & junk & Htot & Hjunk).
    unfold Server.Replay. rewrite Hp. simpl.
    pose proof (len_nonneg (Server.rawInput c)).
    destruct (err_is (Server.err c) errClosed);
      (do 2 eexists; split; [reflexivity|]);
      unfold Replay_Inv; simpl; splits; auto; try lia; try reflexivity; exists junk; auto.
  - destruct HJ as (Hp & Hi & Hcur & junk & Htot & Hjunk).
    unfold Server.Close. rewrite Hp.
    do 2 eexists. split; [reflexivity|].
    unfold Replay_Inv; simpl; splits; auto; try lia; exists junk; auto.
Qed.

Lemma Server_run_Replay_Inv (total : bytes) (ops : list Server.op) :
  Forall (fun o => o <> Server.OpPipe) ops ->
  forall (c : Server.t) (cur : bytes),
    Replay_Inv total c cur ->
    exists xs c', Server.run c ops = Ret (xs, c') /\
                  Forall (fun seg => is_prefix seg total) (segments ops xs cur).
Proof.
  induction 1 as [|o ops Ho Hops IH]; intros c cur HJ; simpl.
  - do 2 eexists. split; [reflexivity|]. simpl. constructor; [|constructor].
    eapply Replay_Inv_prefix; eauto.
  - destruct (Server_step_Replay_Inv Ho HJ) as (x & c1 & -> & Hx). simpl.
    destruct o as [k|b| | |]; try congruence.
    + destruct x as [d e|n e|e]; try contradiction.
      destruct (IH c1 (cur ++ d) Hx) as (xs & c2 & -> & HF). simpl. eauto.
    + destruct (IH c1 cur Hx) as (xs & c2 & -> & HF). simpl.
      do 2 eexists. split; [reflexivity|]. destruct x; exact HF.
    + destruct (IH c1 [] Hx) as (xs & c2 & -> & HF). simpl.
      do 2 eexists. split; [reflexivity|]. constructor; [|exact HF].
      eapply Replay_Inv_prefix; eauto.
    + destruct (IH c1 cur Hx) as (xs & c2 & -> & HF). simpl.
      do 2 eexists. split; [reflexivity|]. destruct x; exact HF.
Qed.

Lemma is_prefix_common (a b total : bytes) :
  is_prefix a total -> is_prefix b total -> (length a <= length b)%nat ->
  is_prefix a b.
Proof.
  unfold is_prefix. intros Ha Hb Hl.
  rewrite Hb, firstn_firstn, Nat.min_l by lia. exact Ha.
Qed.

(** Closes the parts of the contract of a detecting [Read]. *)
Ltac rd_done :=
  splits; auto;
  try (unfold len in *; simpl; lia);
  try (intros; splits; auto; congruence).

(** One buffered read of a detecting server, for use below. *)
Lemma Server_Read_law (c : Server.t) (k : nat) :
  Server.isPiped c = false ->
  0 <= Server.inputCnt c <= len (Server.rawInput c) ->
  exists d e c' taken,
    Server.Read c k = Ret (d, e, c') /\
    Server.rawInput c' = Server.rawInput c ++ taken /\
    len taken <= Z.max 0 (Server.inputCnt c + Z.of_nat k - len (Server.rawInput c)) /\
    (e = None ->
     stream (Conn.incoming (Server.conn c))
     = taken ++ stream (Conn.incoming (Server.conn c')) /\
     d = firstn k (skipn (Z.to_nat (Server.inputCnt c)) (Server.rawInput c')) /\
     Server.inputCnt c' = Server.inputCnt c + len d) /\
    (e <> None ->
     d = [] /\ taken = [] /\ Server.inputCnt c' = Server.inputCnt c).
Proof.
  intros Hp Hi. unfold Server.Read, Server.read. rewrite Hp. simpl.
  destruct (len (Server.rawOutput c) >? 0) eqn:E0.
  { exists [], (Some errHasWriten), (Server.set_err c (Some errHasWriten)), [].
    simpl. rewrite app_nil_r. rd_done. }
  destruct (Server.inputCnt c + Z.of_nat k >? len (Server.rawInput c)) eqn:E1.
  - destruct (Server.inputCnt c + Z.of_nat k >? Server.MaxBuffer c) eqn:E2.
    + simpl. destruct (Conn.Close (Server.conn c)) as [e cn]. simpl.
      do 3 eexists. exists []. split; [reflexivity|]. simpl. rewrite app_nil_r.
      rd_done.
    + simpl.
      pose proof (Conn_Read_length (Server.conn c)
                    (Z.to_nat (Server.inputCnt c + Z.of_nat k
                               - len (Server.rawInput c)))) as Hlen.
      pose proof (Conn_Read_stream (Server.conn c)
                    (Z.to_nat (Server.inputCnt c + Z.of_nat k
                               - len (Server.rawInput c)))) as Hs.
      destruct (Conn.Read (Server.conn c) _) as [[buff e] cn]. simpl in Hlen.
      destruct Hs as (Hs & _).
      destruct e as [e|]; simpl.
      * do 3 eexists. exists []. split; [reflexivity|]. simpl. rewrite app_nil_r.
        rd_done.
      * rewrite slice_from_ok
          by (simpl; rewrite len_app; pose proof (len_nonneg buff); lia).
        simpl. do 3 eexists. exists buff. split; [reflexivity|]. simpl.
        rd_done.
  - simpl. rewrite slice_from_ok by lia. simpl.
    do 3 eexists. exists []. split; [reflexivity|]. simpl. rewrite app_nil_r.
    rd_done.
Qed.

(** Reads served from the buffer alone: whatever the chunking [ks], as long
    as the requests stay inside the input buffer, they return the buffered
    bytes from the cursor on, in order and without error, and leave the
    transport alone. *)
Lemma Server_reads_buffered (ks : list nat) (c : Server.t) :
  Server.isPiped c = false ->
  Server.rawOutput c = [] ->
  0 <= Server.inputCnt c ->
  Server.inputCnt c + Z.of_nat (list_sum ks) <= len (Server.rawInput c) ->
  exists xs,
    Server.run c (map Server.OpRead ks)
    = Ret (xs, Server.set_inputCnt c (Server.inputCnt c + Z.of_nat (list_sum ks))) /\
    delivered xs
    = firstn (list_sum ks) (skipn (Z.to_nat (Server.inputCnt c)) (Server.rawInput c)) /\
    Forall (fun x => exists d, x = Server.Got d None) xs.
Proof.
  revert c. induction ks as [|k ks IH]; intros c Hp Ho Hi Hl; simpl.
  - exists []. simpl. splits; auto.
    rewrite Z.add_0_r. destruct c; reflexivity.
  - simpl in Hl. rewrite Nat2Z.inj_add in Hl.
    unfold Server.Read, Server.read. rewrite Hp, Ho. simpl.
    destruct (Server.inputCnt c + Z.of_nat k >? len (Server.rawInput c)) eqn:E1; [lia|].
    simpl. rewrite slice_from_ok by lia. simpl.
    set (d := copy k (skipn (Z.to_nat (Server.inputCnt c)) (Server.rawInput c))).
    assert (Hd : len d = Z.of_nat k).
    { subst d. unfold copy, len in *. rewrite length_firstn, length_skipn. lia. }
    rewrite Hd.
    destruct (IH (Server.set_inputCnt c (Server.inputCnt c + Z.of_nat k)))
      as (xs & E & Hdel & Hall); simpl; auto; try lia.
    rewrite E. simpl. eexists. splits.
    + f_equal. f_equal. unfold Server.set_inputCnt; simpl. f_equal. lia.
    + simpl. rewrite Hdel. subst d. unfold copy. simpl.
      replace (Z.to_nat (Server.inputCnt c + Z.of_nat k))
        with (k + Z.to_nat (Server.inputCnt c))%nat by lia.
      rewrite <- skipn_skipn. rewrite firstn_add_skipn. reflexivity.
    + constructor; eauto.
Qed.

Lemma firstn_prefix_of_firstn (s n : nat) (R more : bytes) :
  (Nat.min s (length R) <= n)%nat ->
  is_prefix (firstn s R) (firstn n (R ++ more)).
Proof.
  intros H. unfold is_prefix.
  rewrite length_firstn, firstn_firstn.
  replace (Nat.min (Nat.min s (length R)) n) with (Nat.min s (length R)) by lia.
  rewrite firstn_app.
  replace (Nat.min s (length R) - length R)%nat with 0%nat by lia.
  simpl. rewrite app_nil_r.
  destruct (Nat.le_ge_cases s (length R)).
  - rewrite Nat.min_l by lia. reflexivity.
  - rewrite Nat.min_r by lia. rewrite !firstn_all2 by lia. reflexivity.
Qed.

(** Reads in any chunking that may go beyond the buffer.  As long as none of
    them fails, the buffer only grows at its end and the cursor gets at
    least as far as the buffer reached before, or as far as was asked. *)
Lemma Server_reads_reproduce (total : bytes) (ks : list nat) :
  forall (c : Server.t) (cur : bytes),
    Replay_Inv total c cur ->
    exists xs c',
      Server.run c (map Server.OpRead ks) = Ret (xs, c') /\
      Replay_Inv total c' (cur ++ delivered xs) /\
      (Forall (fun x => exists d, x = Server.Got d None) xs ->
       (exists more, Server.rawInput c' = Server.rawInput c ++ more) /\
       Z.min (Server.inputCnt c + Z.of_nat (list_sum ks)) (len (Server.rawInput c))
       <= Server.inputCnt c' <= Server.inputCnt c + Z.of_nat (list_sum ks)).
Proof.
  induction ks as [|k ks IH]; intros c cur HJ.
  - exists [], c. simpl. rewrite app_nil_r. split; [reflexivity|]. split; [exact HJ|].
    intros _. split; [exists []; rewrite app_nil_r; reflexivity|].
    destruct HJ as (_ & Hi & _). lia.
  - pose proof HJ as (Hp & Hi & _).
    destruct (@Server_Read_law c k Hp Hi)
      as (d & e & c1 & taken & E & Hr & Hl & Hok & Herr).
    destruct (Server_Read_Replay_Inv k HJ) as (d' & e' & c1' & E' & HJ1).
    rewrite E in E'. injection E' as <- <- <-.
    destruct (IH c1 (cur ++ d) HJ1) as (xs & c2 & E2 & HJ2 & Hrest).
    exists (Server.Got d e :: xs), c2.
    split; [simpl; rewrite E; simpl; rewrite E2; reflexivity|].
    simpl. rewrite app_assoc. split; [exact HJ2|].
    intros HF. inversion HF as [|x l Hx HF']; subst.
    destruct Hx as (d0 & Hd0). injection Hd0 as <- ->.
    destruct (Hrest HF') as ((more & Hm) & Hb).
    destruct (Hok eq_refl) as (Hs & Hd & Hc).
    split.
    + exists (taken ++ more). rewrite Hm, Hr, app_assoc. reflexivity.
    + assert (Hlen : len d = Z.min (Z.of_nat k)
                                   (len (Server.rawInput c1) - Server.inputCnt c)).
      { rewrite Hd. unfold len in *. rewrite length_firstn, length_skipn.
        rewrite Hr, length_app in *. lia. }
      assert (Hgrow : len (Server.rawInput c) <= len (Server.rawInput c1)).
      { rewrite Hr, len_app. pose proof (len_nonneg taken). lia. }
      rewrite Nat2Z.inj_add. lia.
Qed.

(** C4 as stated fails once the transport has ended.  Over a transport that
    carries [ab] and then ends, a read of four bytes returns [ab]; after
    [Replay] a read of four bytes returns the end of data and no byte,
    although [ab] is buffered, while two reads of two bytes return [ab]
    first.  Whether the bytes read before the [Replay] come again depends on
    how the reads are cut. *)
Lemma replay_past_the_end_returns_nothing :
  (exists c',
      Server.run (Server.NewServer (Conn.fresh (bytesReader (B "ab"))))
                 [Server.OpRead 4; Server.OpReplay; Server.OpRead 4]
      = Ret ([Server.Got (B "ab") None; Server.Done None; Server.Got [] (Some EOF)], c')) /\
  (exists c',
      Server.run (Server.NewServer (Conn.fresh (bytesReader (B "ab"))))
                 [Server.OpRead 4; Server.OpReplay; Server.OpRead 2; Server.OpRead 2]
      = Ret ([Server.Got (B "ab") None; Server.Done None;
              Server.Got (B "ab") None; Server.Got [] (Some EOF)], c')).
Proof. split; eexists; vm_compute; reflexivity. Qed.

(** C4, amended: (1) on a new server over any transport, with any capacity,
    run any sequence of calls without [Pipe]: the bytes the [Read]s return
    between two [Replay]s (and before the first, and after the last) are
    always a prefix of the byte sequence the transport carries, so any two
    such runs of reads agree byte for byte as far as the shorter goes,
    however the reads are cut.  (2) After [Replay] on a detecting server,
    reads in any chunking never panic and return a prefix of the buffered
    bytes followed by those of the transport; as long as none of them
    fails, they reproduce the buffered bytes from the start, up to the
    total length asked for, before any new byte; and reads that stay within
    what is buffered never fail, return exactly the buffered bytes and do
    not touch the transport. *)
Theorem Server_replay_reproduces_prefix :
  (forall (cn : Conn.t) (m : Z) (ops : list Server.op),
      Forall (fun o => o <> Server.OpPipe) ops ->
      exists xs c',
        Server.run (Server.set_MaxBuffer (Server.NewServer cn) m) ops = Ret (xs, c') /\
        Forall (fun seg => is_prefix seg (stream (Conn.incoming cn))) (segments ops xs []) /\
        (forall s1 s2, In s1 (segments ops xs []) -> In s2 (segments ops xs []) ->
                       (length s1 <= length s2)%nat -> is_prefix s1 s2)) /\
  (forall (c : Server.t) (ks : list nat),
      Server.isPiped c = false ->
      exists xs c',
        Server.run c (Server.OpReplay :: map Server.OpRead ks)
        = Ret (Server.Done None :: xs, c') /\
        is_prefix (delivered xs)
                  (Server.rawInput c ++ stream (Conn.incoming (Server.conn c))) /\
        (Forall (fun x => exists d, x = Server.Got d None) xs ->
         is_prefix (firstn (list_sum ks) (Server.rawInput c)) (delivered xs) /\
         (length (delivered xs) <= list_sum ks)%nat) /\
        (Z.of_nat (list_sum ks) <= len (Server.rawInput c) ->
         delivered xs = firstn (list_sum ks) (Server.rawInput c) /\
         Forall (fun x => exists d, x = Server.Got d None) xs /\
         Server.conn c' = Server.conn c)).
Proof.
  split.
  - intros cn m ops Hops.
    destruct (@Server_run_Replay_Inv (stream (Conn.incoming cn)) ops Hops
                (Server.set_MaxBuffer (Server.NewServer cn) m) [])
      as (xs & c' & E & HF).
    { unfold Replay_Inv; simpl. splits; auto; try reflexivity.
      exists []. split; [reflexivity | congruence]. }
    exists xs, c'. splits; auto.
    intros s1 s2 H1 H2 Hl. rewrite Forall_forall in HF.
    eapply is_prefix_common; eauto.
  - intros c ks Hp. simpl. unfold Server.Replay. rewrite Hp. simpl.
    set (c0 := if err_is (Server.err c) errClosed then _ else _).
    assert (H0 : Server.isPiped c0 = false /\ Server.rawOutput c0 = [] /\
                 Server.inputCnt c0 = 0 /\ Server.rawInput c0 = Server.rawInput c /\
                 Server.conn c0 = Server.conn c).
    { subst c0. destruct (err_is (Server.err c) errClosed); simpl; splits; auto. }
    destruct H0 as (Hp0 & Ho0 & Hi0 & Hr0 & Hc0).
    assert (HJ : Replay_Inv (Server.rawInput c ++ stream (Conn.incoming (Server.conn c)))
                            c0 []).
    { unfold Replay_Inv. rewrite Hi0, Hr0, Hc0. pose proof (len_nonneg (Server.rawInput c)).
      splits; auto; try lia.
      exists []. split; [reflexivity | congruence]. }
    destruct (Server_reads_reproduce ks HJ) as (xs & c' & E & HJ' & Hrest).
    rewrite E. simpl. exists xs, c'. split; [reflexivity|]. simpl in HJ'.
    split; [eapply Replay_Inv_prefix; exact HJ'|]. split.
    + intros HF. destruct (Hrest HF) as ((more & Hm) & Hb).
      destruct HJ' as (_ & Hi' & Hcur & _).
      rewrite Hi0, Hr0 in Hb. rewrite Hr0 in Hm.
      rewrite Hcur, Hm. split.
      * apply firstn_prefix_of_firstn. unfold len in Hb. lia.
      * rewrite length_firstn. lia.
    + intros Hl.
      destruct (@Server_reads_buffered ks c0) as (xs' & E' & Hdel & Hall); auto; try lia.
      { rewrite Hi0, Hr0. lia. }
      rewrite E in E'. injection E' as -> ->.
      rewrite Hdel, Hi0, Hr0. simpl. splits; auto.
Qed.

Lemma Server_replay_reproduces_prefix_witness :
  (exists xs c',
      Server.run (Server.set_MaxBuffer
                    (Server.NewServer (Conn.fresh (mkSource [B "ab"; B "cde"] false EOF))) 8)
                 [Server.OpRead 1; Server.OpRead 3; Server.OpReplay;
                  Server.OpRead 2; Server.OpRead 2; Server.OpReplay; Server.OpRead 4]
      = Ret (xs, c') /\
      segments [Server.OpRead 1; Server.OpRead 3; Server.OpReplay;
                Server.OpRead 2; Server.OpRead 2; Server.OpReplay; Server.OpRead 4] xs []
      = [B "ab"; B "abcd"; B "abcd"]) /\
  (exists xs c',
      Server.run sniffed_server (Server.OpReplay :: map Server.OpRead [1; 2]%nat)
      = Ret (Server.Done None :: xs, c') /\
      delivered xs = B "abc") /\
  (exists xs c',
      Server.run sniffed_server (Server.OpReplay :: map Server.OpRead [2; 2]%nat)
      = Ret (Server.Done None :: xs, c') /\
      is_prefix (B "abc") (delivered xs)).
Proof.
  destruct Server_replay_reproduces_prefix as [H1 H2]. split; [|split].
  - destruct (H1 (Conn.fresh (mkSource [B "ab"; B "cde"] false EOF)) 8
                [Server.OpRead 1; Server.OpRead 3; Server.OpReplay;
                 Server.OpRead 2; Server.OpRead 2; Server.OpReplay; Server.OpRead 4])
      as (xs & c' & E & _).
    { repeat constructor; discriminate. }
    exists xs, c'. split; [exact E|].
    vm_compute in E. injection E as <- _. reflexivity.
  - destruct (H2 sniffed_server [1; 2]%nat) as (xs & c' & E & _ & _ & Hd).
    + reflexivity.
    + exists xs, c'. split; [exact E|].
      destruct Hd as (Hd & _); [vm_compute; discriminate | exact Hd].
  - destruct (H2 sniffed_server [2; 2]%nat) as (xs & c' & E & _ & Hre & _).
    + reflexivity.
    + exists xs, c'. split; [exact E|].
      destruct Hre as (Hre & _); [|exact Hre].
      vm_compute in E. injection E as <- _.
      repeat constructor; eexists; reflexivity.
Defined.

(** ** The forward multi reader *)

Lemma reader_size_pos (r0 : reader) : (1 <= reader_size r0)%nat.
Proof. destruct r0; simpl; lia. Qed.

(** The fuel [Read] starts with is enough: the loop never runs dry. *)
Lemma Read_loop_fuel (fuel : nat) :
  forall (rs : list reader) (p : Z) (k : nat),
    (readers_size rs < fuel)%nat -> Multi.Read_loop fuel rs p k <> None.
Proof.
  induction fuel as [|fuel IH]; intros rs p k Hf; [lia|].
  destruct rs as [|r0 rest]; [simpl; discriminate|].
  unfold readers_size in Hf. simpl in Hf. fold (readers_size rest) in Hf.
  pose proof (reader_size_pos r0) as Hr0.
  assert (Hgen :
    match Multi.reader_Read_with (Multi.Read_loop fuel) r0 k with
    | None => None
    | Some (d, e, r0') =>
        let pos := p + len d in
        let rs := if err_is e EOF then rest else r0' :: rest in
        if (len d >? 0) || negb (err_is e EOF) then
          let e := if err_is e EOF && (len rs >? 0) then None else e in
          Some (d, e, rs, pos)
        else Multi.Read_loop fuel rs pos k
    end <> None).
  { destruct (Multi.reader_Read_with (Multi.Read_loop fuel) r0 k)
      as [[[d e] r0']|] eqn:E.
    - simpl. destruct ((len d >? 0) || negb (err_is e EOF)) eqn:E1; [discriminate|].
      apply orb_false_elim in E1. destruct E1 as [_ E1].
      apply negb_false_iff in E1. rewrite E1. apply IH. lia.
    - destruct r0 as [s|b|rs' p'|]; simpl in E.
      + destruct (source_Read s k) as [[? ?] ?]. discriminate.
      + destruct (buffer_Read b k) as [[? ?] ?]. discriminate.
      + destruct (Multi.Read_loop fuel rs' p' k) as [[[[? ?] ?] ?]|] eqn:E'; [discriminate|].
        exfalso. apply (IH rs' p' k); [|exact E'].
        simpl in Hf. fold (readers_size rs') in Hf. lia.
      + discriminate. }
  destruct r0 as [s|b|rs' p'|]; try exact Hgen.
  destruct rest as [|r1 rest]; [|exact Hgen].
  simpl. apply IH. simpl in Hf. fold (readers_size rs') in Hf. lia.
Qed.

Lemma Read_loop_EOF (fuel : nat) :
  forall (rs : list reader) (p : Z) (k : nat) d e rs' p',
    Multi.Read_loop fuel rs p k = Some (d, e, rs', p') ->
    e = Some EOF -> rs' = [].
Proof.
  induction fuel as [|fuel IH]; intros rs p k d e rs' p' H He; [discriminate|].
  destruct rs as [|r0 rest]; [simpl in H; congruence|].
  assert (Hgen :
    match Multi.reader_Read_with (Multi.Read_loop fuel) r0 k with
    | None => None
    | Some (d, e, r0') =>
        let pos := p + len d in
        let rs := if err_is e EOF then rest else r0' :: rest in
        if (len d >? 0) || negb (err_is e EOF) then
          let e := if err_is e EOF && (len rs >? 0) then None else e in
          Some (d, e, rs, pos)
        else Multi.Read_loop fuel rs pos k
    end = Some (d, e, rs', p') -> rs' = []).
  { clear H. intros H.
    destruct (Multi.reader_Read_with (Multi.Read_loop fuel) r0 k)
      as [[[d0 e0] r0']|]; [|discriminate].
    simpl in H.
    destruct ((len d0 >? 0) || negb (err_is e0 EOF)) eqn:E1.
    - destruct (err_is e0 EOF) eqn:E2; simpl in H.
      + destruct (len rest >? 0) eqn:E3.
        * injection H as _ He' _ _. congruence.
        * injection H as _ _ <- _. destruct rest; [reflexivity | discriminate].
      + injection H as _ He' _ _. subst e0. subst e. discriminate.
    - eapply IH; eauto. }
  destruct r0 as [s|b|rs0 p0|]; try (apply Hgen; exact H).
  destruct rest as [|r1 rest]; [|apply Hgen; exact H].
  simpl in H. eapply IH; eauto.
Qed.

(** End of data is reported only when no reader remains. *)
Lemma Multi_Read_EOF (mr : Multi.forwardMultiReadSeeker) (k : nat) d mr' :
  Multi.Read mr k = (d, Some EOF, mr') -> Multi.readers mr' = [].
Proof.
  unfold Multi.Read.
  destruct (Multi.Read_loop (S (readers_size (Multi.readers mr)))
                            (Multi.readers mr) (Multi.pos mr) k)
    as [[[[d0 e0] rs0] p0]|] eqn:E.
  - intros H. injection H as <- -> <-. simpl.
    eapply Read_loop_EOF; eauto.
  - exfalso. eapply Read_loop_fuel; [|exact E]. lia.
Qed.

(** C8 as stated fails for the seek: a fresh instance asked to move forward
    by 4 stops at position 3, and the next byte read is [d], not [e]. *)
Lemma seek_by_4_stops_at_3 :
  Multi.pos abc_def = 0 /\
  exists mr',
    Multi.Seek abc_def 4 SeekCurrent = (3, None, mr') /\
    Multi.pos mr' = 3 /\
    fst (fst (Multi.Read mr' 1)) = B "d".
Proof.
  split; [reflexivity|]. eexists. splits; reflexivity.
Qed.

(** C8, amended: read through a 2-byte buffer, the multi reader over [abc],
    the empty source and [def] yields [ab], [c], [de], [f] and then end of
    data; whatever the readers, [Read] reports end of data only when no
    reader remains; and on a fresh such instance a seek forward by 4 stops
    at the first short read, the end of the first source: it returns
    position 3 without error, and the next byte read is [d]. *)
Theorem multi_reader_abc_def :
  fst (Multi.Reads abc_def 5 2)
  = [(B "ab", None); (B "c", None); (B "de", None); (B "f", None); ([], Some EOF)] /\
  (forall (mr : Multi.forwardMultiReadSeeker) (k : nat) d mr',
      Multi.Read mr k = (d, Some EOF, mr') -> Multi.readers mr' = []) /\
  (exists mr',
      Multi.Seek abc_def 4 SeekStart = (3, None, mr') /\
      fst (fst (Multi.Read mr' 1)) = B "d").
Proof.
  split; [reflexivity|]. split.
  - intros mr k d mr' H. eapply Multi_Read_EOF; eauto.
  - eexists. split; reflexivity.
Qed.

Lemma multi_reader_abc_def_witness :
  Multi.readers (snd (Multi.Reads abc_def 5 2)) = [].
Proof.
  destruct multi_reader_abc_def as (_ & H & _).
  apply (H (snd (Multi.Reads abc_def 4 2)) 2%nat []).
  reflexivity.
Defined.

(** ** The tee reader and the replay reader *)

Lemma Tee_Read_spec (t : Tee.teeReadSeeker) (k : nat) :
  Tee.Read t k
  = let '(d, e, s) := source_Read (Tee.r t) k in
    (d, e, Tee.mk s (Tee.w t ++ d) (Tee.pos t)).
Proof.
  unfold Tee.Read. destruct (source_Read (Tee.r t) k) as [[d e] s].
  destruct d; simpl; [rewrite app_nil_r|]; reflexivity.
Qed.

Lemma skipn_nil_length {A : Type} (k : nat) (l : list A) :
  skipn k l = [] -> (length l <= k)%nat.
Proof.
  intros H. apply (f_equal (@length A)) in H. rewrite length_skipn in H.
  simpl in H. lia.
Qed.

Lemma firstn_through (k m : nat) (c rest : bytes) :
  (k <= length c)%nat ->
  firstn k c ++ firstn m (skipn k c ++ rest) = firstn (k + m) (c ++ rest).
Proof.
  intros H. rewrite <- firstn_add_skipn. f_equal.
  - rewrite firstn_app. replace (k - length c)%nat with 0%nat by lia.
    simpl. rewrite app_nil_r. reflexivity.
  - rewrite skipn_app. replace (k - length c)%nat with 0%nat by lia.
    reflexivity.
Qed.

Lemma skipn_through (k m : nat) (c rest : bytes) :
  (k <= length c)%nat ->
  skipn m (skipn k c ++ rest) = skipn (m + k) (c ++ rest).
Proof.
  intros H. rewrite <- skipn_skipn. f_equal. rewrite skipn_app.
  replace (k - length c)%nat with 0%nat by lia. reflexivity.
Qed.

(** A slice that ends where the first [n] bytes of [s] end does not see the
    rest of [s]. *)
Lemma slice_of_filled (b s : bytes) (p k n : nat) :
  (p <= length b)%nat -> (p + k = length b + n)%nat -> (n <= length s)%nat ->
  firstn k (skipn p (b ++ firstn n s)) = firstn k (skipn p (b ++ s)).
Proof.
  intros Hp Hk Hn.
  assert (Hlen : length (b ++ firstn n s) = (length b + n)%nat)
    by (rewrite length_app, length_firstn; lia).
  rewrite <- (firstn_skipn n s) at 2.
  rewrite app_assoc.
  rewrite (skipn_app p (b ++ firstn n s) (skipn n s)).
  rewrite (firstn_app k (skipn p (b ++ firstn n s))).
  replace (k - length (skipn p (b ++ firstn n s)))%nat with 0%nat
    by (rewrite length_skipn; lia).
  simpl. rewrite app_nil_r. reflexivity.
Qed.

(** With [left] bytes still to come from the source, the copy loop reads
    exactly [left] bytes into the buffer, whatever the chunking. *)
Lemma Discard_ReadFrom_enough (fuel : nat) :
  forall (t : Tee.teeReadSeeker) (left done : Z),
    0 <= left <= len (stream (Tee.r t)) ->
    (Z.to_nat left + length (pending (Tee.r t)) < fuel)%nat ->
    exists e t',
      Tee.Discard_ReadFrom fuel t left done = (done + left, e, t') /\
      Tee.w t' = Tee.w t ++ firstn (Z.to_nat left) (stream (Tee.r t)) /\
      stream (Tee.r t') = skipn (Z.to_nat left) (stream (Tee.r t)) /\
      Tee.pos t' = Tee.pos t.
Proof.
  induction fuel as [|fuel IH]; intros t left done Hl Hf; [lia|].
  simpl. destruct (left <=? 0) eqn:E0.
  - assert (left = 0) by lia. subst left. simpl.
    exists None, t. rewrite Z.add_0_r, app_nil_r. splits; reflexivity.
  - rewrite Tee_Read_spec.
    set (k := Z.to_nat (Z.min 8192 left)).
    assert (Hk : (1 <= k)%nat /\ Z.of_nat k <= left) by (subst k; lia).
    destruct t as [[p eg f] w0 p0]. unfold source_Read, stream in *. simpl in *.
    destruct p as [|c rest]; [simpl in Hl; unfold len in Hl; simpl in Hl; lia|].
    simpl in Hl, Hf. rewrite len_app in Hl.
    destruct (skipn k c) as [|x c'] eqn:Es.
    + (* the chunk is used up *)
      pose proof (skipn_nil_length _ _ Es) as Hc.
      assert (Hd : firstn k c = c) by (apply firstn_all2; exact Hc).
      rewrite Hd.
      destruct (eg && is_nil rest) eqn:Ee.
      * apply andb_true_iff in Ee. destruct Ee as [_ Hn].
        destruct rest; [|discriminate]. simpl in *.
        unfold len in Hl. simpl in Hl.
        assert (Hlc : left = len c) by (unfold len; lia).
        subst left. do 2 eexists. split; [reflexivity|]. simpl.
        rewrite app_nil_r. unfold len. rewrite Nat2Z.id, firstn_all, skipn_all.
        splits; reflexivity.
      * destruct (IH (Tee.mk (mkSource rest eg f) (w0 ++ c) p0)
                     (left - len c) (done + len c))
          as (e & t' & E & Hw & Hs & Hp); simpl.
        -- unfold len in *. lia.
        -- unfold len. lia.
        -- rewrite E. exists e, t'. simpl in *. splits; auto.
           ++ f_equal. f_equal. lia.
           ++ rewrite Hw, <- app_assoc. f_equal.
              replace (Z.to_nat left)
                with (length c + Z.to_nat (left - len c))%nat by (unfold len in *; lia).
              rewrite firstn_app_2. reflexivity.
           ++ rewrite Hs.
              replace (Z.to_nat left)
                with (Z.to_nat (left - len c) + length c)%nat by (unfold len in *; lia).
              rewrite <- skipn_skipn.
              rewrite skipn_app, skipn_all, Nat.sub_diag. reflexivity.
    + (* the chunk is cut: a full read of [k] bytes *)
      assert (Hkc : (k < length c)%nat).
      { apply (f_equal (@length byte)) in Es. rewrite length_skipn in Es.
        simpl in Es. lia. }
      assert (Hdk : length (firstn k c) = k) by (rewrite length_firstn; lia).
      destruct (IH (Tee.mk (mkSource ((x :: c') :: rest) eg f) (w0 ++ firstn k c) p0)
                   (left - len (firstn k c)) (done + len (firstn k c)))
        as (e & t' & E & Hw & Hs & Hp); simpl.
      * change (x :: c' ++ concat rest) with ((x :: c') ++ concat rest).
        rewrite <- Es. unfold len in *. rewrite length_app, length_skipn. lia.
      * unfold len. rewrite Hdk. lia.
      * rewrite E. exists e, t'. simpl in *. splits; auto.
        -- f_equal. f_equal. lia.
        -- rewrite Hw, <- app_assoc. f_equal.
           change (x :: c' ++ concat rest) with ((x :: c') ++ concat rest). rewrite <- Es.
           replace (Z.to_nat left)
             with (k + Z.to_nat (left - len (firstn k c)))%nat
             by (unfold len; rewrite Hdk; lia).
           apply firstn_through. lia.
        -- rewrite Hs. change (x :: c' ++ concat rest) with ((x :: c') ++ concat rest).
           rewrite <- Es.
           replace (Z.to_nat left)
             with (Z.to_nat (left - len (firstn k c)) + k)%nat
             by (unfold len; rewrite Hdk; lia).
           apply skipn_through. lia.
Qed.

Lemma CopyN_Discard_enough (t : Tee.teeReadSeeker) (n : Z) :
  0 <= n <= len (stream (Tee.r t)) ->
  exists t',
    Tee.CopyN_Discard t n = (n, None, t') /\
    Tee.w t' = Tee.w t ++ firstn (Z.to_nat n) (stream (Tee.r t)) /\
    stream (Tee.r t') = skipn (Z.to_nat n) (stream (Tee.r t)) /\
    Tee.pos t' = Tee.pos t.
Proof.
  intros Hn. unfold Tee.CopyN_Discard.
  destruct (@Discard_ReadFrom_enough
              (Z.to_nat n + length (pending (Tee.r t)) + 1) t n 0 Hn)
    as (e & t' & E & Hw & Hs & Hp); [lia|].
  rewrite E. simpl. rewrite Z.eqb_refl. exists t'. splits; auto.
Qed.

Lemma Tee_Seek_forward (t : Tee.teeReadSeeker) (abs : Z) :
  0 <= Tee.pos t <= abs ->
  abs - Tee.pos t <= len (stream (Tee.r t)) ->
  exists t',
    Tee.Seek t abs SeekStart = (abs, None, t') /\
    Tee.w t' = Tee.w t ++ firstn (Z.to_nat (abs - Tee.pos t)) (stream (Tee.r t)) /\
    stream (Tee.r t') = skipn (Z.to_nat (abs - Tee.pos t)) (stream (Tee.r t)) /\
    Tee.pos t' = abs.
Proof.
  intros Hp Hl. unfold Tee.Seek. simpl.
  destruct (abs <? 0) eqn:E1; [lia|].
  destruct (abs <? Tee.pos t) eqn:E2; [lia|].
  destruct (@CopyN_Discard_enough t (abs - Tee.pos t)) as (t' & E & Hw & Hs & Hp');
    [lia|].
  rewrite E. simpl. eexists. split; [f_equal; f_equal; lia|].
  simpl. splits; auto. lia.
Qed.

(** A [Read] of [k] bytes while buffering, with [k] bytes still to be had
    from the buffer and the source together: it returns those [k] bytes and
    moves the cursor by [k]; what was pulled from the source is now in the
    buffer. *)
Lemma Reader_Read_Buffering (c : Reader.t) (k : nat) :
  Reader.Buffering c ->
  Reader.pos c + Z.of_nat k <= len (Reader.buf c ++ stream (Reader.r c)) ->
  exists c',
    Reader.Read c k
    = Ret (firstn k (skipn (Z.to_nat (Reader.pos c))
                           (Reader.buf c ++ stream (Reader.r c))), None, c') /\
    Reader.Buffering c' /\
    Reader.pos c' = Reader.pos c + Z.of_nat k /\
    Reader.buf c' ++ stream (Reader.r c') = Reader.buf c ++ stream (Reader.r c).
Proof.
  intros (Hpipe & Htee & Hpos) Hl.
  unfold Reader.Read, Reader.ReadAt, Reader.seek. rewrite Hpipe. simpl.
  destruct (Reader.pos c + Z.of_nat k <? 0) eqn:E1; [lia|].
  destruct (Reader.pos c + Z.of_nat k >? len (Reader.buf c)) eqn:E2.
  - (* fill the buffer through the tee *)
    destruct (@Tee_Seek_forward (Reader.r_tee c) (Reader.pos c + Z.of_nat k))
      as (t' & E & Hw & Hs & Hp').
    { rewrite Htee. pose proof (len_nonneg (Reader.buf c)). lia. }
    { rewrite Htee. rewrite len_app in Hl. unfold Reader.r in Hl. lia. }
    rewrite E.
    destruct (Reader.pos c + Z.of_nat k <=? Reader.pos c) eqn:E3; [lia|].
    unfold Reader.buf, Reader.r in *. simpl.
    rewrite slice_from_ok by (rewrite Hw, len_app; pose proof (len_nonneg
      (firstn (Z.to_nat (Reader.pos c + Z.of_nat k - Tee.pos (Reader.r_tee c)))
              (stream (Tee.r (Reader.r_tee c))))); lia).
    simpl. eexists. split; [|splits].
    + f_equal. f_equal. f_equal. unfold copy. rewrite Hw.
      set (b := Tee.w (Reader.r_tee c)) in *.
      set (s := stream (Tee.r (Reader.r_tee c))) in *.
      set (n := Z.to_nat (Reader.pos c + Z.of_nat k - Tee.pos (Reader.r_tee c))).
      set (p := Z.to_nat (Reader.pos c)).
      apply slice_of_filled.
      * unfold len in *; lia.
      * unfold len in *; lia.
      * rewrite len_app in Hl. unfold len in *; lia.
    + assert (Hlen : len (Tee.w t') = Reader.pos c + Z.of_nat k).
      { rewrite Hw, len_app. rewrite len_app in Hl. unfold len in *.
        rewrite length_firstn. lia. }
      unfold Reader.Buffering, Reader.buf. simpl. splits; auto; lia.
    + reflexivity.
    + simpl. rewrite Hw, Hs, <- app_assoc, firstn_skipn. reflexivity.
  - (* the buffer already holds the bytes *)
    destruct (Reader.pos c + Z.of_nat k <=? Reader.pos c) eqn:E3.
    + assert (k = 0%nat) by lia. subst k. simpl.
      eexists. split; [reflexivity|]. unfold Reader.Buffering, Reader.buf, Reader.r in *.
      simpl. splits; auto; lia.
    + simpl. rewrite slice_from_ok by (unfold Reader.buf in *; simpl; lia). simpl.
      eexists. split; [|splits].
      * f_equal. f_equal. f_equal. unfold copy.
        rewrite skipn_app, firstn_app.
        replace (k - length (skipn (Z.to_nat (Reader.pos c)) (Reader.buf c)))%nat
          with 0%nat by (rewrite length_skipn; unfold len in *; lia).
        simpl. rewrite app_nil_r. reflexivity.
      * unfold Reader.Buffering, Reader.buf in *. simpl. splits; auto; lia.
      * reflexivity.
      * reflexivity.
Qed.

Lemma Reader_Seek_back (c : Reader.t) (p : Z) :
  Reader.Buffering c ->
  0 <= p <= len (Reader.buf c) ->
  exists c',
    Reader.Seek c p SeekStart = Ret (p, None, c') /\
    Reader.Buffering c' /\
    Reader.pos c' = p /\
    Reader.buf c' = Reader.buf c /\ Reader.r c' = Reader.r c.
Proof.
  intros (Hpipe & Htee & Hpos) Hp.
  unfold Reader.Seek, Reader.seek. rewrite Hpipe. simpl.
  destruct (p <? 0) eqn:E1; [lia|].
  destruct (p >? len (Reader.buf c)) eqn:E2; [lia|].
  eexists. split; [reflexivity|].
  unfold Reader.Buffering, Reader.buf, Reader.r in *. simpl. splits; auto; lia.
Qed.

(** A [Read] that the buffer at the head of the list can serve in full. *)
Lemma Multi_Read_buf (b : bytes) (rest : list reader) (p : Z) (k : nat) :
  (0 < k <= length b)%nat ->
  Multi.Read (Multi.mk (BufReader b :: rest) p) k
  = (firstn k b, None, Multi.mk (BufReader (skipn k b) :: rest) (p + Z.of_nat k)).
Proof.
  intros Hk. unfold Multi.Read. simpl.
  destruct b as [|x b]; [simpl in Hk; lia|].
  destruct k as [|k]; [lia|].
  simpl. f_equal. f_equal. unfold len. simpl length.
  rewrite length_firstn. simpl in Hk. lia.
Qed.

(** Skipping [tr] bytes that the buffer at the head of the list holds. *)
Lemma Seek_loop_buf (fuel : nat) :
  forall (b : bytes) (rest : list reader) (p tr bl : Z),
    0 <= tr <= len b -> 0 < bl -> (Z.to_nat tr <= fuel)%nat ->
    Multi.Seek_loop fuel (Multi.mk (BufReader b :: rest) p) tr bl None
    = (None, Multi.mk (BufReader (skipn (Z.to_nat tr) b) :: rest) (p + tr)).
Proof.
  induction fuel as [|fuel IH]; intros b rest p tr bl Ht Hb Hf.
  - assert (tr = 0) by lia. subst tr. simpl. rewrite Z.add_0_r. reflexivity.
  - simpl. destruct (tr >? 0) eqn:E0.
    + set (bl' := if tr <? bl then tr else bl).
      assert (Hbl : 0 < bl' <= tr) by (subst bl'; destruct (tr <? bl) eqn:E; lia).
      rewrite Multi_Read_buf by (unfold len in Ht; lia).
      simpl. unfold len at 1. rewrite length_firstn.
      replace (Z.of_nat (Nat.min (Z.to_nat bl') (length b)) =? bl') with true
        by (symmetry; apply Z.eqb_eq; unfold len in Ht; lia).
      simpl. rewrite IH.
      * rewrite skipn_skipn.
        replace (Z.to_nat (tr - bl') + Z.to_nat bl')%nat with (Z.to_nat tr) by lia.
        replace (p + Z.of_nat (Z.to_nat bl') + (tr - bl')) with (p + tr) by lia.
        reflexivity.
      * unfold len in *. rewrite length_skipn. lia.
      * lia.
      * lia.
    + assert (tr = 0) by lia. subst tr. simpl. rewrite Z.add_0_r. reflexivity.
Qed.

(** [Pipe] while buffering: the multi reader starts at the cursor. *)
Lemma Reader_Pipe_position (c : Reader.t) :
  Reader.Buffering c ->
  exists mr,
    Reader.Pipe c = Reader.mk (Reader.r_tee c) (Some mr) (Reader.pos c) true /\
    Multi.pos mr = Reader.pos c.
Proof.
  intros (Hpipe & Htee & Hpos). unfold Reader.Pipe. rewrite Hpipe.
  unfold Multi.Seek, Multi.ForwardMultiReadSeeker. simpl.
  destruct (Reader.pos c <? 0) eqn:E1; [lia|].
  rewrite Z.sub_0_r.
  rewrite Seek_loop_buf; try lia; [|unfold Multi.buf_len; lia].
  simpl. eexists. split; reflexivity.
Qed.

Lemma Reader_Reads_piped (ks : list nat) :
  forall (c : Reader.t) (mr : Multi.forwardMultiReadSeeker),
    Reader.pipe c = true -> Reader.r_mr c = Some mr ->
    exists xs c' mr',
      Reader.Reads c ks = Ret (xs, c') /\
      Reader.pipe c' = true /\ Reader.r_mr c' = Some mr' /\
      Reader.pos c' = Reader.pos c.
Proof.
  induction ks as [|k ks IH]; intros c mr Hp Hm; simpl.
  - exists [], c, mr. splits; auto.
  - unfold Reader.Read, Reader.on_mr. rewrite Hp, Hm.
    destruct (Multi.Read mr k) as [[d e] mr1]. simpl.
    destruct (IH (Reader.mk (Reader.r_tee c) (Some mr1) (Reader.pos c) true) mr1)
      as (xs & c' & mr' & E & Hp' & Hm' & Hpos); auto.
    rewrite E. simpl.
    exists ((d, e) :: xs), c', mr'. splits; auto.
Qed.

(** Once piped, no way back: a target below the position of the multi reader
    is refused by [Seek], from the start or relative to the position, and by
    [ReadAt]. *)
Lemma Reader_piped_backward (c : Reader.t) (mr : Multi.forwardMultiReadSeeker) (off : Z) :
  Reader.pipe c = true -> Reader.r_mr c = Some mr ->
  0 <= Reader.pos c ->
  off < Multi.pos mr ->
  (0 <= off ->
   (exists c', Reader.Seek c off SeekStart = Ret (0, Some errMultiBackwards, c')) /\
   (exists c', Reader.Seek c (off - Multi.pos mr) SeekCurrent
               = Ret (0, Some errMultiBackwards, c'))) /\
  (forall k, exists e c', Reader.ReadAt c k off = Ret ([], e, c') /\
                          Reader.is_backward_error e).
Proof.
  intros Hp Hm Hc Ho. split.
  - intros H0. split.
    + unfold Reader.Seek, Reader.on_mr, Multi.Seek. rewrite Hp, Hm. simpl.
      destruct (off <? 0) eqn:E1; [lia|].
      destruct (off <? Multi.pos mr) eqn:E2; [|lia].
      eexists. reflexivity.
    + unfold Reader.Seek, Reader.on_mr, Multi.Seek. rewrite Hp, Hm. simpl.
      rewrite add64_back by lia.
      replace (Multi.pos mr + (off - Multi.pos mr)) with off by lia.
      destruct (off <? 0) eqn:E1; [lia|].
      destruct (off <? Multi.pos mr) eqn:E2; [|lia].
      eexists. reflexivity.
  - intros k. unfold Reader.ReadAt. rewrite Hp.
    destruct (off <? Reader.pos c) eqn:E0.
    + do 2 eexists. split; [reflexivity|]. left. reflexivity.
    + unfold Reader.on_mr, Multi.Seek. rewrite Hm. simpl.
      destruct (off <? 0) eqn:E1; [lia|].
      destruct (off <? Multi.pos mr) eqn:E2; [|lia].
      simpl. rewrite orb_true_r.
      do 2 eexists. split; [reflexivity|]. right. reflexivity.
Qed.

(** A negative target is refused as such. *)
Lemma Reader_piped_negative (c : Reader.t) (mr : Multi.forwardMultiReadSeeker) (off : Z) :
  Reader.pipe c = true -> Reader.r_mr c = Some mr -> off < 0 ->
  exists c', Reader.Seek c off SeekStart = Ret (0, Some errMultiNegative, c').
Proof.
  intros Hp Hm Ho.
  unfold Reader.Seek, Reader.on_mr, Multi.Seek. rewrite Hp, Hm. simpl.
  destruct (off <? 0) eqn:E1; [|lia]. eexists. reflexivity.
Qed.

(** C7: (1) a replay reader that is buffering, with [k] more bytes to be had
    at its cursor [p] from the buffer and the source together (the claim is
    [k = 3] at [p = 0]): a [Read] of [k] bytes returns [k] bytes, a [Seek]
    back to [p] succeeds, and a second [Read] of [k] bytes returns the same
    bytes.  (2) After [Pipe] the reader stands at the cursor; and after
    [Pipe] and any further [Read]s, every [ReadAt] at an offset below the
    current position, and every [Seek] to such an offset (counted from the
    start, or relative to the current position), fails with a
    cannot-go-backwards error. *)
Theorem replay_reader_rereads_then_commits :
  (forall (c : Reader.t) (k : nat),
      Reader.Buffering c ->
      Reader.pos c + Z.of_nat k <= len (Reader.buf c ++ stream (Reader.r c)) ->
      exists d c1 c2 c3,
        Reader.Read c k = Ret (d, None, c1) /\
        length d = k /\
        d = firstn k (skipn (Z.to_nat (Reader.pos c))
                            (Reader.buf c ++ stream (Reader.r c))) /\
        Reader.Seek c1 (Reader.pos c) SeekStart = Ret (Reader.pos c, None, c2) /\
        Reader.Read c2 k = Ret (d, None, c3)) /\
  (forall (c : Reader.t) (ks : list nat),
      Reader.Buffering c ->
      Reader.position (Reader.Pipe c) = Reader.pos c /\
      exists xs c1,
        Reader.Reads (Reader.Pipe c) ks = Ret (xs, c1) /\
        forall off, off < Reader.position c1 ->
          (0 <= off ->
           (exists c2, Reader.Seek c1 off SeekStart
                       = Ret (0, Some errMultiBackwards, c2)) /\
           (exists c2, Reader.Seek c1 (off - Reader.position c1) SeekCurrent
                       = Ret (0, Some errMultiBackwards, c2))) /\
          (forall k, exists e c2, Reader.ReadAt c1 k off = Ret ([], e, c2) /\
                                  Reader.is_backward_error e)).
Proof.
  split.
  - intros c k HB Hl.
    destruct (Reader_Read_Buffering k HB Hl) as (c1 & E1 & HB1 & Hp1 & Hall1).
    assert (Hb1 : 0 <= Reader.pos c <= len (Reader.buf c1)).
    { destruct HB as (_ & _ & Hpos), HB1 as (_ & _ & Hpos1). lia. }
    destruct (Reader_Seek_back HB1 Hb1) as (c2 & E2 & HB2 & Hp2 & Hbuf2 & Hr2).
    destruct (@Reader_Read_Buffering c2 k HB2) as (c3 & E3 & _).
    { rewrite Hp2, Hbuf2, Hr2, Hall1. exact Hl. }
    rewrite Hp2, Hbuf2, Hr2, Hall1 in E3.
    do 4 eexists. splits; eauto.
    rewrite length_firstn, length_skipn. destruct HB as (_ & _ & Hpos).
    unfold len in *. lia.
  - intros c ks HB.
    destruct (Reader_Pipe_position HB) as (mr & EP & Hmr).
    split.
    + rewrite EP. unfold Reader.position. simpl. exact Hmr.
    + destruct (@Reader_Reads_piped ks (Reader.Pipe c) mr)
        as (xs & c1 & mr1 & E & Hp1 & Hm1 & Hpos1); [rewrite EP; reflexivity ..|].
      exists xs, c1. split; [exact E|].
      intros off Hoff. unfold Reader.position in *. rewrite Hp1, Hm1 in *.
      apply Reader_piped_backward; auto.
      rewrite Hpos1, EP. simpl. destruct HB as (_ & _ & Hpos). lia.
Qed.

Lemma replay_reader_rereads_then_commits_witness :
  (exists c1 c2 c3,
      Reader.Read abcde_reader 3 = Ret (B "abc", None, c1) /\
      Reader.Seek c1 0 SeekStart = Ret (0, None, c2) /\
      Reader.Read c2 3 = Ret (B "abc", None, c3)) /\
  (exists xs c1,
      Reader.Reads (Reader.Pipe abcde_reader) [2%nat] = Ret (xs, c1) /\
      exists c2, Reader.Seek c1 0 SeekStart = Ret (0, Some errMultiBackwards, c2)).
Proof.
  destruct replay_reader_rereads_then_commits as [H1 H2]. split.
  - destruct (H1 abcde_reader 3%nat) as (d & c1 & c2 & c3 & E1 & _ & Hd & E2 & E3).
    + vm_compute. splits; try reflexivity; discriminate.
    + vm_compute. discriminate.
    + vm_compute in Hd. subst d. exists c1, c2, c3. splits; assumption.
  - destruct (H2 abcde_reader [2%nat]) as (_ & xs & c1 & E & Hback).
    + vm_compute. splits; try reflexivity; discriminate.
    + exists xs, c1. split; [exact E|].
      destruct (Hback 0) as (Hs & _).
      * vm_compute in E. injection E as _ <-. vm_compute. reflexivity.
      * destruct Hs as (Hs & _); [lia | exact Hs].
Defined.

(** ** The fuel of the loops is enough *)

Lemma source_Read_progress (s : source) (k : nat) d s' :
  source_Read s k = (d, None, s') -> (1 <= k)%nat ->
  (length (pending s') < length (pending s))%nat \/
  (length (pending s') = length (pending s) /\ (1 <= length d)%nat).
Proof.
  unfold source_Read. destruct (pending s) as [|c rest] eqn:Ep; [discriminate|].
  destruct (skipn k c) as [|x c'] eqn:Es; intros H Hk.
  - injection H as _ _ <-. simpl. left. lia.
  - injection H as <- <-. simpl. right. split; [reflexivity|].
    apply (f_equal (@length byte)) in Es. rewrite length_skipn in Es. simpl in Es.
    rewrite length_firstn. lia.
Qed.

(** The copy loop of the tee never stops for lack of fuel: beyond the fuel
    [CopyN_Discard] provides, more fuel changes nothing. *)
Lemma Discard_ReadFrom_fuel (fuel1 : nat) :
  forall (fuel2 : nat) (t : Tee.teeReadSeeker) (left done : Z),
    (Z.to_nat left + length (pending (Tee.r t)) < fuel1)%nat ->
    (Z.to_nat left + length (pending (Tee.r t)) < fuel2)%nat ->
    Tee.Discard_ReadFrom fuel1 t left done = Tee.Discard_ReadFrom fuel2 t left done.
Proof.
  induction fuel1 as [|fuel1 IH]; intros fuel2 t left done H1 H2; [lia|].
  destruct fuel2 as [|fuel2]; [lia|]. simpl.
  destruct (left <=? 0) eqn:E0; [reflexivity|].
  rewrite Tee_Read_spec.
  destruct (source_Read (Tee.r t) (Z.to_nat (Z.min 8192 left))) as [[d e] s'] eqn:Er.
  destruct e as [e|]; [reflexivity|].
  apply source_Read_progress in Er; [|lia].
  apply IH; simpl; unfold len; lia.
Qed.

(** Likewise for the seek loop of the multi reader, whose scratch buffer is
    not empty. *)
Lemma Seek_loop_fuel (fuel1 : nat) :
  forall (fuel2 : nat) (mr : Multi.forwardMultiReadSeeker) (tr bl : Z) e,
    0 < bl -> (Z.to_nat tr <= fuel1)%nat -> (Z.to_nat tr <= fuel2)%nat ->
    Multi.Seek_loop fuel1 mr tr bl e = Multi.Seek_loop fuel2 mr tr bl e.
Proof.
  induction fuel1 as [|fuel1 IH]; intros fuel2 mr tr bl e Hb H1 H2.
  - destruct fuel2 as [|fuel2]; [reflexivity|]. simpl.
    destruct (tr >? 0) eqn:E0; [lia | reflexivity].
  - destruct fuel2 as [|fuel2]; simpl.
    + destruct (tr >? 0) eqn:E0; [lia | reflexivity].
    + destruct (tr >? 0) eqn:E0; [|reflexivity].
      set (bl' := if tr <? bl then tr else bl).
      assert (Hbl : 0 < bl' <= tr) by (subst bl'; destruct (tr <? bl) eqn:E; lia).
      destruct (Multi.Read mr (Z.to_nat bl')) as [[d e'] mr'].
      destruct (is_some e' || negb (len d =? bl')); [reflexivity|].
      apply IH; lia.
Qed.

(** * Further properties of the server *)

Lemma Conn_Write_incoming (cn : Conn.t) (b : bytes) :
  Conn.incoming (snd (Conn.Write cn b)) = Conn.incoming cn.
Proof.
  unfold Conn.Write. destruct (Conn.closed cn); [reflexivity|].
  destruct (Conn.wlimit cn) as [q|]; [|reflexivity].
  destruct (length b <=? q)%nat; reflexivity.
Qed.

(** A read of a piped server hands over bytes of the input buffer first and
    of the transport next, and drops none. *)
Lemma Server_Read_piped (c : Server.t) (k : nat) :
  Server.isPiped c = true ->
  exists d e c',
    Server.Read c k = Ret (d, e, c') /\
    Server.isPiped c' = true /\
    Server.rawInput c ++ stream (Conn.incoming (Server.conn c))
    = d ++ Server.rawInput c' ++ stream (Conn.incoming (Server.conn c')).
Proof.
  intros Hp. unfold Server.Read, Server.read. rewrite Hp. simpl.
  destruct (len (Server.rawInput c) =? 0) eqn:E0.
  - pose proof (Conn_Read_stream (Server.conn c) k) as Hs.
    destruct (Conn.Read (Server.conn c) k) as [[d e] cn]. destruct Hs as (Hs & _).
    do 3 eexists. split; [reflexivity|]. simpl. split; [exact Hp|].
    destruct (Server.rawInput c); [|discriminate]. simpl. exact Hs.
  - pose proof (len_nonneg (Server.rawInput c)) as Hn.
    destruct (len (Server.rawInput c) >? 0) eqn:E1; [|lia].
    destruct (Z.of_nat k <=? len (Server.rawInput c)) eqn:E2.
    + do 3 eexists. split; [reflexivity|]. simpl. split; [exact Hp|].
      unfold copy. rewrite length_firstn, Nat.min_l by (unfold len in *; lia).
      rewrite app_assoc, firstn_skipn. reflexivity.
    + simpl.
      pose proof (Conn_Read_stream (Server.conn c)
                    (k - length (copy k (Server.rawInput c)))) as Hs.
      destruct (Conn.Read (Server.conn c) _) as [[d e] cn]. destruct Hs as (Hs & _).
      do 3 eexists. split; [reflexivity|]. simpl. split; [exact Hp|].
      unfold copy. rewrite firstn_all2 by (unfold len in *; lia).
      rewrite Hs, <- app_assoc. reflexivity.
Qed.

Lemma Server_run_reads_piped (ks : list nat) (c : Server.t) :
  Server.isPiped c = true ->
  exists xs c',
    Server.run c (map Server.OpRead ks) = Ret (xs, c') /\
    Server.isPiped c' = true /\
    delivered xs ++ Server.rawInput c' ++ stream (Conn.incoming (Server.conn c'))
    = Server.rawInput c ++ stream (Conn.incoming (Server.conn c)).
Proof.
  revert c. induction ks as [|k ks IH]; intros c Hp; simpl.
  - do 2 eexists. split; [reflexivity|]. split; [exact Hp | reflexivity].
  - destruct (@Server_Read_piped c k Hp) as (d & e & c1 & -> & Hp1 & H1). simpl.
    destruct (IH c1 Hp1) as (xs & c2 & -> & Hp2 & H2). simpl.
    do 2 eexists. split; [reflexivity|]. split; [exact Hp2|].
    simpl. rewrite <- app_assoc, H2. symmetry. exact H1.
Qed.

(** [Pipe] with the cursor inside the input buffer: what it does to the
    input side. *)
Lemma Server_Pipe_input (c : Server.t) :
  0 <= Server.inputCnt c <= len (Server.rawInput c) ->
  exists e c',
    Server.Pipe c = Ret (e, c') /\
    Server.isPiped c' = true /\
    Server.inputCnt c' = 0 /\
    Server.rawInput c' = skipn (Z.to_nat (Server.inputCnt c)) (Server.rawInput c) /\
    Conn.incoming (Server.conn c') = Conn.incoming (Server.conn c).
Proof.
  intros Hi. unfold Server.Pipe.
  destruct (Server.inputCnt c >? 0) eqn:E.
  - rewrite slice_from_ok by lia. simpl.
    destruct (len (Server.rawOutput c) >? 0).
    + pose proof (Conn_Write_incoming (Server.conn c) (Server.rawOutput c)) as Hw.
      destruct (Conn.Write (Server.conn c) (Server.rawOutput c)) as [[n e] cn].
      do 2 eexists. split; [reflexivity|]. simpl. splits; auto.
    + do 2 eexists. split; [reflexivity|]. simpl. splits; auto.
  - simpl. replace (Server.inputCnt c) with 0 by lia. simpl.
    destruct (len (Server.rawOutput c) >? 0).
    + pose proof (Conn_Write_incoming (Server.conn c) (Server.rawOutput c)) as Hw.
      destruct (Conn.Write (Server.conn c) (Server.rawOutput c)) as [[n e] cn].
      do 2 eexists. split; [reflexivity|]. simpl. splits; auto.
    + do 2 eexists. split; [reflexivity|]. simpl. splits; auto.
Qed.

(** X1.  The input stream continues across [Pipe]: on a server whose cursor
    lies inside its input buffer, [Pipe] followed by reads of any lengths
    hands the caller the buffered bytes from the cursor on and then the
    bytes of the transport; the bytes returned, those still buffered and
    those still in the transport always add up to what was there before
    [Pipe].  No byte is lost or repeated, whatever the transport answers. *)
Theorem Server_Pipe_then_reads (c : Server.t) (ks : list nat) :
  0 <= Server.inputCnt c <= len (Server.rawInput c) ->
  exists e xs c1 c2,
    Server.Pipe c = Ret (e, c1) /\
    Server.run c1 (map Server.OpRead ks) = Ret (xs, c2) /\
    delivered xs ++ Server.rawInput c2 ++ stream (Conn.incoming (Server.conn c2))
    = skipn (Z.to_nat (Server.inputCnt c)) (Server.rawInput c)
      ++ stream (Conn.incoming (Server.conn c)).
Proof.
  intros Hi.
  destruct (@Server_Pipe_input c Hi) as (e & c1 & E1 & Hp1 & _ & Hr1 & Hc1).
  destruct (@Server_run_reads_piped ks c1 Hp1) as (xs & c2 & E2 & _ & H2).
  exists e, xs, c1, c2. splits; auto. rewrite H2, Hr1, Hc1. reflexivity.
Qed.

Lemma Server_Pipe_then_reads_witness :
  exists e xs c1 c2,
    Server.Pipe resniffed_server = Ret (e, c1) /\
    Server.run c1 (map Server.OpRead [1; 4]%nat) = Ret (xs, c2) /\
    delivered xs ++ Server.rawInput c2 ++ stream (Conn.incoming (Server.conn c2))
    = skipn (Z.to_nat (Server.inputCnt resniffed_server)) (Server.rawInput resniffed_server)
      ++ stream (Conn.incoming (Server.conn resniffed_server)).
Proof.
  apply (@Server_Pipe_then_reads resniffed_server [1; 4]%nat).
  vm_compute. split; discriminate.
Defined.

Lemma Server_step_piped (c : Server.t) (o : Server.op) :
  Server.isPiped c = true -> Server.inputCnt c = 0 ->
  exists x c',
    Server.step c o = Ret (x, c') /\
    Server.isPiped c' = true /\ Server.inputCnt c' = 0 /\
    Server.rawOutput c' = Server.rawOutput c /\
    (length (Server.rawInput c') <= length (Server.rawInput c))%nat.
Proof.
  intros Hp Hi. destruct o as [k|b| | |]; simpl.
  - unfold Server.Read, Server.read. rewrite Hp. simpl.
    pose proof (len_nonneg (Server.rawInput c)) as Hn.
    destruct (len (Server.rawInput c) =? 0) eqn:E0.
    + destruct (Conn.Read (Server.conn c) k) as [[d e] cn].
      do 2 eexists. split; [reflexivity|]. simpl. splits; auto.
    + destruct (len (Server.rawInput c) >? 0) eqn:E1; [|lia].
      destruct (Z.of_nat k <=? len (Server.rawInput c)) eqn:E2.
      * do 2 eexists. split; [reflexivity|]. simpl. splits; auto.
        rewrite length_skipn. lia.
      * simpl. destruct (Conn.Read (Server.conn c) _) as [[d e] cn].
        do 2 eexists. split; [reflexivity|]. simpl. splits; auto. lia.
  - unfold Server.Write. rewrite Hp.
    destruct (Conn.Write (Server.conn c) b) as [[n e] cn].
    do 2 eexists. split; [reflexivity|]. simpl. splits; auto.
  - unfold Server.Replay. rewrite Hp.
    do 2 eexists. split; [reflexivity|]. splits; auto.
  - unfold Server.Pipe. rewrite Hi. simpl.
    destruct (len (Server.rawOutput c) >? 0).
    + destruct (Conn.Write (Server.conn c) (Server.rawOutput c)) as [[n e] cn].
      do 2 eexists. split; [reflexivity|]. simpl. splits; auto.
    + do 2 eexists. split; [reflexivity|]. simpl. splits; auto.
  - unfold Server.Close. rewrite Hp.
    destruct (Conn.Close (Server.conn c)) as [e cn].
    do 2 eexists. split; [reflexivity|]. simpl. splits; auto.
Qed.

(** X2.  Piped is final: from a server on which [Pipe] has returned, no
    sequence of calls leaves pipe mode or panics, the output buffer is never
    touched again, and the input buffer only shrinks. *)
Theorem Server_piped_is_final (c : Server.t) (ops : list Server.op) :
  0 <= Server.inputCnt c <= len (Server.rawInput c) ->
  exists e c1 xs c2,
    Server.Pipe c = Ret (e, c1) /\
    Server.run c1 ops = Ret (xs, c2) /\
    Server.isPiped c2 = true /\
    Server.rawOutput c2 = Server.rawOutput c1 /\
    (length (Server.rawInput c2) <= length (Server.rawInput c1))%nat.
Proof.
  intros Hi.
  destruct (@Server_Pipe_input c Hi) as (e & c1 & E1 & Hp1 & Hi1 & _).
  exists e, c1. 
  assert (H : forall ops c1, Server.isPiped c1 = true -> Server.inputCnt c1 = 0 ->
            exists xs c2, Server.run c1 ops = Ret (xs, c2) /\
                          Server.isPiped c2 = true /\
                          Server.rawOutput c2 = Server.rawOutput c1 /\
                          (length (Server.rawInput c2) <= length (Server.rawInput c1))%nat).
  { clear. induction ops as [|o ops IH]; intros c1 Hp Hi; simpl.
    - do 2 eexists. split; [reflexivity|]. splits; auto.
    - destruct (@Server_step_piped c1 o Hp Hi) as (x & c' & -> & Hp' & Hi' & Ho' & Hl').
      simpl. destruct (IH c' Hp' Hi') as (xs & c2 & -> & Hp2 & Ho2 & Hl2). simpl.
      do 2 eexists. split; [reflexivity|]. splits; auto; [congruence | lia]. }
  destruct (H ops c1 Hp1 Hi1) as (xs & c2 & E2 & Hp2 & Ho2 & Hl2).
  exists xs, c2. splits; auto.
Qed.

Lemma Server_piped_is_final_witness :
  exists e c1 xs c2,
    Server.Pipe resniffed_server = Ret (e, c1) /\
    Server.run c1 [Server.OpReplay; Server.OpRead 2; Server.OpWrite (B "hi");
                   Server.OpPipe; Server.OpClose; Server.OpRead 1]
    = Ret (xs, c2) /\
    Server.isPiped c2 = true /\
    Server.rawOutput c2 = Server.rawOutput c1 /\
    (length (Server.rawInput c2) <= length (Server.rawInput c1))%nat.
Proof.
  apply (@Server_piped_is_final resniffed_server).
  vm_compute. split; discriminate.
Defined.

Lemma Server_run_writes_piped (bs : list bytes) (c : Server.t) (n : nat) :
  Server.isPiped c = true ->
  Conn.accepts (Server.conn c) n ->
  (length (concat bs) <= n)%nat ->
  exists c',
    Server.run c (map Server.OpWrite bs)
    = Ret (map (fun b => Server.Wrote (len b) None) bs, c') /\
    Server.isPiped c' = true /\
    Conn.outgoing (Server.conn c') = Conn.outgoing (Server.conn c) ++ concat bs.
Proof.
  revert c n. induction bs as [|b bs IH]; intros c n Hp Ha Hn; simpl.
  - exists c. rewrite app_nil_r. splits; auto.
  - simpl in Hn. rewrite length_app in Hn.
    unfold Server.Write. rewrite Hp.
    destruct (@Conn_Write_accepts (Server.conn c) b n Ha) as (cn & -> & Ho & _ & Ha');
      [lia|].
    simpl.
    destruct (IH (Server.set_conn c cn) (n - length b)%nat) as (c' & -> & Hp' & Ho');
      simpl; auto; [lia|].
    simpl. exists c'. splits; auto.
    rewrite Ho'. simpl. rewrite Ho, <- app_assoc. reflexivity.
Qed.

(** X3.  Output keeps its order across [Pipe]: on a detecting server with an
    empty output buffer, the bytes written before [Pipe] (within
    [MaxBuffer]) and the bytes written after it reach the transport as one
    sequence, the buffered ones first, when the transport takes them all. *)
Theorem Server_output_order_across_Pipe (c : Server.t) (before after : list bytes) :
  Server.isPiped c = false ->
  Server.rawOutput c = [] ->
  0 <= Server.inputCnt c <= len (Server.rawInput c) ->
  len (concat before) <= Server.MaxBuffer c ->
  Conn.accepts (Server.conn c) (length (concat before) + length (concat after)) ->
  exists xs c',
    Server.run c (map Server.OpWrite before ++ Server.OpPipe :: map Server.OpWrite after)
    = Ret (xs, c') /\
    Conn.outgoing (Server.conn c')
    = Conn.outgoing (Server.conn c) ++ concat before ++ concat after.
Proof.
  intros Hp Ho Hi Hl Ha.
  rewrite Server_run_app, Server_run_writes; auto; [|rewrite Ho; unfold len in *; simpl; lia].
  simpl. rewrite Ho. simpl.
  destruct (@Server_Pipe_ok (Server.set_rawOutput c (concat before))
              (length (concat before) + length (concat after)))
    as (c1 & E & Hp1 & _ & _ & _ & _ & Hout & Ha1); simpl; auto; [lia|].
  rewrite E. simpl. simpl in Ha1.
  destruct (@Server_run_writes_piped after c1
              (length (concat before) + length (concat after) - length (concat before)))
    as (c2 & E2 & _ & Hout2); auto; [lia|].
  rewrite E2. simpl. do 2 eexists. split; [reflexivity|].
  rewrite Hout2, Hout. simpl. rewrite <- app_assoc. reflexivity.
Qed.

Lemma Server_output_order_across_Pipe_witness :
  exists xs c',
    Server.run small_server
      (map Server.OpWrite [B "ab"; B "c"] ++ Server.OpPipe :: map Server.OpWrite [B "defgh"])
    = Ret (xs, c') /\
    Conn.outgoing (Server.conn c')
    = Conn.outgoing (Server.conn small_server) ++ concat [B "ab"; B "c"] ++ concat [B "defgh"].
Proof.
  apply (@Server_output_order_across_Pipe small_server [B "ab"; B "c"] [B "defgh"]).
  - reflexivity.
  - reflexivity.
  - vm_compute. split; discriminate.
  - vm_compute. discriminate.
  - vm_compute. split; [reflexivity | exact I].
Defined.

(** X4.  [Replay] withdraws what was written: on a detecting server, writes
    that fit the buffer followed by [Replay] and [Pipe] never reach the
    transport, which is left exactly as it was; and the whole input buffer,
    from its first byte, is what the piped server will read first. *)
Theorem Server_Replay_discards_output (c : Server.t) (ws : list bytes) :
  Server.isPiped c = false ->
  len (Server.rawOutput c) + len (concat ws) <= Server.MaxBuffer c ->
  exists xs c',
    Server.run c (map Server.OpWrite ws ++ [Server.OpReplay; Server.OpPipe])
    = Ret (xs, c') /\
    Server.isPiped c' = true /\
    Server.conn c' = Server.conn c /\
    Server.rawInput c' = Server.rawInput c /\
    Server.rawOutput c' = [].
Proof.
  intros Hp Hl.
  rewrite Server_run_app, Server_run_writes; auto.
  simpl. unfold Server.Replay. simpl. rewrite Hp. simpl.
  destruct (err_is (Server.err c) errClosed); unfold Server.Pipe; simpl;
    (do 2 eexists; split; [reflexivity|]; simpl; splits; reflexivity).
Qed.

Lemma Server_Replay_discards_output_witness :
  exists xs c',
    Server.run resniffed_server (map Server.OpWrite [B "no"; B "!"]
                                 ++ [Server.OpReplay; Server.OpPipe])
    = Ret (xs, c') /\
    Server.isPiped c' = true /\
    Server.conn c' = Server.conn resniffed_server /\
    Server.rawInput c' = Server.rawInput resniffed_server /\
    Server.rawOutput c' = [].
Proof.
  apply (@Server_Replay_discards_output resniffed_server [B "no"; B "!"]).
  - reflexivity.
  - vm_compute. discriminate.
Defined.

(** X5.  What one buffered [Read] does on a detecting server whose cursor
    lies inside its input buffer: it never panics; it appends to the input
    buffer only bytes it took from the transport, and takes at most the
    bytes missing for the request, never reading ahead; without error it
    returns the buffer from the cursor on, up to the length asked for, and
    moves the cursor by what it returned; with an error it returns no byte
    and leaves cursor and input buffer alone. *)
Theorem Server_Read_detecting (c : Server.t) (k : nat) :
  Server.isPiped c = false ->
  0 <= Server.inputCnt c <= len (Server.rawInput c) ->
  exists d e c' taken,
    Server.Read c k = Ret (d, e, c') /\
    Server.rawInput c' = Server.rawInput c ++ taken /\
    len taken <= Z.max 0 (Server.inputCnt c + Z.of_nat k - len (Server.rawInput c)) /\
    (e = None ->
     stream (Conn.incoming (Server.conn c))
     = taken ++ stream (Conn.incoming (Server.conn c')) /\
     d = firstn k (skipn (Z.to_nat (Server.inputCnt c)) (Server.rawInput c')) /\
     Server.inputCnt c' = Server.inputCnt c + len d) /\
    (e <> None ->
     d = [] /\ taken = [] /\ Server.inputCnt c' = Server.inputCnt c).
Proof. exact (@Server_Read_law c k). Qed.

Lemma Server_Read_detecting_witness :
  exists d e c' taken,
    Server.Read resniffed_server 3 = Ret (d, e, c') /\
    Server.rawInput c' = Server.rawInput resniffed_server ++ taken /\
    len taken <= Z.max 0 (Server.inputCnt resniffed_server + Z.of_nat 3
                          - len (Server.rawInput resniffed_server)) /\
    (e = None ->
     stream (Conn.incoming (Server.conn resniffed_server))
     = taken ++ stream (Conn.incoming (Server.conn c')) /\
     d = firstn 3 (skipn (Z.to_nat (Server.inputCnt resniffed_server)) (Server.rawInput c')) /\
     Server.inputCnt c' = Server.inputCnt resniffed_server + len d) /\
    (e <> None ->
     d = [] /\ taken = [] /\ Server.inputCnt c' = Server.inputCnt resniffed_server).
Proof.
  apply (@Server_Read_detecting resniffed_server 3%nat).
  - reflexivity.
  - vm_compute. split; discriminate.
Defined.

(** X6.  [ReadByte] on a detecting server whose cursor lies inside its input
    buffer: when it returns no error, the byte is the one at the cursor and
    the cursor has moved by one; when it returns an error, the byte is zero
    and no input was consumed, cursor and input buffer being as before. *)
Theorem Server_ReadByte_detecting (c : Server.t) :
  Server.isPiped c = false ->
  0 <= Server.inputCnt c <= len (Server.rawInput c) ->
  exists b e c',
    Server.ReadByte c = Ret (b, e, c') /\
    (e = None ->
     nth_error (Server.rawInput c') (Z.to_nat (Server.inputCnt c)) = Some b /\
     Server.inputCnt c' = Server.inputCnt c + 1) /\
    (e <> None ->
     b = x00 /\ Server.inputCnt c' = Server.inputCnt c /\
     Server.rawInput c' = Server.rawInput c).
Proof.
  intros Hp Hi. unfold Server.ReadByte.
  destruct (@Server_Read_law c 1%nat Hp Hi)
    as (d & e & c' & taken & -> & Hr & Hl & Hok & Herr).
  simpl. destruct e as [e|].
  - destruct Herr as (-> & -> & Hc); [discriminate|].
    rewrite app_nil_r in Hr.
    do 3 eexists. split; [reflexivity|]. split; [discriminate|]. auto.
  - destruct Hok as (Hs & Hd & Hc); [reflexivity|].
    destruct (skipn (Z.to_nat (Server.inputCnt c)) (Server.rawInput c'))
      as [|b0 rest] eqn:Esk.
    + (* nothing at the cursor: zero bytes without error *)
      simpl in Hd. subst d.
      do 3 eexists. split; [reflexivity|]. split; [discriminate|]. intros _.
      splits; auto; [simpl in Hc; unfold len in Hc; simpl in Hc; lia|].
      apply (f_equal (@length byte)) in Esk. rewrite length_skipn in Esk.
      simpl in Esk. rewrite Hr in Esk |- *. rewrite length_app in Esk.
      destruct taken; [rewrite app_nil_r; reflexivity|].
      simpl in Esk. unfold len in Hi. lia.
    + simpl in Hd. subst d.
      do 3 eexists. split; [reflexivity|]. split; [|congruence]. intros _.
      split; [|exact Hc].
      rewrite <- (firstn_skipn (Z.to_nat (Server.inputCnt c)) (Server.rawInput c')).
      rewrite Esk, nth_error_app2; rewrite length_firstn.
      * assert (Hlen : (Z.to_nat (Server.inputCnt c) <= length (Server.rawInput c'))%nat).
        { rewrite Hr, length_app. unfold len in Hi. lia. }
        replace (Z.to_nat (Server.inputCnt c)
                 - Nat.min (Z.to_nat (Server.inputCnt c)) (length (Server.rawInput c')))%nat
          with 0%nat by lia.
        reflexivity.
      * lia.
Qed.

Lemma Server_ReadByte_detecting_witness :
  exists b e c',
    Server.ReadByte resniffed_server = Ret (b, e, c') /\
    (e = None ->
     nth_error (Server.rawInput c') (Z.to_nat (Server.inputCnt resniffed_server)) = Some b /\
     Server.inputCnt c' = Server.inputCnt resniffed_server + 1) /\
    (e <> None ->
     b = x00 /\ Server.inputCnt c' = Server.inputCnt resniffed_server /\
     Server.rawInput c' = Server.rawInput resniffed_server).
Proof.
  apply (@Server_ReadByte_detecting resniffed_server).
  - reflexivity.
  - vm_compute. split; discriminate.
Defined.

(** X7.  [Close] and [Replay], on both wrappers.  While detecting, [Close]
    returns no error and leaves the transport untouched, storing [errClosed];
    the [Replay] that follows succeeds and clears that fault, still without
    touching the transport.  Once piped, [Close] closes the transport and
    [Replay] is refused with [errAlreadyPipe], changing nothing. *)
Theorem Close_then_Replay :
  (forall c : Server.t,
      Server.isPiped c = false ->
      exists c1 c2,
        Server.Close c = (None, c1) /\ Server.conn c1 = Server.conn c /\
        Server.err c1 = Some errClosed /\
        Server.Replay c1 = (None, c2) /\ Server.err c2 = None /\
        Server.conn c2 = Server.conn c /\ Server.rawInput c2 = Server.rawInput c /\
        Server.inputCnt c2 = 0 /\ Server.rawOutput c2 = []) /\
  (forall c : Server.t,
      Server.isPiped c = true ->
      Conn.closed (Server.conn (snd (Server.Close c))) = true /\
      Server.Replay c = (Some errAlreadyPipe, c)) /\
  (forall c : Client.t,
      Client.isPiped c = false ->
      exists c1 c2,
        Client.Close c = (None, c1) /\ Client.conn c1 = Client.conn c /\
        Client.err c1 = Some errClosed /\
        Client.Replay c1 = (None, c2) /\ Client.err c2 = None /\
        Client.conn c2 = Client.conn c /\ Client.rawOutput c2 = Client.rawOutput c /\
        Client.outputCnt c2 = 0 /\ Client.rawInput c2 = []) /\
  (forall c : Client.t,
      Client.isPiped c = true ->
      Conn.closed (Client.conn (snd (Client.Close c))) = true /\
      Client.Replay c = (Some errAlreadyPipe, c)).
Proof.
  splits.
  - intros c Hp. unfold Server.Close. rewrite Hp.
    eexists. eexists. split; [reflexivity|]. split; [reflexivity|].
    split; [reflexivity|]. unfold Server.Replay. simpl. rewrite Hp. simpl.
    splits; reflexivity.
  - intros c Hp. unfold Server.Close, Server.Replay. rewrite Hp. split; [|reflexivity].
    pose proof (Conn_Close_closed (Server.conn c)) as H.
    destruct (Conn.Close (Server.conn c)) as [e cn]. exact H.
  - intros c Hp. unfold Client.Close. rewrite Hp.
    eexists. eexists. split; [reflexivity|]. split; [reflexivity|].
    split; [reflexivity|]. unfold Client.Replay. simpl. rewrite Hp. simpl.
    splits; reflexivity.
  - intros c Hp. unfold Client.Close, Client.Replay. rewrite Hp. split; [|reflexivity].
    pose proof (Conn_Close_closed (Client.conn c)) as H.
    destruct (Conn.Close (Client.conn c)) as [e cn]. exact H.
Qed.

Lemma Close_then_Replay_witness :
  (exists c1 c2,
      Server.Close resniffed_server = (None, c1) /\
      Server.Replay c1 = (None, c2) /\ Server.err c2 = None /\
      Server.conn c2 = Server.conn resniffed_server) /\
  (exists c1 c2,
      Client.Close probing_client = (None, c1) /\
      Client.Replay c1 = (None, c2) /\ Client.err c2 = None /\
      Client.conn c2 = Client.conn probing_client).
Proof.
  destruct Close_then_Replay as (HS & _ & HC & _). split.
  - destruct (HS resniffed_server) as (c1 & c2 & E1 & _ & _ & E2 & He & Hc & _);
      [reflexivity|].
    exists c1, c2. splits; assumption.
  - destruct (HC probing_client) as (c1 & c2 & E1 & _ & _ & E2 & He & Hc & _);
      [reflexivity|].
    exists c1, c2. splits; assumption.
Defined.

(** * Further properties of the client *)

Lemma Conn_Write_count (cn : Conn.t) (b : bytes) :
  0 <= fst (fst (Conn.Write cn b)) <= len b.
Proof.
  unfold Conn.Write, len. destruct (Conn.closed cn); simpl; [lia|].
  destruct (Conn.wlimit cn) as [q|]; simpl; [|lia].
  destruct (length b <=? q)%nat eqn:E; simpl; [lia|].
  apply Nat.leb_gt in E. lia.
Qed.

(** Writes of a detecting client that fit the buffer, over a transport that
    takes them: buffered and sent, byte for byte. *)
Lemma Client_run_writes (ws : list bytes) :
  forall (c : Client.t) (n : nat),
    Client.isPiped c = false ->
    len (Client.rawOutput c) + len (concat ws) <= Client.MaxBuffer c ->
    Conn.accepts (Client.conn c) n ->
    (length (concat ws) <= n)%nat ->
    exists c',
      Client.run c (map Client.OpWrite ws)
      = Ret (map (fun b => Client.Wrote (len b) None) ws, c') /\
      Client.isPiped c' = false /\
      Client.inputCnt c' = Client.inputCnt c /\
      Client.rawInput c' = Client.rawInput c /\
      Client.rawOutput c' = Client.rawOutput c ++ concat ws /\
      Client.outputCnt c' = Client.outputCnt c + len (concat ws) /\
      Conn.outgoing (Client.conn c') = Conn.outgoing (Client.conn c) ++ concat ws /\
      Conn.accepts (Client.conn c') (n - length (concat ws)).
Proof.
  induction ws as [|b ws IH]; intros c n Hp Hl Ha Hn; simpl.
  - exists c. rewrite !app_nil_r, Z.add_0_r, Nat.sub_0_r. splits; auto.
  - simpl in Hl, Hn. rewrite len_app in Hl. rewrite length_app in Hn.
    pose proof (len_nonneg (concat ws)).
    unfold Client.Write, Client.write. rewrite Hp.
    destruct (len (Client.rawOutput c) + len b >? Client.MaxBuffer c) eqn:E; [lia|].
    simpl.
    destruct (@Conn_Write_accepts (Client.conn c) b n Ha) as (cn & -> & Ho & _ & Ha');
      [lia|].
    simpl.
    destruct (IH (Client.set_outputCnt
                    (Client.set_conn (Client.set_rawOutput c (Client.rawOutput c ++ b)) cn)
                    (Client.outputCnt c + len b)) (n - length b)%nat)
      as (c' & -> & Hp' & Hi' & Hri' & Hro' & Hoc' & Hout' & Hacc'); simpl; auto.
    { rewrite len_app. lia. }
    { lia. }
    simpl. exists c'. simpl in *. splits; auto.
    + rewrite Hro', <- app_assoc. reflexivity.
    + rewrite Hoc', len_app. lia.
    + rewrite Hout', Ho, <- app_assoc. reflexivity.
    + replace (n - length (b ++ concat ws))%nat
        with (n - length b - length (concat ws))%nat by (rewrite length_app; lia).
      exact Hacc'.
Qed.

(** X8.  A probe is sent once: on a detecting client with nothing buffered,
    writes that fit [MaxBuffer], over a transport that takes them, are
    forwarded at once and in order, and the [Pipe] that follows finds
    everything sent and writes nothing more. *)
Theorem Client_writes_then_Pipe (c : Client.t) (ws : list bytes) :
  Client.isPiped c = false ->
  Client.rawOutput c = [] -> Client.outputCnt c = 0 -> Client.inputCnt c = 0 ->
  len (concat ws) <= Client.MaxBuffer c ->
  Conn.accepts (Client.conn c) (length (concat ws)) ->
  exists c1 c2,
    Client.run c (map Client.OpWrite ws)
    = Ret (map (fun b => Client.Wrote (len b) None) ws, c1) /\
    Conn.outgoing (Client.conn c1) = Conn.outgoing (Client.conn c) ++ concat ws /\
    Client.rawOutput c1 = concat ws /\
    Client.Pipe c1 = Ret (None, c2) /\
    Client.isPiped c2 = true /\
    Client.conn c2 = Client.conn c1.
Proof.
  intros Hp Ho Hoc Hi Hl Ha.
  destruct (@Client_run_writes ws c (length (concat ws)))
    as (c1 & E & Hp1 & Hi1 & _ & Hro1 & Hoc1 & Hout1 & _); auto.
  { rewrite Ho. unfold len in *. simpl. lia. }
  rewrite Ho in Hro1. simpl in Hro1. rewrite Hoc in Hoc1. simpl in Hoc1.
  exists c1, (Client.set_isPiped (Client.set_outputCnt (Client.set_inputCnt c1 0) 0) true).
  splits; auto.
  unfold Client.Pipe. rewrite Hi1, Hi. simpl.
  rewrite Hoc1, Hro1. rewrite Z.ltb_irrefl, andb_false_r. simpl. reflexivity.
Qed.

Lemma Client_writes_then_Pipe_witness :
  exists c1 c2,
    Client.run small_client (map Client.OpWrite [B "ab"; B "c"])
    = Ret (map (fun b => Client.Wrote (len b) None) [B "ab"; B "c"], c1) /\
    Conn.outgoing (Client.conn c1)
    = Conn.outgoing (Client.conn small_client) ++ concat [B "ab"; B "c"] /\
    Client.rawOutput c1 = concat [B "ab"; B "c"] /\
    Client.Pipe c1 = Ret (None, c2) /\
    Client.isPiped c2 = true /\
    Client.conn c2 = Client.conn c1.
Proof.
  apply (@Client_writes_then_Pipe small_client [B "ab"; B "c"]);
    try reflexivity.
  - vm_compute. discriminate.
  - vm_compute. split; [reflexivity | exact I].
Defined.

(** X9.  The probe is replayed over a new connection: on a detecting client,
    [Replay] followed by [SetNewConn] with a transport that takes the bytes
    sends the whole output buffer, as first written, over the new transport
    and marks it sent; the [Pipe] that follows writes nothing more. *)
Theorem Client_Replay_SetNewConn (c : Client.t) (cn : Conn.t) :
  Client.isPiped c = false ->
  Conn.accepts cn (length (Client.rawOutput c)) ->
  exists xs c',
    Client.run c [Client.OpReplay; Client.OpSetNewConn cn; Client.OpPipe]
    = Ret (xs, c') /\
    Client.isPiped c' = true /\
    Client.rawOutput c' = Client.rawOutput c /\
    Conn.outgoing (Client.conn c') = Conn.outgoing cn ++ Client.rawOutput c /\
    Conn.incoming (Client.conn c') = Conn.incoming cn.
Proof.
  intros Hp Ha. simpl. unfold Client.Replay. rewrite Hp. simpl.
  set (c0 := if err_is (Client.err c) errClosed then _ else _).
  assert (H0 : Client.rawOutput c0 = Client.rawOutput c /\ Client.inputCnt c0 = 0 /\
               Client.rawInput c0 = []).
  { subst c0. destruct (err_is (Client.err c) errClosed); simpl; splits; auto. }
  destruct H0 as (Hro & Hi & Hri).
  unfold Client.SetNewConn. simpl. rewrite Hro.
  destruct (@Conn_Write_accepts cn (Client.rawOutput c) (length (Client.rawOutput c)) Ha)
    as (cn' & -> & Hout & Hinc & _); [lia|].
  simpl. unfold Client.Pipe. simpl. rewrite Hi. simpl. rewrite Hro.
  rewrite Z.ltb_irrefl, andb_false_r. simpl.
  do 2 eexists. split; [reflexivity|]. simpl. splits; auto.
Qed.

Lemma Client_Replay_SetNewConn_witness :
  exists xs c',
    Client.run probing_client
               [Client.OpReplay; Client.OpSetNewConn (Conn.fresh (bytesReader (B "ok")));
                Client.OpPipe]
    = Ret (xs, c') /\
    Client.isPiped c' = true /\
    Client.rawOutput c' = Client.rawOutput probing_client /\
    Conn.outgoing (Client.conn c')
    = Conn.outgoing (Conn.fresh (bytesReader (B "ok"))) ++ Client.rawOutput probing_client /\
    Conn.incoming (Client.conn c') = Conn.incoming (Conn.fresh (bytesReader (B "ok"))).
Proof.
  apply (@Client_Replay_SetNewConn probing_client (Conn.fresh (bytesReader (B "ok")))).
  - reflexivity.
  - vm_compute. split; [reflexivity | exact I].
Defined.

Lemma Client_step_Inv (c : Client.t) (o : Client.op) :
  Client.Inv c ->
  match Client.step c o with
  | Ret (_, c') => Client.Inv c' /\ Client.MaxBuffer c' = Client.MaxBuffer c
  | Panic => o = Client.OpPipe
  end.
Proof.
  intros (Hi & Hri & Hoc & Hl).
  destruct o as [k|b| | | |cn|q]; simpl.
  - unfold Client.Read. destruct (Conn.Read (Client.conn c) k) as [[d e] cn].
    unfold Client.Inv; simpl. splits; auto; lia.
  - unfold Client.Write, Client.write.
    destruct (Client.isPiped c).
    + destruct (Conn.Write (Client.conn c) b) as [[n e] cn].
      unfold Client.Inv; simpl. splits; auto; lia.
    + destruct (len (Client.rawOutput c) + len b >? Client.MaxBuffer c) eqn:E; simpl.
      * destruct (Conn.Close (Client.conn c)) as [e cn].
        unfold Client.Inv; simpl. splits; auto; lia.
      * pose proof (Conn_Write_count (Client.conn c) b) as Hn.
        destruct (Conn.Write (Client.conn c) b) as [[n e] cn]. simpl in Hn.
        unfold Client.Inv; simpl. rewrite len_app. splits; auto; lia.
  - unfold Client.Replay. destruct (Client.isPiped c); simpl.
    + unfold Client.Inv. splits; auto; lia.
    + pose proof (len_nonneg (Client.rawOutput c)).
      destruct (err_is (Client.err c) errClosed);
        unfold Client.Inv; simpl; splits; auto; lia.
  - unfold Client.Pipe. rewrite Hi. simpl.
    destruct ((len (Client.rawOutput c) >? 0)
              && (Client.outputCnt c <? len (Client.rawOutput c))).
    + destruct (slice_from (Client.rawOutput c) (Client.outputCnt c - 1)) as [out|];
        simpl; [|reflexivity].
      destruct (Conn.Write (Client.conn c) out) as [[n e] cn]. simpl.
      pose proof (len_nonneg (Client.rawOutput c)).
      unfold Client.Inv; simpl. splits; auto; lia.
    + simpl. pose proof (len_nonneg (Client.rawOutput c)).
      unfold Client.Inv; simpl. splits; auto; lia.
  - unfold Client.Close. destruct (Client.isPiped c).
    + destruct (Conn.Close (Client.conn c)) as [e cn].
      unfold Client.Inv; simpl. splits; auto; lia.
    + unfold Client.Inv; simpl. splits; auto; lia.
  - unfold Client.SetNewConn. simpl.
    pose proof (Conn_Write_count cn (Client.rawOutput c)) as Hn.
    destruct (Conn.Write cn (Client.rawOutput c)) as [[n e] cn']. simpl in Hn.
    unfold Client.Inv; simpl. splits; auto; lia.
  - unfold Client.SetWriteDeadline.
    destruct (Conn.SetWriteDeadline (Client.conn c) q) as [e cn].
    unfold Client.Inv; simpl. splits; auto; lia.
Qed.

(** X10.  The bounds a client keeps.  Take a new client over any transport
    with any capacity [m >= 0] and run any sequence of Read, Write, Replay,
    Close, SetNewConn and SetWriteDeadline calls: the run returns, the input
    side stays empty (a client buffers no input), and
    [0 <= outputCnt <= len(rawOutput) <= MaxBuffer = m].  With [Pipe] calls
    in the sequence the same holds whenever the run returns; the only call
    that can panic is [Pipe]. *)
Theorem Client_invariant (cn : Conn.t) (m : Z) (ops : list Client.op) :
  0 <= m ->
  match Client.run (Client.set_MaxBuffer (Client.NewClient cn) m) ops with
  | Ret (_, c') => Client.Inv c' /\ Client.MaxBuffer c' = m
  | Panic => In Client.OpPipe ops
  end.
Proof.
  intros Hm.
  assert (H : forall ops c, Client.Inv c ->
            match Client.run c ops with
            | Ret (_, c') => Client.Inv c' /\ Client.MaxBuffer c' = Client.MaxBuffer c
            | Panic => In Client.OpPipe ops
            end).
  { clear. induction ops as [|o ops IH]; intros c HI; simpl.
    - auto.
    - pose proof (@Client_step_Inv c o HI) as Hs.
      destruct (Client.step c o) as [[x c1]|]; simpl; [|left; exact Hs].
      destruct Hs as [HI1 Hm1]. specialize (IH c1 HI1).
      destruct (Client.run c1 ops) as [[xs c2]|]; simpl.
      + destruct IH. split; [assumption | congruence].
      + right. exact IH. }
  apply (H ops (Client.set_MaxBuffer (Client.NewClient cn) m)).
  unfold Client.Inv; simpl. unfold len; simpl. splits; auto; lia.
Qed.

Lemma Client_invariant_witness :
  match Client.run (Client.set_MaxBuffer (Client.NewClient (Conn.fresh (bytesReader (B "ok")))) 4)
                   [Client.OpWrite (B "abc"); Client.OpRead 2; Client.OpWrite (B "de");
                    Client.OpReplay; Client.OpSetNewConn (Conn.fresh (bytesReader []));
                    Client.OpClose; Client.OpPipe] with
  | Ret (_, c') => Client.Inv c' /\ Client.MaxBuffer c' = 4
  | Panic => In Client.OpPipe
               [Client.OpWrite (B "abc"); Client.OpRead 2; Client.OpWrite (B "de");
                Client.OpReplay; Client.OpSetNewConn (Conn.fresh (bytesReader []));
                Client.OpClose; Client.OpPipe]
  end.
Proof.
  apply (@Client_invariant (Conn.fresh (bytesReader (B "ok"))) 4). lia.
Defined.

(** X11.  [ReadByte] of a client reads the transport and nothing else: it
    never changes the buffers, the counters, the mode or what was sent; when
    it returns no error, the byte is the next byte of the transport, which
    has moved on by exactly that byte; when it returns an error, the byte
    is zero. *)
Theorem Client_ReadByte_next (c : Client.t) :
  let '(b, e, c') := Client.ReadByte c in
  c' = Client.set_conn c (Client.conn c') /\
  Conn.outgoing (Client.conn c') = Conn.outgoing (Client.conn c) /\
  (e = None ->
   stream (Conn.incoming (Client.conn c)) = b :: stream (Conn.incoming (Client.conn c'))) /\
  (e <> None -> b = x00).
Proof.
  unfold Client.ReadByte, Client.Read.
  pose proof (Conn_Read_stream (Client.conn c) 1) as Hs.
  assert (Ho : Conn.outgoing (snd (Conn.Read (Client.conn c) 1))
               = Conn.outgoing (Client.conn c)).
  { unfold Conn.Read. destruct (Conn.closed (Client.conn c)); [reflexivity|].
    destruct (source_Read (Conn.incoming (Client.conn c)) 1) as [[d0 e0] s0].
    reflexivity. }
  destruct (Conn.Read (Client.conn c) 1) as [[d e] cn]. simpl in Ho.
  destruct Hs as (Hs & _).
  destruct d as [|b [|b' d]]; destruct e as [e|]; simpl;
    splits; auto; try discriminate; try congruence.
Qed.

(** X12.  A byte that arrives together with an error is lost.  When the
    transport hands over its last byte in the same [Read] as its final
    error, [ReadByte] returns the zero byte and that error; the byte has
    left the transport and the caller never sees it. *)
Theorem Client_ReadByte_drops_byte_read_with_error (c : Client.t) (x : byte) :
  Conn.closed (Client.conn c) = false ->
  pending (Conn.incoming (Client.conn c)) = [[x]] ->
  eager (Conn.incoming (Client.conn c)) = true ->
  exists c',
    Client.ReadByte c = (x00, Some (final (Conn.incoming (Client.conn c))), c') /\
    stream (Conn.incoming (Client.conn c)) = [x] /\
    stream (Conn.incoming (Client.conn c')) = [].
Proof.
  intros Hc Hp He.
  unfold Client.ReadByte, Client.Read, Conn.Read, source_Read, stream.
  rewrite Hc, Hp, He. simpl. eexists. splits; reflexivity.
Qed.

Lemma Client_ReadByte_drops_byte_read_with_error_witness :
  exists c',
    Client.ReadByte last_byte_client
    = (x00, Some (final (Conn.incoming (Client.conn last_byte_client))), c') /\
    stream (Conn.incoming (Client.conn last_byte_client)) = [x7a] /\
    stream (Conn.incoming (Client.conn c')) = [].
Proof.
  apply (@Client_ReadByte_drops_byte_read_with_error last_byte_client x7a);
    reflexivity.
Defined.

(** * Further properties of the forward multi reader *)

Lemma err_is_EOF (e : option error) : err_is e EOF = true -> e = Some EOF.
Proof.
  destruct e as [e|]; simpl; [|discriminate]. destruct e; simpl; congruence.
Qed.

Lemma buffer_Read_content (b : bytes) (k : nat) :
  let '(d, e, b') := buffer_Read b k in
  b = d ++ b' /\ (e <> None -> b' = []) /\ (length d <= k)%nat.
Proof.
  unfold buffer_Read. destruct b as [|x b].
  - destruct (k =? 0)%nat; simpl; splits; auto; lia.
  - splits.
    + symmetry. apply firstn_skipn.
    + congruence.
    + rewrite length_firstn. lia.
Qed.

Lemma readers_content_cons (r0 : reader) (rs : list reader) :
  readers_content (r0 :: rs) = reader_content r0 ++ readers_content rs.
Proof. reflexivity. Qed.

(** One turn of reading the head reader: the bytes returned are the first of
    its content, and a reader that answers end of data has none left. *)
Lemma reader_Read_with_content
    (rec : list reader -> Z -> nat -> option Multi.result) (k : nat) :
  (forall rs p d e rs' p',
      rec rs p k = Some (d, e, rs', p') ->
      readers_content rs = d ++ readers_content rs' /\
      (length d <= k)%nat /\ (e = Some EOF -> rs' = [])) ->
  forall r0 d e r0',
    Multi.reader_Read_with rec r0 k = Some (d, e, r0') ->
    reader_content r0 = d ++ reader_content r0' /\
    (length d <= k)%nat /\
    (err_is e EOF = true -> reader_content r0' = []).
Proof.
  intros Hrec r0 d e r0' H. destruct r0 as [s|b|rs p|]; simpl in H.
  - pose proof (source_Read_stream s k) as Hs.
    pose proof (source_Read_length s k) as Hl.
    destruct (source_Read s k) as [[d0 e0] s']. simpl in Hl.
    injection H as <- <- <-. destruct Hs as (Hs1 & _ & Hs3). simpl. splits; auto.
    intros He. apply err_is_EOF in He. unfold stream. rewrite Hs3; [reflexivity|].
    congruence.
  - pose proof (buffer_Read_content b k) as Hb.
    destruct (buffer_Read b k) as [[d0 e0] b']. injection H as <- <- <-.
    destruct Hb as (Hb1 & Hb2 & Hb3). simpl. splits; auto.
    intros He. apply err_is_EOF in He. apply Hb2. congruence.
  - destruct (rec rs p k) as [[[[d0 e0] rs'] p']|] eqn:E; [|discriminate].
    injection H as <- <- <-. destruct (Hrec _ _ _ _ _ _ E) as (H1 & H2 & H3).
    simpl. fold (readers_content rs). fold (readers_content rs'). splits; auto.
    intros He. apply err_is_EOF in He. rewrite (H3 He). reflexivity.
  - injection H as <- <- <-. simpl. splits; auto. lia.
Qed.

Lemma Read_loop_content (fuel : nat) :
  forall (rs : list reader) (p : Z) (k : nat) d e rs' p',
    Multi.Read_loop fuel rs p k = Some (d, e, rs', p') ->
    readers_content rs = d ++ readers_content rs' /\
    p' = p + len d /\
    (length d <= k)%nat.
Proof.
  induction fuel as [|fuel IH]; intros rs p k d e rs' p' H; [discriminate|].
  destruct rs as [|r0 rest].
  { simpl in H. injection H as <- <- <- <-. simpl. splits; auto; [unfold len; simpl; lia | lia]. }
  assert (Hgen :
    match Multi.reader_Read_with (Multi.Read_loop fuel) r0 k with
    | None => None
    | Some (d, e, r0') =>
        let pos := p + len d in
        let rs := if err_is e EOF then rest else r0' :: rest in
        if (len d >? 0) || negb (err_is e EOF) then
          let e := if err_is e EOF && (len rs >? 0) then None else e in
          Some (d, e, rs, pos)
        else Multi.Read_loop fuel rs pos k
    end = Some (d, e, rs', p') ->
    readers_content (r0 :: rest) = d ++ readers_content rs' /\
    p' = p + len d /\ (length d <= k)%nat).
  { clear H. intros H.
    destruct (Multi.reader_Read_with (Multi.Read_loop fuel) r0 k)
      as [[[d0 e0] r0']|] eqn:E; [|discriminate].
    apply (@reader_Read_with_content (Multi.Read_loop fuel) k) in E.
    2:{ intros rs0 p0 d1 e1 rs1 p1 H1. destruct (IH _ _ _ _ _ _ _ H1) as (Ha & _ & Hb).
        splits; auto. intros He. eapply Read_loop_EOF; eauto. }
    destruct E as (Hc & Hl & Hz). simpl in H.
    rewrite readers_content_cons, Hc.
    destruct ((len d0 >? 0) || negb (err_is e0 EOF)) eqn:E1.
    - injection H as <- _ <- <-.
      destruct (err_is e0 EOF) eqn:E2.
      + rewrite (Hz eq_refl), app_nil_r. splits; auto.
      + rewrite readers_content_cons, <- app_assoc. splits; auto.
    - apply orb_false_elim in E1. destruct E1 as [E1 E2].
      apply negb_false_iff in E2. rewrite E2 in H.
      assert (d0 = []) by (destruct d0; [reflexivity | discriminate]). subst d0.
      rewrite (Hz E2). simpl.
      destruct (IH _ _ _ _ _ _ _ H) as (Ha & Hb & Hc').
      splits; auto. rewrite Hb. unfold len. simpl. lia. }
  destruct r0 as [s|b|rs0 p0|]; try (apply Hgen; exact H).
  destruct rest as [|r1 rest]; [|apply Hgen; exact H].
  simpl in H. destruct (IH _ _ _ _ _ _ _ H) as (Ha & Hb & Hc).
  splits; auto. unfold readers_content in *. simpl. rewrite app_nil_r. exact Ha.
Qed.

(** One read of the multi reader takes its bytes off the front of the content. *)
Lemma Multi_Read_content (mr : Multi.forwardMultiReadSeeker) (k : nat) :
  let '(d, e, mr') := Multi.Read mr k in
  readers_content (Multi.readers mr) = d ++ readers_content (Multi.readers mr') /\
  Multi.pos mr' = Multi.pos mr + len d /\
  (length d <= k)%nat.
Proof.
  unfold Multi.Read.
  destruct (Multi.Read_loop (S (readers_size (Multi.readers mr)))
                            (Multi.readers mr) (Multi.pos mr) k)
    as [[[[d e] rs] p]|] eqn:E.
  - simpl. eapply Read_loop_content; eauto.
  - exfalso. eapply Read_loop_fuel; [|exact E]. lia.
Qed.

(** X13.  [Read] of the multi reader, for any list of readers, nested ones
    included: the bytes returned are the next bytes of the concatenation of
    the readers, at most as many as asked for; what remains afterwards is
    the rest of the concatenation; and the position has grown by exactly
    the number of bytes returned. *)
Theorem Multi_Read_in_order (mr : Multi.forwardMultiReadSeeker) (k : nat) :
  let '(d, e, mr') := Multi.Read mr k in
  readers_content (Multi.readers mr) = d ++ readers_content (Multi.readers mr') /\
  Multi.pos mr' = Multi.pos mr + len d /\
  (length d <= k)%nat.
Proof. exact (@Multi_Read_content mr k). Qed.

(** X14.  Repeated reads through a buffer of any length deliver the
    concatenation of the readers in order; and once a read has reported end
    of data, everything has been delivered, each byte once. *)
Theorem Multi_Reads_deliver_all (mr : Multi.forwardMultiReadSeeker) (n k : nat) :
  let '(l, mr') := Multi.Reads mr n k in
  readers_content (Multi.readers mr)
  = concat (map fst l) ++ readers_content (Multi.readers mr') /\
  Multi.pos mr' = Multi.pos mr + len (concat (map fst l)) /\
  ((exists d, In (d, Some EOF) l) ->
   concat (map fst l) = readers_content (Multi.readers mr)).
Proof.
  revert mr. induction n as [|n IH]; intros mr; simpl.
  - splits; auto; [unfold len; simpl; lia|]. intros [d []].
  - pose proof (Multi_Read_content mr k) as H1.
    pose proof (@Multi_Read_EOF mr k) as HE.
    destruct (Multi.Read mr k) as [[d e] mr1].
    specialize (IH mr1). destruct (Multi.Reads mr1 n k) as [l mr'].
    destruct H1 as (Hc1 & Hp1 & _). destruct IH as (Hc & Hp & Hall).
    simpl. splits.
    + rewrite Hc1, Hc, <- !app_assoc. reflexivity.
    + rewrite Hp, Hp1, len_app. lia.
    + intros [d0 [Hin|Hin]].
      * injection Hin as <- ->.
        rewrite (HE d mr1 eq_refl) in Hc. unfold readers_content in Hc at 1.
        simpl in Hc. symmetry in Hc. apply app_eq_nil in Hc. destruct Hc as [Hl _].
        rewrite Hc1, Hl, (HE d mr1 eq_refl). reflexivity.
      * rewrite Hc1. f_equal. apply Hall. eauto.
Qed.

Lemma Multi_Reads_deliver_all_witness :
  concat (map fst (fst (Multi.Reads abc_def 5 2)))
  = readers_content (Multi.readers abc_def).
Proof.
  pose proof (Multi_Reads_deliver_all abc_def 5 2) as H.
  destruct (Multi.Reads abc_def 5 2) as [l mr'] eqn:E.
  destruct H as (_ & _ & H). simpl. apply H.
  exists []. vm_compute in E. injection E as <- _. simpl. auto 10.
Defined.

Lemma Seek_loop_skips (fuel : nat) :
  forall (mr : Multi.forwardMultiReadSeeker) (tr bl : Z) e0 e mr',
    Multi.Seek_loop fuel mr tr bl e0 = (e, mr') ->
    exists skipped,
      readers_content (Multi.readers mr) = skipped ++ readers_content (Multi.readers mr') /\
      Multi.pos mr' = Multi.pos mr + len skipped /\
      len skipped <= Z.max 0 tr.
Proof.
  induction fuel as [|fuel IH]; intros mr tr bl e0 e mr' H; simpl in H.
  - injection H as _ <-. exists []. unfold len. simpl. splits; auto; lia.
  - destruct (tr >? 0) eqn:E0.
    + set (bl' := if tr <? bl then tr else bl) in H.
      assert (Hbl : bl' <= tr) by (subst bl'; destruct (tr <? bl) eqn:E; lia).
      pose proof (Multi_Read_content mr (Z.to_nat bl')) as Hr.
      destruct (Multi.Read mr (Z.to_nat bl')) as [[d e1] mr1].
      destruct Hr as (Hc & Hp & Hl).
      destruct (is_some e1 || negb (len d =? bl')) eqn:E1.
      * injection H as _ <-. exists d. splits; auto. unfold len. lia.
      * apply orb_false_elim in E1. destruct E1 as [_ E1].
        apply negb_false_iff in E1. apply Z.eqb_eq in E1.
        destruct (IH _ _ _ _ _ _ H) as (sk & Hc' & Hp' & Hl').
        exists (d ++ sk). rewrite len_app. splits.
        -- rewrite Hc, Hc', <- app_assoc. reflexivity.
        -- rewrite Hp', Hp. lia.
        -- pose proof (len_nonneg d). lia.
    + injection H as _ <-. exists []. unfold len. simpl. splits; auto; lia.
Qed.

(** X15.  [Seek] of the multi reader only moves forward and never past its
    target.  The target is the offset itself for [SeekStart] and, for
    [SeekCurrent], the [int64] sum of position and offset, which wraps
    around.  For a target that is not negative and not before the position
    it discards some of the next bytes of the readers and returns the new
    position, which has grown by the number of bytes discarded and does not
    exceed the target.  For [SeekEnd], an unknown whence, a negative target
    (a sum that wrapped around included) or a target before the position it
    returns 0 with an error and leaves the reader as it was. *)
Theorem Multi_Seek_forward_only (mr : Multi.forwardMultiReadSeeker) (offset whence : Z) :
  let abs := if whence =? SeekStart then offset else add64 (Multi.pos mr) offset in
  let '(n, e, mr') := Multi.Seek mr offset whence in
  ((whence = SeekStart \/ whence = SeekCurrent) ->
   0 <= abs -> Multi.pos mr <= abs ->
   n = Multi.pos mr' /\ Multi.pos mr' <= abs /\
   exists skipped,
     readers_content (Multi.readers mr) = skipped ++ readers_content (Multi.readers mr') /\
     Multi.pos mr' = Multi.pos mr + len skipped) /\
  ((whence <> SeekStart /\ whence <> SeekCurrent) \/ abs < 0 \/ abs < Multi.pos mr ->
   n = 0 /\ e <> None /\ mr' = mr).
Proof.
  unfold Multi.Seek, SeekStart, SeekCurrent, SeekEnd.
  destruct (whence =? 2) eqn:W2.
  { split; [intros [->| ->]; discriminate|]. intros _. splits; auto. discriminate. }
  destruct (whence =? 0) eqn:W0; simpl.
  - destruct (offset <? 0) eqn:E1.
    { split; [intros; lia|]. intros _. splits; auto. discriminate. }
    destruct (offset <? Multi.pos mr) eqn:E2.
    { split; [intros; lia|]. intros _. splits; auto. discriminate. }
    destruct (Multi.Seek_loop (Z.to_nat (offset - Multi.pos mr)) mr
                (offset - Multi.pos mr) Multi.buf_len None) as [e mr'] eqn:E.
    apply Seek_loop_skips in E. destruct E as (sk & Hc & Hp & Hl).
    split.
    + intros _ _ _. splits; auto; [lia|]. exists sk. auto.
    + intros [[H _]|[H|H]]; [|lia|lia]. apply Z.eqb_eq in W0. contradiction.
  - destruct (whence =? 1) eqn:W1; simpl.
    + set (abs := add64 (Multi.pos mr) offset).
      destruct (abs <? 0) eqn:E1.
      { split; [intros; lia|]. intros _. splits; auto. discriminate. }
      destruct (abs <? Multi.pos mr) eqn:E2.
      { split; [intros; lia|]. intros _. splits; auto. discriminate. }
      destruct (Multi.Seek_loop (Z.to_nat (abs - Multi.pos mr)) mr
                  (abs - Multi.pos mr) Multi.buf_len None)
        as [e mr'] eqn:E.
      apply Seek_loop_skips in E. destruct E as (sk & Hc & Hp & Hl).
      split.
      * intros _ _ _. splits; auto; [lia|]. exists sk. auto.
      * intros [[_ H]|[H|H]]; [|lia|lia]. apply Z.eqb_eq in W1. contradiction.
    + split.
      * intros [->| ->]; discriminate.
      * intros _. splits; auto. discriminate.
Qed.

Lemma Multi_Seek_forward_only_witness :
  (exists mr', Multi.Seek abc_def 5 SeekStart = (Multi.pos mr', None, mr') /\
               Multi.pos mr' <= 5) /\
  (Multi.Seek (snd (Multi.Reads abc_def 2 2)) (-1) SeekCurrent
   = (0, Some errMultiBackwards, snd (Multi.Reads abc_def 2 2))) /\
  (Multi.Seek (snd (Multi.Reads abc_def 1 2)) max_int64 SeekCurrent
   = (0, Some errMultiNegative, snd (Multi.Reads abc_def 1 2))).
Proof.
  split; [|split].
  - pose proof (Multi_Seek_forward_only abc_def 5 SeekStart) as H.
    destruct (Multi.Seek abc_def 5 SeekStart) as [[n e] mr'] eqn:E.
    cbv zeta in H. destruct H as [H _].
    destruct H as (Hn & Hle & _);
      [left; reflexivity | vm_compute; discriminate | vm_compute; discriminate |].
    exists mr'. split; [|exact Hle]. subst n. f_equal. f_equal.
    vm_compute in E. injection E as _ <- _. reflexivity.
  - pose proof (Multi_Seek_forward_only (snd (Multi.Reads abc_def 2 2)) (-1) SeekCurrent) as H.
    destruct (Multi.Seek (snd (Multi.Reads abc_def 2 2)) (-1) SeekCurrent)
      as [[n e] mr'] eqn:E.
    cbv zeta in H. destruct H as [_ H].
    destruct H as (Hn & He & Hm); [right; right; vm_compute; reflexivity|].
    subst n mr'. f_equal. f_equal.
    vm_compute in E. injection E as <-. reflexivity.
  - pose proof (Multi_Seek_forward_only (snd (Multi.Reads abc_def 1 2)) max_int64 SeekCurrent)
      as H.
    destruct (Multi.Seek (snd (Multi.Reads abc_def 1 2)) max_int64 SeekCurrent)
      as [[n e] mr'] eqn:E.
    cbv zeta in H. destruct H as [_ H].
    destruct H as (Hn & He & Hm); [right; left; vm_compute; reflexivity|].
    subst n mr'. f_equal. f_equal.
    vm_compute in E. injection E as <-. reflexivity.
Defined.

(** X16.  Over a buffer at the head of the list that holds the bytes up to
    the target, [Seek] lands exactly on the target without error, however
    far it is (the loop skips 2048 bytes a turn), and leaves the rest of the
    buffer in place. *)
Theorem Multi_Seek_exact_in_buffer (b : bytes) (rest : list reader) (p target : Z) :
  0 <= p <= target ->
  target - p <= len b ->
  Multi.Seek (Multi.mk (BufReader b :: rest) p) target SeekStart
  = (target, None, Multi.mk (BufReader (skipn (Z.to_nat (target - p)) b) :: rest) target).
Proof.
  intros Hp Hl. unfold Multi.Seek. simpl.
  destruct (target <? 0) eqn:E1; [lia|].
  destruct (target <? p) eqn:E2; [lia|].
  rewrite Seek_loop_buf; try lia; [|unfold Multi.buf_len; lia].
  simpl. replace (p + (target - p)) with target by lia. reflexivity.
Qed.

Lemma Multi_Seek_exact_in_buffer_witness :
  Multi.Seek (Multi.mk (BufReader (repeat x61 5000) :: [SrcReader (bytesReader (B "z"))]) 0)
             4999 SeekStart
  = (4999, None,
     Multi.mk (BufReader (skipn (Z.to_nat (4999 - 0)) (repeat x61 5000))
               :: [SrcReader (bytesReader (B "z"))]) 4999).
Proof.
  apply (@Multi_Seek_exact_in_buffer (repeat x61 5000) [SrcReader (bytesReader (B "z"))] 0 4999).
  - lia.
  - unfold len. rewrite repeat_length. lia.
Defined.

(** * Further properties of the tee reader and the replay reader *)

Lemma Discard_ReadFrom_tees (fuel : nat) :
  forall (t : Tee.teeReadSeeker) (left done : Z),
    let '(done', e, t') := Tee.Discard_ReadFrom fuel t left done in
    exists extra,
      Tee.w t' = Tee.w t ++ extra /\
      stream (Tee.r t) = extra ++ stream (Tee.r t') /\
      done' = done + len extra /\
      len extra <= Z.max 0 left /\
      Tee.pos t' = Tee.pos t.
Proof.
  induction fuel as [|fuel IH]; intros t left done; simpl.
  - exists []. unfold len. simpl. rewrite app_nil_r. splits; auto; lia.
  - destruct (left <=? 0) eqn:E0.
    + exists []. unfold len. simpl. rewrite app_nil_r. splits; auto; lia.
    + rewrite Tee_Read_spec.
      pose proof (source_Read_stream (Tee.r t) (Z.to_nat (Z.min 8192 left))) as Hs.
      pose proof (source_Read_length (Tee.r t) (Z.to_nat (Z.min 8192 left))) as Hn.
      destruct (source_Read (Tee.r t) (Z.to_nat (Z.min 8192 left))) as [[d e] s'].
      destruct Hs as (Hs & _). simpl in Hn.
      destruct e as [e|].
      * exists d. simpl. splits; auto. unfold len. lia.
      * specialize (IH (Tee.mk s' (Tee.w t ++ d) (Tee.pos t)) (left - len d) (done + len d)).
        destruct (Tee.Discard_ReadFrom fuel _ _ _) as [[done' e'] t'].
        destruct IH as (extra & Hw & Hst & Hd & Hb & Hp). simpl in *.
        exists (d ++ extra). rewrite len_app. splits; auto.
        -- rewrite Hw, <- app_assoc. reflexivity.
        -- rewrite Hs, Hst, <- app_assoc. reflexivity.
        -- lia.
        -- unfold len in *. lia.
Qed.

(** X17.  The tee loses nothing and counts right.  Whatever [Seek] is asked
    (any offset, any whence, succeeding or not), the bytes it read from the
    source have all been appended to the sink, in order, so that sink
    followed by the rest of the source is unchanged; the position has grown
    by exactly the number of bytes appended; and the value returned is the
    new position, or 0 with an error when the request was refused and
    nothing was read. *)
Theorem Tee_Seek_captures (t : Tee.teeReadSeeker) (offset whence : Z) :
  let '(n, e, t') := Tee.Seek t offset whence in
  (exists extra,
      Tee.w t' = Tee.w t ++ extra /\
      stream (Tee.r t) = extra ++ stream (Tee.r t') /\
      Tee.pos t' = Tee.pos t + len extra) /\
  (n = Tee.pos t' \/ (n = 0 /\ e <> None /\ t' = t)).
Proof.
  assert (Hsame : forall e0 : error,
             (exists extra,
                 Tee.w t = Tee.w t ++ extra /\
                 stream (Tee.r t) = extra ++ stream (Tee.r t) /\
                 Tee.pos t = Tee.pos t + len extra) /\
             (0 = Tee.pos t \/ (0 = 0 /\ Some e0 <> None /\ t = t))).
  { intros e0. split.
    - exists []. unfold len. simpl. rewrite app_nil_r. splits; auto; lia.
    - right. splits; auto. discriminate. }
  unfold Tee.Seek.
  destruct (whence =? SeekEnd); [apply Hsame|].
  destruct (negb ((whence =? SeekStart) || (whence =? SeekCurrent))); [apply Hsame|].
  set (abs := if whence =? SeekStart then offset else add64 (Tee.pos t) offset).
  destruct (abs <? 0); [apply Hsame|].
  destruct (abs <? Tee.pos t); [apply Hsame|].
  unfold Tee.CopyN_Discard.
  pose proof (@Discard_ReadFrom_tees
                (Z.to_nat (abs - Tee.pos t) + length (pending (Tee.r t)) + 1)
                t (abs - Tee.pos t) 0) as H.
  destruct (Tee.Discard_ReadFrom _ t (abs - Tee.pos t) 0) as [[written e] t'].
  destruct H as (extra & Hw & Hs & Hd & _ & Hp).
  destruct (written =? abs - Tee.pos t) eqn:E1.
  - apply Z.eqb_eq in E1. simpl. split; [|left; reflexivity].
    exists extra. splits; auto. lia.
  - destruct ((written <? abs - Tee.pos t) && negb (is_some e));
      simpl; (split; [|left; reflexivity]); exists extra; splits; auto; lia.
Qed.

Lemma Tee_Seek_from_start (t : Tee.teeReadSeeker) (abs : Z) :
  0 <= Tee.pos t <= abs ->
  let '(n, e, t') := Tee.Seek t abs SeekStart in
  n = Tee.pos t' /\
  exists extra,
    Tee.w t' = Tee.w t ++ extra /\
    stream (Tee.r t) = extra ++ stream (Tee.r t') /\
    Tee.pos t' = Tee.pos t + len extra /\
    len extra <= abs - Tee.pos t.
Proof.
  intros Hp. unfold Tee.Seek. simpl.
  destruct (abs <? 0) eqn:E1; [lia|].
  destruct (abs <? Tee.pos t) eqn:E2; [lia|].
  unfold Tee.CopyN_Discard.
  pose proof (@Discard_ReadFrom_tees
                (Z.to_nat (abs - Tee.pos t) + length (pending (Tee.r t)) + 1)
                t (abs - Tee.pos t) 0) as H.
  destruct (Tee.Discard_ReadFrom _ t (abs - Tee.pos t) 0) as [[written e] t'].
  destruct H as (extra & Hw & Hs & Hd & Hb & Hp').
  destruct (written =? abs - Tee.pos t) eqn:E3.
  - apply Z.eqb_eq in E3. simpl. split; [reflexivity|].
    exists extra. splits; auto; lia.
  - destruct ((written <? abs - Tee.pos t) && negb (is_some e));
      simpl; (split; [reflexivity|]); exists extra; splits; auto; lia.
Qed.

(** The copy loop asked for more than the source holds reads all there is
    and stops on the final error of the source. *)
Lemma Discard_ReadFrom_short (fuel : nat) :
  forall (t : Tee.teeReadSeeker) (left done : Z),
    len (stream (Tee.r t)) < left ->
    (Z.to_nat left + length (pending (Tee.r t)) < fuel)%nat ->
    exists t',
      Tee.Discard_ReadFrom fuel t left done
      = (done + len (stream (Tee.r t)),
         if error_eqb (final (Tee.r t)) EOF then None else Some (final (Tee.r t)), t') /\
      Tee.w t' = Tee.w t ++ stream (Tee.r t) /\
      stream (Tee.r t') = [] /\
      Tee.pos t' = Tee.pos t.
Proof.
  induction fuel as [|fuel IH]; intros t left done Hl Hf; [lia|].
  pose proof (len_nonneg (stream (Tee.r t))) as Hn0.
  simpl. destruct (left <=? 0) eqn:E0; [lia|].
  rewrite Tee_Read_spec.
  set (k := Z.to_nat (Z.min 8192 left)).
  assert (Hk : (1 <= k)%nat /\ Z.of_nat k <= left) by (subst k; lia).
  destruct t as [[p eg f] w0 p0]. unfold source_Read, stream in *. simpl in *.
  destruct p as [|c rest].
  - simpl. eexists. split; [reflexivity|]. simpl. rewrite app_nil_r. splits; auto.
  - simpl in Hl, Hf. rewrite len_app in Hl.
    destruct (skipn k c) as [|x c'] eqn:Es.
    + pose proof (skipn_nil_length _ _ Es) as Hc.
      assert (Hd : firstn k c = c) by (apply firstn_all2; exact Hc).
      rewrite Hd.
      destruct (eg && is_nil rest) eqn:Ee.
      * apply andb_true_iff in Ee. destruct Ee as [_ Hr].
        destruct rest; [|discriminate]. simpl. rewrite app_nil_r.
        eexists. split; [reflexivity|]. simpl. splits; auto.
      * destruct (IH (Tee.mk (mkSource rest eg f) (w0 ++ c) p0)
                     (left - len c) (done + len c))
          as (t' & E & Hw & Hs & Hp); simpl.
        -- lia.
        -- unfold len. lia.
        -- rewrite E. exists t'. simpl in *. splits; auto.
           ++ rewrite len_app. f_equal. f_equal. lia.
           ++ rewrite Hw, <- app_assoc. reflexivity.
    + assert (Hkc : (k < length c)%nat).
      { apply (f_equal (@length byte)) in Es. rewrite length_skipn in Es.
        simpl in Es. lia. }
      assert (Hdk : length (firstn k c) = k) by (rewrite length_firstn; lia).
      assert (Hcc : c = firstn k c ++ x :: c')
        by (rewrite <- Es; symmetry; apply firstn_skipn).
      destruct (IH (Tee.mk (mkSource ((x :: c') :: rest) eg f) (w0 ++ firstn k c) p0)
                   (left - len (firstn k c)) (done + len (firstn k c)))
        as (t' & E & Hw & Hs & Hp); simpl.
      * change (x :: c' ++ concat rest) with ((x :: c') ++ concat rest).
        rewrite len_app. rewrite Hcc, len_app in Hl. lia.
      * unfold len. rewrite Hdk. lia.
      * rewrite E. exists t'. simpl in *. splits; auto.
        -- f_equal. f_equal.
           change (x :: c' ++ concat rest) with ((x :: c') ++ concat rest).
           rewrite Hcc at 2. rewrite !len_app. lia.
        -- rewrite Hw, <- app_assoc. f_equal.
           change (x :: c' ++ concat rest) with ((x :: c') ++ concat rest).
           rewrite Hcc at 2. rewrite <- app_assoc. reflexivity.
Qed.

Lemma error_eqb_EOF (e : error) : error_eqb e EOF = true -> e = EOF.
Proof. destruct e; simpl; congruence. Qed.

(** A forward seek of the tee beyond the end of its source. *)
Lemma Tee_Seek_beyond (t : Tee.teeReadSeeker) (abs : Z) :
  0 <= Tee.pos t ->
  Tee.pos t + len (stream (Tee.r t)) < abs ->
  exists t',
    Tee.Seek t abs SeekStart
    = (Tee.pos t + len (stream (Tee.r t)), Some (final (Tee.r t)), t') /\
    Tee.w t' = Tee.w t ++ stream (Tee.r t) /\
    stream (Tee.r t') = [] /\
    Tee.pos t' = Tee.pos t + len (stream (Tee.r t)).
Proof.
  intros Hp Hl. pose proof (len_nonneg (stream (Tee.r t))) as Hn.
  unfold Tee.Seek. simpl.
  destruct (abs <? 0) eqn:E1; [lia|].
  destruct (abs <? Tee.pos t) eqn:E2; [lia|].
  unfold Tee.CopyN_Discard.
  destruct (@Discard_ReadFrom_short
              (Z.to_nat (abs - Tee.pos t) + length (pending (Tee.r t)) + 1)
              t (abs - Tee.pos t) 0)
    as (t' & E & Hw & Hs & Hp'); [lia | lia |].
  rewrite E. simpl.
  destruct (len (stream (Tee.r t)) =? abs - Tee.pos t) eqn:E3; [lia|].
  destruct (len (stream (Tee.r t)) <? abs - Tee.pos t) eqn:E4; [|lia].
  destruct (error_eqb (final (Tee.r t)) EOF) eqn:E5; simpl.
  - apply error_eqb_EOF in E5. rewrite E5, Hp'.
    eexists. split; [reflexivity|]. simpl. splits; auto.
  - rewrite Hp'. eexists. split; [reflexivity|]. simpl. splits; auto.
Qed.

(** X18.  A forward seek of the tee beyond the end of its source reads all
    the source holds into the sink, stops at the end, and reports the final
    error of the source (the end of data, for a source that ends). *)
Theorem Tee_Seek_past_end (t : Tee.teeReadSeeker) (abs : Z) :
  0 <= Tee.pos t ->
  Tee.pos t + len (stream (Tee.r t)) < abs ->
  exists t',
    Tee.Seek t abs SeekStart
    = (Tee.pos t + len (stream (Tee.r t)), Some (final (Tee.r t)), t') /\
    Tee.w t' = Tee.w t ++ stream (Tee.r t) /\
    stream (Tee.r t') = [] /\
    Tee.pos t' = Tee.pos t + len (stream (Tee.r t)).
Proof. exact (@Tee_Seek_beyond t abs). Qed.

Lemma Tee_Seek_past_end_witness :
  exists t',
    Tee.Seek abcde_tee 9 SeekStart
    = (Tee.pos abcde_tee + len (stream (Tee.r abcde_tee)),
       Some (final (Tee.r abcde_tee)), t') /\
    Tee.w t' = Tee.w abcde_tee ++ stream (Tee.r abcde_tee) /\
    stream (Tee.r t') = [] /\
    Tee.pos t' = Tee.pos abcde_tee + len (stream (Tee.r abcde_tee)).
Proof.
  apply (@Tee_Seek_past_end abcde_tee 9).
  - vm_compute. discriminate.
  - vm_compute. reflexivity.
Defined.

(** [seek] to a target counted from the start, while buffering: the cursor
    ends on the target, or at the end of the buffer when the source gave
    less; nothing is lost. *)
Lemma Reader_seek_start (c : Reader.t) (abs : Z) :
  Reader.Buffering c -> 0 <= abs ->
  let '(n, e, c') := Reader.seek c abs SeekStart in
  n = Reader.pos c' /\
  Reader.Buffering c' /\
  Reader.all_bytes c' = Reader.all_bytes c /\
  Reader.pos c' <= abs /\
  (Reader.pos c' = abs \/ Reader.pos c' = len (Reader.buf c')) /\
  len (Reader.buf c) <= len (Reader.buf c').
Proof.
  intros (Hpipe & Htee & Hpos) Ha. unfold Reader.seek. simpl.
  destruct (abs <? 0) eqn:E1; [lia|].
  destruct (abs >? len (Reader.buf c)) eqn:E2.
  - pose proof (@Tee_Seek_from_start (Reader.r_tee c) abs) as H.
    destruct (Tee.Seek (Reader.r_tee c) abs SeekStart) as [[n e] t'].
    destruct H as (Hn & extra & Hw & Hs & Hp & Hb).
    { rewrite Htee. pose proof (len_nonneg (Reader.buf c)). lia. }
    unfold Reader.Buffering, Reader.all_bytes, Reader.buf, Reader.r in *. simpl.
    assert (Hlen : len (Tee.w t') = Tee.pos t') by (rewrite Hw, len_app; lia).
    pose proof (len_nonneg extra).
    splits; auto; try lia.
    rewrite Hw, Hs, <- app_assoc. reflexivity.
  - unfold Reader.Buffering, Reader.all_bytes, Reader.buf, Reader.r in *. simpl.
    splits; auto; lia.
Qed.

Lemma firstn_min_length {A : Type} (k : nat) (l : list A) :
  firstn k l = firstn (Nat.min k (length l)) l.
Proof.
  destruct (Nat.le_ge_cases k (length l)).
  - rewrite Nat.min_l by lia. reflexivity.
  - rewrite Nat.min_r by lia. rewrite firstn_all, firstn_all2 by lia. reflexivity.
Qed.

(** The bytes read off the buffer at the cursor are the next bytes of the
    whole stream. *)
Lemma read_off_buffer (b s : bytes) (p k : nat) :
  (p <= length b)%nat ->
  firstn k (skipn p b) ++ skipn (p + length (firstn k (skipn p b))) (b ++ s)
  = skipn p (b ++ s).
Proof.
  intros Hp.
  rewrite Nat.add_comm, <- skipn_skipn.
  rewrite (skipn_app p b s). replace (p - length b)%nat with 0%nat by lia. simpl.
  set (X := skipn p b).
  rewrite (firstn_min_length k X).
  set (m := Nat.min k (length X)).
  assert (Hm : (m <= length X)%nat) by (subst m; lia).
  rewrite length_firstn, Nat.min_l by lia.
  rewrite skipn_app. replace (m - length X)%nat with 0%nat by lia. simpl.
  rewrite app_assoc, firstn_skipn. reflexivity.
Qed.

Lemma Reader_Read_law (c : Reader.t) (k : nat) :
  Reader.Buffering c ->
  exists d e c',
    Reader.Read c k = Ret (d, e, c') /\
    Reader.Buffering c' /\
    Reader.all_bytes c' = Reader.all_bytes c /\
    Reader.pos c' = Reader.pos c + len d /\
    (length d <= k)%nat /\
    d ++ Reader.remaining c' = Reader.remaining c.
Proof.
  intros HB. pose proof HB as (Hpipe & Htee & Hpos).
  unfold Reader.Read, Reader.ReadAt. rewrite Hpipe.
  pose proof (@Reader_seek_start c (Reader.pos c + Z.of_nat k) HB) as H.
  destruct (Reader.seek c (Reader.pos c + Z.of_nat k) SeekStart) as [[n e] c1].
  destruct H as (Hn & HB1 & Hall & Hle & Hor & Hgrow); [lia|].
  pose proof HB1 as (Hpipe1 & Htee1 & Hpos1).
  assert (Hrem : forall c, Reader.pipe c = false ->
                 Reader.remaining c = skipn (Z.to_nat (Reader.pos c)) (Reader.all_bytes c)).
  { intros c0 H0. unfold Reader.remaining. rewrite H0. reflexivity. }
  destruct (n <=? Reader.pos c) eqn:E.
  - assert (Hp : Reader.pos c1 = Reader.pos c) by lia.
    exists [], e, c1. split; [reflexivity|]. unfold len. simpl.
    splits; auto; try lia.
    rewrite !Hrem by assumption. rewrite Hp, Hall. reflexivity.
  - rewrite slice_from_ok by lia. simpl.
    set (d := copy k (skipn (Z.to_nat (Reader.pos c)) (Reader.buf c1))).
    assert (Hd : len d = Reader.pos c1 - Reader.pos c).
    { subst d. unfold copy, len in *. rewrite length_firstn, length_skipn. lia. }
    exists d, e, c1. split; [reflexivity|]. splits; auto; try lia.
    + subst d. unfold copy. rewrite length_firstn. lia.
    + rewrite !Hrem by assumption. rewrite <- Hall.
      replace (Z.to_nat (Reader.pos c1))
        with (Z.to_nat (Reader.pos c) + length d)%nat by (unfold len in Hd; lia).
      subst d. unfold copy, Reader.all_bytes.
      apply read_off_buffer. unfold len in *. lia.
Qed.

Lemma Reader_Reads_law (ks : list nat) :
  forall c : Reader.t,
    Reader.Buffering c ->
    exists xs c',
      Reader.Reads c ks = Ret (xs, c') /\
      Reader.Buffering c' /\
      Reader.all_bytes c' = Reader.all_bytes c /\
      Reader.pos c' = Reader.pos c + len (Reader.data_of xs) /\
      Reader.data_of xs ++ Reader.remaining c' = Reader.remaining c.
Proof.
  induction ks as [|k ks IH]; intros c HB; simpl.
  - exists [], c. unfold Reader.data_of, len. simpl. splits; auto. lia.
  - destruct (@Reader_Read_law c k HB) as (d & e & c1 & -> & HB1 & Ha1 & Hp1 & _ & Hr1).
    simpl. destruct (IH c1 HB1) as (xs & c2 & -> & HB2 & Ha2 & Hp2 & Hr2). simpl.
    exists ((d, e) :: xs), c2. split; [reflexivity|].
    unfold Reader.data_of in *. simpl. rewrite len_app. splits; auto.
    + congruence.
    + lia.
    + rewrite <- app_assoc, Hr2. exact Hr1.
Qed.

(** X19.  Reads of a buffering reader, in any chunking: they never panic;
    each returns the next bytes of the stream at the cursor, at most as many
    as asked for, and moves the cursor by the number of bytes returned; the
    bytes returned and the bytes still ahead of the cursor always add up to
    what was ahead before, and buffer and source together never lose a
    byte. *)
Theorem Reader_Reads_in_order (c : Reader.t) (ks : list nat) :
  Reader.Buffering c ->
  exists xs c',
    Reader.Reads c ks = Ret (xs, c') /\
    Reader.Buffering c' /\
    Reader.all_bytes c' = Reader.all_bytes c /\
    Reader.pos c' = Reader.pos c + len (Reader.data_of xs) /\
    Reader.data_of xs ++ Reader.remaining c' = Reader.remaining c.
Proof. intros HB. apply Reader_Reads_law. exact HB. Qed.

Lemma Reader_Reads_in_order_witness :
  exists xs c',
    Reader.Reads abcde_reader [2; 0; 7; 1]%nat = Ret (xs, c') /\
    Reader.Buffering c' /\
    Reader.all_bytes c' = Reader.all_bytes abcde_reader /\
    Reader.pos c' = Reader.pos abcde_reader + len (Reader.data_of xs) /\
    Reader.data_of xs ++ Reader.remaining c' = Reader.remaining abcde_reader.
Proof.
  apply (@Reader_Reads_in_order abcde_reader [2; 0; 7; 1]%nat).
  vm_compute. splits; try reflexivity; discriminate.
Defined.

(** A read that asks for more than is left, while buffering. *)
Lemma Reader_Read_end_law (c : Reader.t) (k : nat) :
  Reader.Buffering c ->
  len (Reader.all_bytes c) < Reader.pos c + Z.of_nat k ->
  exists c',
    Reader.Read c k
    = Ret (skipn (Z.to_nat (Reader.pos c)) (Reader.all_bytes c),
           Some (final (Reader.r c)), c') /\
    Reader.pos c' = len (Reader.all_bytes c) /\
    Reader.buf c' = Reader.all_bytes c /\
    Reader.Buffering c'.
Proof.
  intros (Hpipe & Htee & Hpos) Hl.
  unfold Reader.all_bytes in *. rewrite len_app in Hl.
  pose proof (len_nonneg (stream (Reader.r c))) as Hs0.
  unfold Reader.Read, Reader.ReadAt, Reader.seek. rewrite Hpipe. simpl.
  destruct (Reader.pos c + Z.of_nat k <? 0) eqn:E1; [lia|].
  destruct (Reader.pos c + Z.of_nat k >? len (Reader.buf c)) eqn:E2; [|lia].
  destruct (@Tee_Seek_beyond (Reader.r_tee c) (Reader.pos c + Z.of_nat k))
    as (t' & E & Hw & Hs & Hp).
  { rewrite Htee. lia. }
  { rewrite Htee. unfold Reader.buf, Reader.r in *. lia. }
  rewrite E. unfold Reader.buf, Reader.r in *.
  assert (Hlen : len (Tee.w t') = Tee.pos (Reader.r_tee c)
                                 + len (stream (Tee.r (Reader.r_tee c))))
    by (rewrite Hw, len_app; lia).
  destruct (Tee.pos (Reader.r_tee c) + len (stream (Tee.r (Reader.r_tee c)))
            <=? Reader.pos c) eqn:E3.
  - eexists. split.
    + rewrite skipn_all2 by (rewrite length_app; unfold len in *; lia). reflexivity.
    + unfold Reader.Buffering, Reader.buf. simpl. rewrite len_app. splits; auto; lia.
  - simpl. rewrite slice_from_ok by lia. simpl.
    eexists. split.
    + unfold copy. rewrite Hw.
      rewrite firstn_all2
        by (rewrite length_skipn, length_app; unfold len in *; lia).
      reflexivity.
    + unfold Reader.Buffering, Reader.buf. simpl. rewrite len_app. splits; auto; lia.
Qed.

(** X20.  Reading a buffering reader to the end: a [Read] that asks for more
    bytes than buffer and source together still hold at the cursor returns
    all the bytes that are left (none, when the cursor is at the end)
    together with the final error of the source, the end of data for a
    source that ends, and leaves the cursor at the end. *)
Theorem Reader_Read_to_the_end (c : Reader.t) (k : nat) :
  Reader.Buffering c ->
  len (Reader.all_bytes c) < Reader.pos c + Z.of_nat k ->
  exists c',
    Reader.Read c k
    = Ret (skipn (Z.to_nat (Reader.pos c)) (Reader.all_bytes c),
           Some (final (Reader.r c)), c') /\
    Reader.pos c' = len (Reader.all_bytes c) /\
    Reader.buf c' = Reader.all_bytes c /\
    Reader.Buffering c'.
Proof. exact (@Reader_Read_end_law c k). Qed.

Lemma Reader_Read_to_the_end_witness :
  exists c',
    Reader.Read abcde_reader 9
    = Ret (skipn (Z.to_nat (Reader.pos abcde_reader)) (Reader.all_bytes abcde_reader),
           Some (final (Reader.r abcde_reader)), c') /\
    Reader.pos c' = len (Reader.all_bytes abcde_reader) /\
    Reader.buf c' = Reader.all_bytes abcde_reader /\
    Reader.Buffering c'.
Proof.
  apply (@Reader_Read_to_the_end abcde_reader 9%nat).
  - vm_compute. splits; try reflexivity; discriminate.
  - vm_compute. reflexivity.
Defined.

(** As [slice_of_filled], for a slice that may start beyond [b]. *)
Lemma slice_of_filled_far (b s : bytes) (p k n : nat) :
  (p + k <= length b + n)%nat -> (n <= length s)%nat ->
  firstn k (skipn p (b ++ firstn n s)) = firstn k (skipn p (b ++ s)).
Proof.
  intros Hk Hn.
  assert (Hlen : length (b ++ firstn n s) = (length b + n)%nat)
    by (rewrite length_app, length_firstn; lia).
  rewrite <- (firstn_skipn n s) at 2.
  rewrite app_assoc.
  rewrite (skipn_app p (b ++ firstn n s) (skipn n s)).
  rewrite (firstn_app k (skipn p (b ++ firstn n s))).
  replace (k - length (skipn p (b ++ firstn n s)))%nat with 0%nat
    by (rewrite length_skipn; lia).
  simpl. rewrite app_nil_r. reflexivity.
Qed.

(** [ReadAt] within what buffer and source hold, while buffering. *)
Lemma Reader_ReadAt_law (c : Reader.t) (k : nat) (off : Z) :
  Reader.Buffering c ->
  0 <= off ->
  off + Z.of_nat k <= len (Reader.all_bytes c) ->
  exists c',
    Reader.ReadAt c k off
    = Ret (firstn k (skipn (Z.to_nat off) (Reader.all_bytes c)), None, c') /\
    Reader.Buffering c' /\
    Reader.pos c' = off + Z.of_nat k /\
    Reader.all_bytes c' = Reader.all_bytes c.
Proof.
  intros (Hpipe & Htee & Hpos) Ho Hl. unfold Reader.all_bytes in *.
  unfold Reader.ReadAt, Reader.seek. rewrite Hpipe. simpl.
  destruct (off + Z.of_nat k <? 0) eqn:E1; [lia|].
  destruct (off + Z.of_nat k >? len (Reader.buf c)) eqn:E2.
  - destruct (@Tee_Seek_forward (Reader.r_tee c) (off + Z.of_nat k))
      as (t' & E & Hw & Hs & Hp').
    { rewrite Htee. pose proof (len_nonneg (Reader.buf c)). lia. }
    { rewrite Htee. rewrite len_app in Hl. unfold Reader.r in Hl. lia. }
    rewrite E.
    destruct (off + Z.of_nat k <=? off) eqn:E3.
    { assert (k = 0%nat) by lia. subst k. change (Z.of_nat 0) with 0 in *. simpl.
      eexists. split; [reflexivity|].
      unfold Reader.Buffering, Reader.buf, Reader.r in *. simpl.
      rewrite Hw, Hs, len_app. rewrite len_app in Hl.
      unfold len in *. rewrite length_firstn.
      splits; auto; try lia. rewrite <- app_assoc, firstn_skipn. reflexivity. }
    unfold Reader.buf, Reader.r in *. simpl.
    assert (Hlen : len (Tee.w t') = off + Z.of_nat k).
    { rewrite Hw, len_app. rewrite len_app in Hl. unfold len in *.
      rewrite length_firstn. lia. }
    rewrite slice_from_ok by lia. simpl.
    eexists. split; [|splits].
    + f_equal. f_equal. f_equal. unfold copy. rewrite Hw.
      apply slice_of_filled_far.
      * unfold len in *. lia.
      * rewrite len_app in Hl. unfold len in *. lia.
    + unfold Reader.Buffering, Reader.buf. simpl. splits; auto; lia.
    + reflexivity.
    + simpl. rewrite Hw, Hs, <- app_assoc, firstn_skipn. reflexivity.
  - destruct (off + Z.of_nat k <=? off) eqn:E3.
    + assert (k = 0%nat) by lia. subst k. change (Z.of_nat 0) with 0 in *. simpl.
      eexists. split; [reflexivity|].
      unfold Reader.Buffering, Reader.all_bytes, Reader.buf, Reader.r in *. simpl.
      splits; auto; lia.
    + simpl. rewrite slice_from_ok by (unfold Reader.buf in *; simpl; lia). simpl.
      eexists. split; [|splits].
      * f_equal. f_equal. f_equal. unfold copy.
        rewrite skipn_app, firstn_app.
        replace (k - length (skipn (Z.to_nat off) (Reader.buf c)))%nat
          with 0%nat by (rewrite length_skipn; unfold len in *; lia).
        simpl. rewrite app_nil_r. reflexivity.
      * unfold Reader.Buffering, Reader.buf in *. simpl. splits; auto; lia.
      * reflexivity.
      * reflexivity.
Qed.

(** X21.  Random access while buffering: [ReadAt] for [k] bytes at any
    offset [off >= 0], behind the cursor or ahead of everything read so far,
    with [off + k] within what buffer and source hold, returns exactly the
    [k] bytes of the stream at [off], pulling from the source what is
    missing; and it moves the cursor to [off + k]. *)
Theorem Reader_ReadAt_random_access (c : Reader.t) (k : nat) (off : Z) :
  Reader.Buffering c ->
  0 <= off ->
  off + Z.of_nat k <= len (Reader.all_bytes c) ->
  exists c',
    Reader.ReadAt c k off
    = Ret (firstn k (skipn (Z.to_nat off) (Reader.all_bytes c)), None, c') /\
    Reader.Buffering c' /\
    Reader.pos c' = off + Z.of_nat k /\
    Reader.all_bytes c' = Reader.all_bytes c.
Proof. exact (@Reader_ReadAt_law c k off). Qed.

Lemma Reader_ReadAt_random_access_witness :
  exists c',
    Reader.ReadAt abcde_reader 2 3
    = Ret (firstn 2 (skipn (Z.to_nat 3) (Reader.all_bytes abcde_reader)), None, c') /\
    Reader.Buffering c' /\
    Reader.pos c' = 3 + Z.of_nat 2 /\
    Reader.all_bytes c' = Reader.all_bytes abcde_reader.
Proof.
  apply (@Reader_ReadAt_random_access abcde_reader 2%nat 3).
  - vm_compute. splits; try reflexivity; discriminate.
  - lia.
  - vm_compute. discriminate.
Defined.

(** X22.  [ReadAt] with a negative offset panics while buffering: the seek
    that fills the buffer never returns a negative position, so the guard
    lets the call through to the slice [bufBytes[off:]]. *)
Theorem Reader_ReadAt_negative_panics (c : Reader.t) (k : nat) (off : Z) :
  Reader.Buffering c ->
  off < 0 ->
  Reader.ReadAt c k off = Panic.
Proof.
  intros HB Ho. pose proof HB as (Hpipe & Htee & Hpos).
  unfold Reader.ReadAt. rewrite Hpipe.
  destruct (off + Z.of_nat k <? 0) eqn:E1.
  - unfold Reader.seek. simpl. rewrite E1.
    destruct (0 <=? off) eqn:E2; [lia|]. simpl.
    rewrite slice_from_panic by lia. reflexivity.
  - pose proof (@Reader_seek_start c (off + Z.of_nat k) HB) as H.
    destruct (Reader.seek c (off + Z.of_nat k) SeekStart) as [[n e] c1].
    destruct H as (Hn & (_ & _ & Hpos1) & _); [lia|].
    destruct (n <=? off) eqn:E2; [lia|].
    rewrite slice_from_panic by lia. reflexivity.
Qed.

Lemma Reader_ReadAt_negative_panics_witness :
  Reader.ReadAt abcde_reader 2 (-1) = Panic.
Proof.
  apply (@Reader_ReadAt_negative_panics abcde_reader 2%nat (-1)).
  - vm_compute. splits; try reflexivity; discriminate.
  - lia.
Defined.

(** [Pipe] while buffering hands the multi reader the buffer from the cursor
    on, followed by the source. *)
Lemma Reader_Pipe_readers (c : Reader.t) :
  Reader.Buffering c ->
  Reader.Pipe c
  = Reader.mk (Reader.r_tee c)
      (Some (Multi.mk [BufReader (skipn (Z.to_nat (Reader.pos c)) (Reader.buf c));
                       SrcReader (Reader.r c)] (Reader.pos c)))
      (Reader.pos c) true.
Proof.
  intros (Hpipe & Htee & Hpos). unfold Reader.Pipe. rewrite Hpipe.
  unfold Multi.Seek, Multi.ForwardMultiReadSeeker. simpl.
  destruct (Reader.pos c <? 0) eqn:E1; [lia|].
  rewrite Z.sub_0_r.
  rewrite Seek_loop_buf; try lia; [|unfold Multi.buf_len; lia].
  simpl. reflexivity.
Qed.

(** Reads of a piped reader take their bytes off the readers, in order. *)
Lemma Reader_Reads_piped_content (ks : list nat) :
  forall (c : Reader.t) (mr : Multi.forwardMultiReadSeeker),
    Reader.pipe c = true -> Reader.r_mr c = Some mr ->
    exists xs c',
      Reader.Reads c ks = Ret (xs, c') /\
      Reader.pipe c' = true /\
      Reader.position c' = Reader.position c + len (Reader.data_of xs) /\
      Reader.data_of xs ++ Reader.remaining c' = Reader.remaining c.
Proof.
  induction ks as [|k ks IH]; intros c mr Hp Hm; simpl.
  - exists [], c. unfold Reader.data_of, len. simpl. splits; auto. lia.
  - unfold Reader.Read, Reader.on_mr. rewrite Hp, Hm.
    pose proof (Multi_Read_content mr k) as Hr.
    destruct (Multi.Read mr k) as [[d e] mr1]. simpl.
    destruct Hr as (Hc & Hpos & _).
    destruct (IH (Reader.mk (Reader.r_tee c) (Some mr1) (Reader.pos c) true) mr1)
      as (xs & c' & E & Hp' & Hpos' & Hrem'); auto.
    rewrite E. simpl.
    exists ((d, e) :: xs), c'. split; [reflexivity|].
    unfold Reader.position, Reader.remaining in *. rewrite Hp, Hm. simpl in *.
    unfold Reader.data_of in *. simpl. rewrite len_app. splits; auto.
    + rewrite Hpos', Hpos. lia.
    + rewrite <- app_assoc, Hrem'. symmetry. exact Hc.
Qed.

(** X23.  The stream continues across [Pipe], whatever was read before.  On
    a buffering reader, any reads, then [Pipe], then any further reads never
    panic; the reads after [Pipe] start at the cursor, first with what the
    buffer still holds behind it and then with the source; and the bytes
    returned before and after [Pipe], followed by what is still to come, are
    exactly what was ahead of the cursor at the start: no byte is lost,
    repeated or reordered by the switch. *)
Theorem Reader_stream_across_Pipe (c : Reader.t) (ks1 ks2 : list nat) :
  Reader.Buffering c ->
  exists xs1 c1 xs2 c2,
    Reader.Reads c ks1 = Ret (xs1, c1) /\
    Reader.Reads (Reader.Pipe c1) ks2 = Ret (xs2, c2) /\
    Reader.pipe c2 = true /\
    Reader.position (Reader.Pipe c1) = Reader.pos c + len (Reader.data_of xs1) /\
    Reader.position c2
    = Reader.pos c + len (Reader.data_of xs1) + len (Reader.data_of xs2) /\
    Reader.data_of xs1 ++ Reader.data_of xs2 ++ Reader.remaining c2
    = Reader.remaining c.
Proof.
  intros HB.
  destruct (@Reader_Reads_law ks1 c HB) as (xs1 & c1 & E1 & HB1 & Ha1 & Hp1 & Hr1).
  pose proof (Reader_Pipe_readers HB1) as EP.
  destruct (@Reader_Reads_piped_content ks2 (Reader.Pipe c1)
              (Multi.mk [BufReader (skipn (Z.to_nat (Reader.pos c1)) (Reader.buf c1));
                         SrcReader (Reader.r c1)] (Reader.pos c1)))
    as (xs2 & c2 & E2 & Hp2 & Hpos2 & Hr2); [rewrite EP; reflexivity ..|].
  assert (Hposition : Reader.position (Reader.Pipe c1) = Reader.pos c1)
    by (rewrite EP; reflexivity).
  assert (Hrem : Reader.remaining (Reader.Pipe c1) = Reader.remaining c1).
  { rewrite EP. destruct HB1 as (Hpipe1 & _ & Hpos1).
    unfold Reader.remaining, Reader.all_bytes. rewrite Hpipe1. simpl.
    unfold readers_content. simpl. rewrite app_nil_r.
    rewrite (skipn_app (Z.to_nat (Reader.pos c1)) (Reader.buf c1) (stream (Reader.r c1))).
    replace (Z.to_nat (Reader.pos c1) - length (Reader.buf c1))%nat with 0%nat
      by (unfold len in Hpos1; lia).
    reflexivity. }
  exists xs1, c1, xs2, c2. splits; auto.
  - rewrite Hposition. exact Hp1.
  - rewrite Hpos2, Hposition, Hp1. reflexivity.
  - rewrite Hr2, Hrem. exact Hr1.
Qed.

Lemma Reader_stream_across_Pipe_witness :
  exists xs1 c1 xs2 c2,
    Reader.Reads abcde_reader [2]%nat = Ret (xs1, c1) /\
    Reader.Reads (Reader.Pipe c1) [1; 5]%nat = Ret (xs2, c2) /\
    Reader.pipe c2 = true /\
    Reader.position (Reader.Pipe c1)
    = Reader.pos abcde_reader + len (Reader.data_of xs1) /\
    Reader.position c2
    = Reader.pos abcde_reader + len (Reader.data_of xs1) + len (Reader.data_of xs2) /\
    Reader.data_of xs1 ++ Reader.data_of xs2 ++ Reader.remaining c2
    = Reader.remaining abcde_reader.
Proof.
  apply (@Reader_stream_across_Pipe abcde_reader [2]%nat [1; 5]%nat).
  vm_compute. splits; try reflexivity; discriminate.
Defined.

(** X24.  [ReadByte] of a buffering reader.  With a byte of buffer or source
    at the cursor it returns that byte without error and moves the cursor by
    one.  With the cursor at the end it returns the zero byte together with
    the final error of the source, and the cursor stays. *)
Theorem Reader_ReadByte_buffering (c : Reader.t) :
  Reader.Buffering c ->
  exists b e c',
    Reader.ReadByte c = Ret (b, e, c') /\
    Reader.Buffering c' /\
    (Reader.pos c < len (Reader.all_bytes c) ->
     nth_error (Reader.all_bytes c) (Z.to_nat (Reader.pos c)) = Some b /\
     e = None /\ Reader.pos c' = Reader.pos c + 1) /\
    (len (Reader.all_bytes c) <= Reader.pos c ->
     b = x00 /\ e = Some (final (Reader.r c)) /\ Reader.pos c' = Reader.pos c).
Proof.
  intros HB. pose proof HB as (Hpipe & Htee & Hpos).
  assert (Hall : len (Reader.buf c) <= len (Reader.all_bytes c)).
  { unfold Reader.all_bytes. rewrite len_app.
    pose proof (len_nonneg (stream (Reader.r c))). lia. }
  unfold Reader.ReadByte.
  destruct (Z_lt_le_dec (Reader.pos c) (len (Reader.all_bytes c))) as [Hlt|Hge].
  - destruct (@Reader_ReadAt_law c 1%nat (Reader.pos c) HB) as (c' & E & HB' & Hp' & _);
      [lia | lia |].
    unfold Reader.Read. rewrite Hpipe, E. simpl.
    destruct (skipn (Z.to_nat (Reader.pos c)) (Reader.all_bytes c)) as [|b0 rest] eqn:Esk.
    { apply (f_equal (@length byte)) in Esk. rewrite length_skipn in Esk.
      simpl in Esk. unfold len in Hlt. lia. }
    simpl. exists b0, None, c'. splits; auto; [|intros; lia].
    intros _. splits; auto.
    rewrite <- (firstn_skipn (Z.to_nat (Reader.pos c)) (Reader.all_bytes c)).
    rewrite Esk, nth_error_app2; rewrite length_firstn.
    + replace (Z.to_nat (Reader.pos c)
               - Nat.min (Z.to_nat (Reader.pos c)) (length (Reader.all_bytes c)))%nat
        with 0%nat by (unfold len in Hlt; lia).
      reflexivity.
    + unfold len in Hlt. lia.
  - destruct (@Reader_Read_end_law c 1%nat HB) as (c' & E & Hp' & _ & HB'); [lia|].
    rewrite E. simpl.
    rewrite skipn_all2 by (unfold len in Hge; lia).
    exists x00, (Some (final (Reader.r c))), c'. splits; auto; [intros; lia|].
    intros _. splits; auto. lia.
Qed.

Lemma Reader_ReadByte_buffering_witness :
  exists b e c',
    Reader.ReadByte abcde_reader = Ret (b, e, c') /\
    Reader.Buffering c' /\
    (Reader.pos abcde_reader < len (Reader.all_bytes abcde_reader) ->
     nth_error (Reader.all_bytes abcde_reader) (Z.to_nat (Reader.pos abcde_reader)) = Some b /\
     e = None /\ Reader.pos c' = Reader.pos abcde_reader + 1) /\
    (len (Reader.all_bytes abcde_reader) <= Reader.pos abcde_reader ->
     b = x00 /\ e = Some (final (Reader.r abcde_reader)) /\
     Reader.pos c' = Reader.pos abcde_reader).
Proof.
  apply (@Reader_ReadByte_buffering abcde_reader).
  vm_compute. splits; try reflexivity; discriminate.
Defined.
